(** * python-htsp: the HTSP session engine ([python_htsp/htsp_session.py])

    A shallow embedding of [HTSPSession]: the request/response correlator
    ([_invoke_command]), the entity cache handlers ([_handle_*],
    [_update_reponse]), the observer fan-out ([_notify]) and the entry
    points built from them ([hello], [diskspace], [fetch_initial_data],
    [monitor]).

    Python objects are modelled by value.  The socket and the message codec
    ([tvh.htsmsg]) are outside the repository: the socket is a stream of
    inbound items, a sent frame is the field map handed to the codec. *)

From stdpp Require Import gmap strings list fin_maps.
From Stdlib Require Import ZArith Lia.

Open Scope string_scope.
Open Scope list_scope.
Open Scope Z_scope.
Open Scope stdpp_scope.

(** ** Field values

    What [htsmsg.deserialize] produces: integers, strings (binary blobs are
    [str] in Python 2), lists and nested field maps. *)

#[local] Set Warnings "-register-all".

Inductive value : Type :=
| VInt (z : Z)
| VStr (s : string)
| VList (l : list value)
| VMap (m : gmap string value).

(** A message is a Python [dict] with string keys. *)
Abbreviation message := (gmap string value).

(** Python truthiness, as used by [if value:]. *)
Definition truthy (v : value) : bool :=
  match v with
  | VInt z => negb (z =? 0)
  | VStr s => negb (String.eqb s EmptyString)
  | VList l => match l with [] => false | _ => true end
  | VMap m => negb (Nat.eqb (size m) 0)
  end.

(** [v != n] for an integer [n]: a value of another type is unequal. *)
Definition value_ne_int (v : value) (n : Z) : bool :=
  match v with
  | VInt z => negb (z =? n)
  | _ => true
  end.

(** [v < n] for an integer [n].  Python 2 orders numbers before values of
    every other type, so only an integer can be smaller. *)
Definition value_lt_int (v : value) (n : Z) : bool :=
  match v with
  | VInt z => z <? n
  | _ => false
  end.

(** Dictionary keys of the caches: identifiers are integers (tags, channels,
    events, recordings) or strings (auto-record rules).  Lists and maps are
    unhashable. *)
Abbreviation key := (Z + string)%type.

Definition hash_key (v : value) : option key :=
  match v with
  | VInt z => Some (inl z)
  | VStr s => Some (inr s)
  | _ => None
  end.

(** ** Exceptions *)

Inductive exn : Type :=
| Exception (msg : string)
| KeyError
| TypeError
| AttributeError
| ValueError
| SocketError
| ProtocolVersionException (required : Z) (server : value)
| RequestError
| KeyboardInterrupt
| SystemExit.

(** [isinstance(e, Exception)]: [KeyboardInterrupt] and [SystemExit] derive
    from [BaseException] only. *)
Definition is_Exception (e : exn) : bool :=
  match e with
  | KeyboardInterrupt | SystemExit => false
  | _ => true
  end.

(** ** Response objects *)

Inductive cls : Type :=
| HTSPHello | HTSPDiskSpace | HTSPTag | HTSPChannel | HTSPEvent
| HTSPDVREntry | HTSPAutoRecordEntry.

Record entity : Type := Entity { ecls : cls; _message : message }.

(** [HTSPResponse.__init__]: [message if message else {}]. *)
Definition new_response (c : cls) (m : message) : entity :=
  Entity c (if Nat.eqb (size m) 0 then ∅ else m).

(** The field each class reads in its [id] property. *)
Definition id_field (c : cls) : string :=
  match c with
  | HTSPTag => "tagId"
  | HTSPChannel => "channelId"
  | HTSPEvent => "eventId"
  | _ => "id"
  end.

(** ** Observers *)

Abbreviation cbid := nat.

Inductive event : Type :=
| EvSend (m : message)
| EvRecv (m : message)
| EvHandle (m : message)
| EvCall (c : cbid) (method : value) (n : option entity)
| EvNotHandled (method : string) (m : message)
| EvPrint (e : exn).

(** ** Session state *)

Record Session : Type := mkSession {
  _name : string;
  _sock : bool;
  _user : option string;
  _digest : option string;
  _hello : option entity;
  _sequence : Z;
  _command_pending : bool;
  _initial_data : bool;
  _tags : gmap key entity;
  _channels : gmap key entity;
  _events : option (gmap key entity);
  _dvr_entries : gmap key entity;
  _auto_record_entries : gmap key entity;
  _callbacks : list cbid
}.

(** [HTSPSession.__init__]. *)
Definition init (name : string) : Session :=
  {| _name := name; _sock := false; _user := None; _digest := None;
     _hello := None; _sequence := 0; _command_pending := false;
     _initial_data := false; _tags := ∅; _channels := ∅; _events := None;
     _dvr_entries := ∅; _auto_record_entries := ∅; _callbacks := [] |}.

Definition set_sock (b : bool) (s : Session) : Session :=
  {| _name := _name s; _sock := b; _user := _user s; _digest := _digest s;
     _hello := _hello s; _sequence := _sequence s;
     _command_pending := _command_pending s;
     _initial_data := _initial_data s; _tags := _tags s;
     _channels := _channels s; _events := _events s;
     _dvr_entries := _dvr_entries s;
     _auto_record_entries := _auto_record_entries s;
     _callbacks := _callbacks s |}.

Definition set_hello (h : option entity) (s : Session) : Session :=
  {| _name := _name s; _sock := _sock s; _user := _user s;
     _digest := _digest s; _hello := h; _sequence := _sequence s;
     _command_pending := _command_pending s;
     _initial_data := _initial_data s; _tags := _tags s;
     _channels := _channels s; _events := _events s;
     _dvr_entries := _dvr_entries s;
     _auto_record_entries := _auto_record_entries s;
     _callbacks := _callbacks s |}.

Definition set_sequence (n : Z) (s : Session) : Session :=
  {| _name := _name s; _sock := _sock s; _user := _user s;
     _digest := _digest s; _hello := _hello s; _sequence := n;
     _command_pending := _command_pending s;
     _initial_data := _initial_data s; _tags := _tags s;
     _channels := _channels s; _events := _events s;
     _dvr_entries := _dvr_entries s;
     _auto_record_entries := _auto_record_entries s;
     _callbacks := _callbacks s |}.

Definition set_command_pending (b : bool) (s : Session) : Session :=
  {| _name := _name s; _sock := _sock s; _user := _user s;
     _digest := _digest s; _hello := _hello s; _sequence := _sequence s;
     _command_pending := b;
     _initial_data := _initial_data s; _tags := _tags s;
     _channels := _channels s; _events := _events s;
     _dvr_entries := _dvr_entries s;
     _auto_record_entries := _auto_record_entries s;
     _callbacks := _callbacks s |}.

Definition set_initial_data (b : bool) (s : Session) : Session :=
  {| _name := _name s; _sock := _sock s; _user := _user s;
     _digest := _digest s; _hello := _hello s; _sequence := _sequence s;
     _command_pending := _command_pending s;
     _initial_data := b; _tags := _tags s;
     _channels := _channels s; _events := _events s;
     _dvr_entries := _dvr_entries s;
     _auto_record_entries := _auto_record_entries s;
     _callbacks := _callbacks s |}.

Definition set_tags (m : gmap key entity) (s : Session) : Session :=
  {| _name := _name s; _sock := _sock s; _user := _user s;
     _digest := _digest s; _hello := _hello s; _sequence := _sequence s;
     _command_pending := _command_pending s;
     _initial_data := _initial_data s; _tags := m;
     _channels := _channels s; _events := _events s;
     _dvr_entries := _dvr_entries s;
     _auto_record_entries := _auto_record_entries s;
     _callbacks := _callbacks s |}.

Definition set_channels (m : gmap key entity) (s : Session) : Session :=
  {| _name := _name s; _sock := _sock s; _user := _user s;
     _digest := _digest s; _hello := _hello s; _sequence := _sequence s;
     _command_pending := _command_pending s;
     _initial_data := _initial_data s; _tags := _tags s;
     _channels := m; _events := _events s;
     _dvr_entries := _dvr_entries s;
     _auto_record_entries := _auto_record_entries s;
     _callbacks := _callbacks s |}.

Definition set_events (m : option (gmap key entity)) (s : Session) : Session :=
  {| _name := _name s; _sock := _sock s; _user := _user s;
     _digest := _digest s; _hello := _hello s; _sequence := _sequence s;
     _command_pending := _command_pending s;
     _initial_data := _initial_data s; _tags := _tags s;
     _channels := _channels s; _events := m;
     _dvr_entries := _dvr_entries s;
     _auto_record_entries := _auto_record_entries s;
     _callbacks := _callbacks s |}.

Definition set_dvr_entries (m : gmap key entity) (s : Session) : Session :=
  {| _name := _name s; _sock := _sock s; _user := _user s;
     _digest := _digest s; _hello := _hello s; _sequence := _sequence s;
     _command_pending := _command_pending s;
     _initial_data := _initial_data s; _tags := _tags s;
     _channels := _channels s; _events := _events s;
     _dvr_entries := m;
     _auto_record_entries := _auto_record_entries s;
     _callbacks := _callbacks s |}.

Definition set_auto_record_entries (m : gmap key entity) (s : Session) : Session :=
  {| _name := _name s; _sock := _sock s; _user := _user s;
     _digest := _digest s; _hello := _hello s; _sequence := _sequence s;
     _command_pending := _command_pending s;
     _initial_data := _initial_data s; _tags := _tags s;
     _channels := _channels s; _events := _events s;
     _dvr_entries := _dvr_entries s;
     _auto_record_entries := m;
     _callbacks := _callbacks s |}.

Definition set_callbacks (l : list cbid) (s : Session) : Session :=
  {| _name := _name s; _sock := _sock s; _user := _user s;
     _digest := _digest s; _hello := _hello s; _sequence := _sequence s;
     _command_pending := _command_pending s;
     _initial_data := _initial_data s; _tags := _tags s;
     _channels := _channels s; _events := _events s;
     _dvr_entries := _dvr_entries s;
     _auto_record_entries := _auto_record_entries s;
     _callbacks := l |}.

(** ** The world: session, socket, and a ghost trace

    The socket delivers inbound items in order: a decoded frame, or an
    exception raised inside [_recv] (a transport failure, or the interrupt
    signal arriving while the thread waits).  An exhausted stream blocks the
    caller for ever. *)

Inductive inbound : Type :=
| InMsg (m : message)
| InRaise (e : exn).

Record Net : Type := mkNet {
  refuse : bool;              (* [socket.create_connection] fails *)
  incoming : list inbound
}.

(** [default_args] is the dictionary bound once to the default parameter
    [args={}] of [_invoke_command]; calls that omit [args] share and mutate
    it.  [trace] is ghost state: it records what happened, in order. *)
Record World : Type := mkWorld {
  sess : Session;
  net : Net;
  default_args : message;
  trace : list event
}.

Definition set_sess (s : Session) (w : World) : World :=
  {| sess := s; net := net w; default_args := default_args w; trace := trace w |}.

Definition set_net (n : Net) (w : World) : World :=
  {| sess := sess w; net := n; default_args := default_args w; trace := trace w |}.

Definition set_default_args (a : message) (w : World) : World :=
  {| sess := sess w; net := net w; default_args := a; trace := trace w |}.

Definition log (e : event) (w : World) : World :=
  {| sess := sess w; net := net w; default_args := default_args w;
     trace := trace w ++ [e] |}.

Definition upd_sess (f : Session → Session) (w : World) : World :=
  set_sess (f (sess w)) w.

(** ** Outcomes and the state/exception monad *)

Inductive outcome (S A : Type) : Type :=
| Return (a : A) (s : S)
| Raise (e : exn) (s : S)
| Blocked (s : S)
| OutOfFuel.

Arguments Return {S A} a s.
Arguments Raise {S A} e s.
Arguments Blocked {S A} s.
Arguments OutOfFuel {S A}.

Definition M (S A : Type) : Type := S → outcome S A.

Definition ret {S A} (a : A) : M S A := λ s, Return a s.
Definition raise {S A} (e : exn) : M S A := λ s, Raise e s.

Definition bind {S A B} (m : M S A) (k : A → M S B) : M S B :=
  λ s, match m s with
       | Return a s' => k a s'
       | Raise e s' => Raise e s'
       | Blocked s' => Blocked s'
       | OutOfFuel => OutOfFuel
       end.

Notation "x <- m ;; k" := (bind m (λ x, k))
  (at level 100, m at next level, right associativity, only parsing).
Notation "m ;;; k" := (bind m (λ _, k))
  (at level 100, right associativity, only parsing).

Definition get {S} : M S S := λ s, Return s s.
Definition modify {S} (f : S → S) : M S unit := λ s, Return tt (f s).

(** The state an outcome ends in ([d] when it has none). *)
Definition state_of {S A} (r : outcome S A) (d : S) : S :=
  match r with
  | Return _ s | Raise _ s | Blocked s => s
  | OutOfFuel => d
  end.

(** Run a session-level computation inside the world. *)
Definition liftS {A} (m : M Session A) : M World A :=
  λ w, match m (sess w) with
       | Return a s => Return a (set_sess s w)
       | Raise e s => Raise e (set_sess s w)
       | Blocked s => Blocked (set_sess s w)
       | OutOfFuel => OutOfFuel
       end.

(** [d[k]] on a message: [KeyError] when the field is missing. *)
Definition getitem {S} (m : message) (k : string) : M S value :=
  match m !! k with
  | Some v => ret v
  | None => raise KeyError
  end.

(** Hashing a dictionary key: [TypeError] on a list or a map. *)
Definition hashed {S} (v : value) : M S key :=
  match hash_key v with
  | Some k => ret k
  | None => raise TypeError
  end.

(** The [id] property of a response object. *)
Definition entity_id {S} (e : entity) : M S value :=
  getitem (_message e) (id_field (ecls e)).

(** ** Entity cache *)

(** [_update_reponse(old,new)]: copy every truthy field of [new] into
    [old]. *)
Definition update_step (acc : message) (kv : string * value) : message :=
  if truthy kv.2 then <[kv.1 := kv.2]> acc else acc.

Definition _update_reponse (old new : entity) : entity :=
  Entity (ecls old) (foldl update_step (_message old) (map_to_list (_message new))).

Definition _handle_initialSyncCompleted (m : message) : M Session (option entity) :=
  modify (set_initial_data true) ;;; ret None.

(** The shape shared by [_handle_tagAdd], [_handle_channelAdd],
    [_handle_dvrEntryAdd] and [_handle_autorecEntryAdd]. *)
Definition handle_add (c : cls) (cache : Session → gmap key entity)
    (set_cache : gmap key entity → Session → Session) (m : message)
    : M Session (option entity) :=
  let e := new_response c m in
  i <- entity_id e ;;
  k <- hashed i ;;
  s <- get ;;
  modify (set_cache (<[k := e]> (cache s))) ;;;
  ret (Some e).

(** The shape shared by the four [_handle_*Update] methods. *)
Definition handle_update (c : cls) (cache : Session → gmap key entity)
    (set_cache : gmap key entity → Session → Session) (m : message)
    : M Session (option entity) :=
  let new := new_response c m in
  i <- entity_id new ;;
  k <- hashed i ;;
  s <- get ;;
  match cache s !! k with
  | None => raise KeyError
  | Some old =>
      let old' := _update_reponse old new in
      modify (set_cache (<[k := old']> (cache s))) ;;;
      ret (Some old')
  end.

Definition _handle_tagAdd := handle_add HTSPTag _tags set_tags.
Definition _handle_tagUpdate := handle_update HTSPTag _tags set_tags.
Definition _handle_channelAdd := handle_add HTSPChannel _channels set_channels.
Definition _handle_channelUpdate := handle_update HTSPChannel _channels set_channels.
Definition _handle_dvrEntryAdd := handle_add HTSPDVREntry _dvr_entries set_dvr_entries.
Definition _handle_dvrEntryUpdate := handle_update HTSPDVREntry _dvr_entries set_dvr_entries.
Definition _handle_autorecEntryAdd :=
  handle_add HTSPAutoRecordEntry _auto_record_entries set_auto_record_entries.
Definition _handle_autorecEntryUpdate :=
  handle_update HTSPAutoRecordEntry _auto_record_entries set_auto_record_entries.

Definition _handle_eventAdd (m : message) : M Session (option entity) :=
  let e := new_response HTSPEvent m in
  s <- get ;;
  match _events s with
  | Some evs =>
      i <- entity_id e ;;
      k <- hashed i ;;
      modify (set_events (Some (<[k := e]> evs))) ;;;
      ret (Some e)
  | None => ret (Some e)
  end.

Definition _handle_eventDelete (m : message) : M Session (option entity) :=
  s <- get ;;
  match _events s with
  | Some evs =>
      let e := new_response HTSPEvent m in
      i <- entity_id e ;;
      k <- hashed i ;;
      match evs !! k with
      | Some old => modify (set_events (Some (delete k evs))) ;;; ret (Some old)
      | None => ret None
      end
  | None => ret None
  end.

Definition _handle_dvrEntryDelete (m : message) : M Session (option entity) :=
  let e := new_response HTSPDVREntry m in
  i <- entity_id e ;;
  k <- hashed i ;;
  s <- get ;;
  match _dvr_entries s !! k with
  | Some old => modify (set_dvr_entries (delete k (_dvr_entries s))) ;;; ret (Some old)
  | None => ret None
  end.

(** [getattr(HTSPSession, '_handle_' + name)]. *)
Definition handler_of (name : string) : option (message → M Session (option entity)) :=
  if String.eqb name "initialSyncCompleted" then Some _handle_initialSyncCompleted
  else if String.eqb name "tagAdd" then Some _handle_tagAdd
  else if String.eqb name "tagUpdate" then Some _handle_tagUpdate
  else if String.eqb name "channelAdd" then Some _handle_channelAdd
  else if String.eqb name "channelUpdate" then Some _handle_channelUpdate
  else if String.eqb name "eventAdd" then Some _handle_eventAdd
  else if String.eqb name "eventDelete" then Some _handle_eventDelete
  else if String.eqb name "dvrEntryAdd" then Some _handle_dvrEntryAdd
  else if String.eqb name "dvrEntryDelete" then Some _handle_dvrEntryDelete
  else if String.eqb name "dvrEntryUpdate" then Some _handle_dvrEntryUpdate
  else if String.eqb name "autorecEntryAdd" then Some _handle_autorecEntryAdd
  else if String.eqb name "autorecEntryUpdate" then Some _handle_autorecEntryUpdate
  else None.

(** [_handleMessage]: dispatch on the [method] field; a message without one,
    or with an unknown verb, is ignored. *)
Definition _handleMessage (m : message) : M World (option entity) :=
  modify (log (EvHandle m)) ;;;
  match m !! "method" with
  | None => ret None
  | Some (VStr name) =>
      match handler_of name with
      | Some fn => liftS (fn m)
      | None => modify (log (EvNotHandled ("_handle_" +:+ name) m)) ;;; ret None
      end
  | Some _ => raise TypeError
  end.

(** ** Transport *)

Definition set_incoming (l : list inbound) (w : World) : World :=
  set_net {| refuse := refuse (net w); incoming := l |} w.

(** [socket.create_connection]. *)
Definition connect : M World unit :=
  λ w, if refuse (net w) then Raise SocketError w
       else Return tt (upd_sess (set_sock true) w).

(** [_recv]: the next inbound item.  Without a socket the codec fails on
    [None]. *)
Definition _recv : M World message :=
  λ w, if negb (_sock (sess w)) then Raise AttributeError w
       else match incoming (net w) with
            | [] => Blocked w
            | InMsg m :: rest => Return m (log (EvRecv m) (set_incoming rest w))
            | InRaise e :: rest => Raise e (set_incoming rest w)
            end.

(** A call that omits [args] works on the shared default dictionary, a call
    that passes a literal works on a dictionary nobody else sees. *)
Definition load_args (r : option message) (w : World) : message :=
  match r with
  | None => default_args w
  | Some a => a
  end.

Definition store_args (r : option message) (a : message) : M World unit :=
  match r with
  | None => modify (set_default_args a)
  | Some _ => ret tt
  end.

Definition truthy_str (o : option string) : option string :=
  match o with
  | Some s => if String.eqb s EmptyString then None else Some s
  | None => None
  end.

(** The assignments [_send] makes to [args]. *)
Definition send_args (method : string) (args : message) (s : Session) : message :=
  let a1 := <["method" := VStr method]> args in
  let a2 := match truthy_str (_user s) with
            | Some u => <["username" := VStr u]> a1
            | None => a1
            end in
  match truthy_str (_digest s) with
  | Some d => <["digest" := VStr d]> a2
  | None => a2
  end.

Definition _send (method : string) (r : option message) (args : message) : M World unit :=
  w <- get ;;
  let a := send_args method args (sess w) in
  store_args r a ;;;
  if _sock (sess w) then modify (log (EvSend a)) else raise AttributeError.

(** ** Observers and the correlator *)

(** An observer is a Python callable: it may change the session, use the
    socket, raise, or never return.  It cannot touch the ghost trace. *)
Definition callback : Type :=
  value → option entity → Session → Net → outcome (Session * Net) unit.

(** [list.remove(x)]: drop the first occurrence. *)
Fixpoint list_remove (x : cbid) (l : list cbid) : option (list cbid) :=
  match l with
  | [] => None
  | y :: l' => if Nat.eqb x y then Some l'
               else option_map (cons y) (list_remove x l')
  end.

Section Engine.

Variable cbs : cbid → callback.

Definition install (sn : Session * Net) (w : World) : World :=
  set_net sn.2 (set_sess sn.1 w).

(** [callback(method, notification)]. *)
Definition call (c : cbid) (method : value) (n : option entity) : M World unit :=
  λ w, let w1 := log (EvCall c method n) w in
       match cbs c method n (sess w) (net w) with
       | Return _ sn => Return tt (install sn w1)
       | Raise e sn => Raise e (install sn w1)
       | Blocked sn => Blocked (install sn w1)
       | OutOfFuel => OutOfFuel
       end.

(** [for callback in self._callbacks]: Python walks the live list by
    index, so the list is read again at every step. *)
Fixpoint notify_loop (fuel : nat) (i : nat) (method : value) (n : option entity)
    : M World unit :=
  λ w, match _callbacks (sess w) !! i with
       | None => Return tt w
       | Some c =>
           match fuel with
           | O => OutOfFuel
           | S fuel' => (call c method n ;;; notify_loop fuel' (S i) method n) w
           end
       end.

Definition _notify (fuel : nat) (m : message) (n : option entity) : M World unit :=
  method <- getitem m "method" ;;
  notify_loop fuel 0%nat method n.

(** The [while not 'seq' in message] loop.  [ins] is the stream as it stood
    when the loop was entered; it only bounds the iteration. *)
Fixpoint await_reply (ins : list inbound) (m : message) (notify_queue : list message)
    : M World (list message * message) :=
  match m !! "seq" with
  | Some _ => ret (notify_queue, m)
  | None =>
      match ins with
      | [] => _recv ;;; (λ _, OutOfFuel)
      | _ :: ins' => m' <- _recv ;; await_reply ins' m' (notify_queue ++ [m])
      end
  end.

(** [for queued_message in notify_queue]. *)
Fixpoint drain (fuel : nat) (notify_queue : list message) : M World unit :=
  match notify_queue with
  | [] => ret tt
  | q :: rest =>
      n <- _handleMessage q ;;
      _notify fuel q n ;;;
      drain fuel rest
  end.

Definition _invoke_command (fuel : nat) (method : string) (r : option message)
    : M World message :=
  w <- get ;;
  if _command_pending (sess w)
  then raise (Exception ("A command is already pending: " +:+ method))
  else
    modify (upd_sess (set_command_pending true)) ;;;
    let args := <["seq" := VInt (_sequence (sess w))]> (load_args r w) in
    store_args r args ;;;
    _send method r args ;;;
    m <- _recv ;;
    w1 <- get ;;
    qm <- await_reply (incoming (net w1)) m [] ;;
    s <- (λ w, Return (sess w) w) ;;
    match qm.2 !! "seq" with
    | None => raise KeyError
    | Some tag =>
        if value_ne_int tag (_sequence s)
        then raise (Exception "Message out of sequence")
        else
          modify (upd_sess (set_sequence (_sequence s + 1))) ;;;
          modify (upd_sess (set_command_pending false)) ;;;
          drain fuel qm.1 ;;;
          ret qm.2
    end.

(** ** Entry points *)

Definition HTSP_PROTO_VERSION : Z := 17.

Definition hello (fuel : nat) : M World entity :=
  w <- get ;;
  (if _sock (sess w) then ret tt else connect) ;;;
  m <- _invoke_command fuel "hello"
         (Some (<["htspversion" := VInt HTSP_PROTO_VERSION]>
                 (<["clientname" := VStr (_name (sess w))]> ∅))) ;;
  let h := new_response HTSPHello m in
  modify (upd_sess (set_hello (Some h))) ;;;
  ret h.

Definition _check_connection (fuel : nat) : M World unit :=
  w <- get ;;
  if _sock (sess w) then ret tt else (hello fuel ;;; ret tt).

Definition protocol_version (fuel : nat) : M World value :=
  _check_connection fuel ;;;
  w <- get ;;
  match _hello (sess w) with
  | None => raise AttributeError
  | Some h => getitem (_message h) "htspversion"
  end.

(** The exception text reads [self.protocol_version] a second time. *)
Definition _checkProtocol (fuel : nat) (required_version : Z) : M World unit :=
  v <- protocol_version fuel ;;
  if value_lt_int v required_version
  then v' <- protocol_version fuel ;;
       raise (ProtocolVersionException required_version v')
  else ret tt.

Definition diskspace (fuel : nat) : M World entity :=
  _check_connection fuel ;;;
  _checkProtocol fuel 3 ;;;
  m <- _invoke_command fuel "getDiskSpace" None ;;
  ret (new_response HTSPDiskSpace m).

Definition _enable_async_metadata (fuel : nat) (events : bool) : M World unit :=
  _invoke_command fuel "enableAsyncMetadata"
    (Some (<["epg" := VInt (if events then 1 else 0)]> ∅)) ;;;
  ret tt.

(** [while not self._initial_data]; [ins] bounds the iteration as in
    [await_reply]. *)
Fixpoint sync_loop (ins : list inbound) : M World unit :=
  λ w, if _initial_data (sess w) then Return tt w
       else match ins with
            | [] => (_recv ;;; (λ _, OutOfFuel)) w
            | _ :: ins' => (m <- _recv ;; _handleMessage m ;;; sync_loop ins') w
            end.

Definition fetch_initial_data (fuel : nat) (events : bool) : M World unit :=
  modify (upd_sess (set_events (if events then Some ∅ else None))) ;;;
  _check_connection fuel ;;;
  _enable_async_metadata fuel events ;;;
  w <- get ;;
  sync_loop (incoming (net w)).

(** The body of [while True] in [monitor]; it is left only by an
    exception. *)
Fixpoint monitor_loop (fuel : nat) : M World unit :=
  match fuel with
  | O => λ _, OutOfFuel
  | S fuel' =>
      m <- _recv ;;
      n <- _handleMessage m ;;
      _notify fuel' m n ;;;
      monitor_loop fuel'
  end.

Definition callbacks_remove (c : cbid) : M World unit :=
  λ w, match list_remove c (_callbacks (sess w)) with
       | Some l => Return tt (upd_sess (set_callbacks l) w)
       | None => Raise ValueError w
       end.

(** The state in which [monitor] enters its [try] block. *)
Definition monitor_enter (fuel : nat) (c : cbid) : M World unit :=
  w <- get ;;
  (if _initial_data (sess w) then ret tt else fetch_initial_data fuel false) ;;;
  modify (upd_sess (λ s, set_callbacks (_callbacks s ++ [c]) s)).

(** The two [except] clauses of [monitor]. *)
Definition monitor_except (c : cbid) (r : outcome World unit) : outcome World unit :=
  match r with
  | Raise KeyboardInterrupt w => callbacks_remove c w
  | Raise e w => if is_Exception e then Return tt (log (EvPrint e) w) else Raise e w
  | r => r
  end.

Definition monitor (fuel : nat) (c : cbid) : M World unit :=
  monitor_enter fuel c ;;;
  (λ w, monitor_except c (monitor_loop fuel w)).

End Engine.

(** * Further operations of the session

    The remaining request wrappers, the bulk accessors and the accessors of
    the response classes that need more than one field read. *)

Definition set_user (u : option string) (s : Session) : Session :=
  {| _name := _name s; _sock := _sock s; _user := u; _digest := _digest s;
     _hello := _hello s; _sequence := _sequence s;
     _command_pending := _command_pending s;
     _initial_data := _initial_data s; _tags := _tags s;
     _channels := _channels s; _events := _events s;
     _dvr_entries := _dvr_entries s;
     _auto_record_entries := _auto_record_entries s;
     _callbacks := _callbacks s |}.

Definition set_digest (d : option string) (s : Session) : Session :=
  {| _name := _name s; _sock := _sock s; _user := _user s; _digest := d;
     _hello := _hello s; _sequence := _sequence s;
     _command_pending := _command_pending s;
     _initial_data := _initial_data s; _tags := _tags s;
     _channels := _channels s; _events := _events s;
     _dvr_entries := _dvr_entries s;
     _auto_record_entries := _auto_record_entries s;
     _callbacks := _callbacks s |}.

(** [dict.values()]: the records of a cache.  Python fixes no order for
    them (it follows the hash table); they are listed here by key, and the
    statements about the accessors speak of membership, not of order. *)
Definition values (c : gmap key entity) : list entity := (map_to_list c).*2.

(** [entry.state == name], where [state] is [_message.get('state', None)]. *)
Definition state_is (name : string) (e : entity) : bool :=
  match _message e !! "state" with
  | Some (VStr t) => String.eqb t name
  | _ => false
  end.

(** [HTSPResponse.access_denied]. *)
Definition access_denied (m : message) : bool :=
  match m !! "noaccess" with
  | Some (VInt 1) => true
  | _ => false
  end.

(** [_check_response]: the failure text is read before the raise. *)
Definition _check_response {S} (m : message) : M S unit :=
  ok <- getitem m "success" ;;
  if truthy ok then ret tt
  else (_ <- getitem m "error" ;; raise RequestError).

(** What a [for] loop sees of a value: the items of a list, the keys of a
    map, the characters of a string; an integer is not iterable. *)
Definition iterate (v : value) : option (list value) :=
  match v with
  | VList l => Some l
  | VMap m => Some (VStr <$> (map_to_list m).*1)
  | VStr s => Some ((λ c, VStr (String c EmptyString)) <$> String.list_ascii_of_string s)
  | VInt _ => None
  end.

(** [HTSPChannel.tags]: every identifier of the [tags] field, looked up in
    the tag cache. *)
Fixpoint lookup_tags (ids : list value) (result : list entity) : M Session (list entity) :=
  match ids with
  | [] => ret result
  | tag_id :: rest =>
      k <- hashed tag_id ;;
      s <- get ;;
      match _tags s !! k with
      | Some tag => lookup_tags rest (result ++ [tag])
      | None => raise KeyError
      end
  end.

Definition channel_tags (channel : entity) : M Session (list entity) :=
  v <- getitem (_message channel) "tags" ;;
  match iterate v with
  | Some ids => lookup_tags ids []
  | None => raise TypeError
  end.

(** [str.split("/")]. *)
Fixpoint split_slash (s : string) : list string :=
  match s with
  | EmptyString => [EmptyString]
  | String c s' =>
      if String.eqb (String c EmptyString) "/" then EmptyString :: split_slash s'
      else match split_slash s' with
           | [] => [String c EmptyString]
           | p :: ps => String c p :: ps
           end
  end.

(** ["/".join(parts)]. *)
Fixpoint join_slash (parts : list string) : string :=
  match parts with
  | [] => EmptyString
  | [p] => p
  | p :: ps => p +:+ "/" +:+ join_slash ps
  end.

(** [self._message['name'].split("/")] under the bare [except] of the
    [HTSPService] properties: a missing name, or one that is not a string,
    gives [None]. *)
Definition service_parts (m : message) : option (list string) :=
  match m !! "name" with
  | Some (VStr s) => Some (split_slash s)
  | _ => None
  end.

Definition service_network (m : message) : option string :=
  parts ← service_parts m; parts !! 0%nat.

Definition service_mux (m : message) : option string :=
  parts ← service_parts m; parts !! 1%nat.

Definition service_resource (m : message) : option string :=
  parts ← service_parts m; Some (join_slash (take 2 parts)).

(** An argument dictionary under construction.  [dict.get(k)] without a
    default leaves [None] where the record has no field [k]. *)
Abbreviation arguments := (gmap string (option value)).

(** [if value:] on what [dict.get] returned. *)
Definition truthy_opt (o : option value) : bool :=
  match o with
  | Some v => truthy v
  | None => false
  end.

(** The dictionary as a message, when none of its values is [None]. *)
Definition encodable (a : arguments) : option message :=
  if decide (map_Forall (λ _ v, is_Some v) a) then Some (omap id a) else None.

Section Operations.

Variable cbs : cbid → callback.

(** [hashlib.sha1(...).digest()], taken as given. *)
Variable sha1 : string → string.

(** [_invoke_command] on an argument dictionary that holds a [None].  What
    that call does depends on what the codec (htsmsg, which is not among
    the sources) makes of [None]; it is taken as given. *)
Variable invoke_unset : string → arguments → M World message.

(** [_htsp_digest]: [passwd + chal] needs a string challenge. *)
Definition _htsp_digest {S} (user passwd : string) (chal : value) : M S string :=
  match chal with
  | VStr c => ret (sha1 (passwd +:+ c))
  | _ => raise TypeError
  end.

Definition authenticate (fuel : nat) (user : string) (password : option string)
    : M World unit :=
  _check_connection cbs fuel ;;;
  modify (upd_sess (set_user (Some user))) ;;;
  match truthy_str password with
  | Some passwd =>
      w <- get ;;
      match _hello (sess w) with
      | None => raise AttributeError
      | Some h =>
          chal <- getitem (_message h) "challenge" ;;
          d <- _htsp_digest user passwd chal ;;
          modify (upd_sess (set_digest (Some d)))
      end
  | None => ret tt
  end ;;;
  m <- _invoke_command cbs fuel "authenticate" None ;;
  if access_denied m then raise (Exception "Authentication failed") else ret tt.

(** [if not self._initial_data: self.fetch_initial_data()]. *)
Definition ensure_initial_data (fuel : nat) : M World unit :=
  w <- get ;;
  if _initial_data (sess w) then ret tt else fetch_initial_data cbs fuel false.

Definition tags (fuel : nat) : M World (list entity) :=
  _check_connection cbs fuel ;;;
  ensure_initial_data fuel ;;;
  w <- get ;;
  ret (values (_tags (sess w))).

Definition channels (fuel : nat) : M World (list entity) :=
  ensure_initial_data fuel ;;;
  w <- get ;;
  ret (values (_channels (sess w))).

Definition recorded (fuel : nat) : M World (list entity) :=
  ensure_initial_data fuel ;;;
  w <- get ;;
  ret (List.filter (state_is "completed") (values (_dvr_entries (sess w)))).

Definition scheduled (fuel : nat) : M World (list entity) :=
  ensure_initial_data fuel ;;;
  w <- get ;;
  ret (List.filter (λ entry, state_is "scheduled" entry || state_is "recording" entry)
         (values (_dvr_entries (sess w)))).

Definition failed (fuel : nat) : M World (list entity) :=
  ensure_initial_data fuel ;;;
  w <- get ;;
  ret (List.filter (state_is "missed") (values (_dvr_entries (sess w)))).

Definition auto_record_entries (fuel : nat) : M World (list entity) :=
  ensure_initial_data fuel ;;;
  w <- get ;;
  ret (values (_auto_record_entries (sess w))).

(** [_get_event]: from the event map when there is one, from the server
    otherwise. *)
Definition _get_event (fuel : nat) (event_id : value) : M World (option entity) :=
  w <- get ;;
  match _events (sess w) with
  | Some evs =>
      k <- hashed event_id ;;
      match evs !! k with
      | Some e => ret (Some e)
      | None => raise KeyError
      end
  | None =>
      m <- _invoke_command cbs fuel "getEvent" (Some (<["eventId" := event_id]> ∅)) ;;
      liftS (_handle_eventAdd m)
  end.

(** [HTSPDVREntry._as_add_dvr_entry_command].  An entry tied to an event
    has the event resolved first, by [_get_event]; [event.id] and
    [event.title] are the [HTSPEvent] properties, which read [eventId] and
    [title] ([_events] holds [HTSPEvent] objects only).  The entry is one
    of this session: made by [create_dvr_entry] or taken from its cache. *)
Definition _as_add_dvr_entry_command (fuel : nat) (entry : entity) : M World arguments :=
  let command : arguments :=
    <["title" := _message entry !! "title"]>
      (<["retention" := Some (default (VInt 0) (_message entry !! "retention"))]> ∅) in
  match _message entry !! "eventId" with
  | Some event_id =>
      ev <- _get_event fuel event_id ;;
      match ev with
      | None => raise AttributeError
      | Some event =>
          i <- getitem (_message event) "eventId" ;;
          let command := <["eventId" := Some i]> command in
          if match command !! "title" with
             | Some title => truthy_opt title
             | None => false
             end
          then ret command
          else (t <- getitem (_message event) "title" ;;
                ret (<["title" := Some t]> command))
      end
  | None =>
      ret (<["stop" := _message entry !! "stop"]>
             (<["start" := _message entry !! "start"]>
                (<["channelId" := _message entry !! "channel"]> command)))
  end.

(** [add_dvr_entry]. *)
Definition add_dvr_entry (fuel : nat) (entry : entity) : M World entity :=
  command <- _as_add_dvr_entry_command fuel entry ;;
  m <- match encodable command with
       | Some c => _invoke_command cbs fuel "addDvrEntry" (Some c)
       | None => invoke_unset "addDvrEntry" command
       end ;;
  _check_response m ;;;
  i <- getitem m "id" ;;
  k <- hashed i ;;
  w <- get ;;
  match _dvr_entries (sess w) !! k with
  | Some entry => ret entry
  | None => raise KeyError
  end.

(** [cancel_dvr_entry]; the command [{'id': entry._message['id']}] is built
    before the request is issued. *)
Definition cancel_dvr_entry (fuel : nat) (entry : entity) : M World entity :=
  i <- getitem (_message entry) "id" ;;
  m <- _invoke_command cbs fuel "cancelDvrEntry" (Some (<["id" := i]> ∅)) ;;
  _check_response m ;;;
  ret entry.

End Operations.

(** * Vocabulary of the statements *)

(** The entity kinds that have an update handler. *)
Inductive kind : Type := Tag | Channel | DvrEntry | AutoRecord.

(** Its response class, cache, handlers and update verb. *)
Definition kind_cls (kd : kind) : cls :=
  match kd with
  | Tag => HTSPTag | Channel => HTSPChannel
  | DvrEntry => HTSPDVREntry | AutoRecord => HTSPAutoRecordEntry
  end.

Definition kind_cache (kd : kind) : Session → gmap key entity :=
  match kd with
  | Tag => _tags | Channel => _channels
  | DvrEntry => _dvr_entries | AutoRecord => _auto_record_entries
  end.

Definition kind_add (kd : kind) : message → M Session (option entity) :=
  match kd with
  | Tag => _handle_tagAdd | Channel => _handle_channelAdd
  | DvrEntry => _handle_dvrEntryAdd | AutoRecord => _handle_autorecEntryAdd
  end.

Definition kind_update (kd : kind) : message → M Session (option entity) :=
  match kd with
  | Tag => _handle_tagUpdate | Channel => _handle_channelUpdate
  | DvrEntry => _handle_dvrEntryUpdate | AutoRecord => _handle_autorecEntryUpdate
  end.

Definition kind_update_verb (kd : kind) : string :=
  match kd with
  | Tag => "tagUpdate" | Channel => "channelUpdate"
  | DvrEntry => "dvrEntryUpdate" | AutoRecord => "autorecEntryUpdate"
  end.

Definition kind_set_cache (kd : kind) : gmap key entity → Session → Session :=
  match kd with
  | Tag => set_tags | Channel => set_channels
  | DvrEntry => set_dvr_entries | AutoRecord => set_auto_record_entries
  end.

(** The world after the frames [ms] were taken off the socket, [rest]
    still waiting. *)
Definition received (ms : list message) (rest : list inbound) (w : World) : World :=
  {| sess := sess w;
     net := {| refuse := refuse (net w); incoming := rest |};
     default_args := default_args w;
     trace := trace w ++ map EvRecv ms |}.

(** A frame without a reply tag: a pushed notification. *)
Definition no_seq (m : message) : Prop := m !! "seq" = None.

(** The request [_send] hands to the codec: the caller's arguments with the
    sequence tag, the method and the credentials. *)
Definition request (method : string) (r : option message) (w : World) : message :=
  send_args method (<["seq" := VInt (_sequence (sess w))]> (load_args r w)) (sess w).

(** Where the mutated arguments end up: in the shared default dictionary
    when the caller passed none. *)
Definition store (r : option message) (a : message) (w : World) : World :=
  match r with
  | None => set_default_args a w
  | Some _ => w
  end.

(** The world once the request is on the wire. *)
Definition sent (method : string) (r : option message) (w : World) : World :=
  log (EvSend (request method r w))
    (store r (request method r w) (upd_sess (set_command_pending true) w)).

(** The world once the matching reply is accepted. *)
Definition completed (w : World) : World :=
  upd_sess (set_command_pending false)
    (upd_sess (set_sequence (_sequence (sess w) + 1)) w).

(** What [_invoke_command] does with the reply and the queue. *)
Definition finish (cbs : cbid → callback) (fuel : nat) (qm : list message * message)
    : M World message :=
  s <- (λ w, Return (sess w) w) ;;
  match qm.2 !! "seq" with
  | None => raise KeyError
  | Some tag =>
      if value_ne_int tag (_sequence s)
      then raise (Exception "Message out of sequence")
      else
        modify (upd_sess (set_sequence (_sequence s + 1))) ;;;
        modify (upd_sess (set_command_pending false)) ;;;
        drain cbs fuel qm.1 ;;;
        ret qm.2
  end.

(** The trace one routed message leaves: the cache step, then the observer
    calls for that message, all with its verb and the entity the cache step
    produced. *)
Definition dispatched (m : message) (evs : list event) : Prop :=
  ∃ (pre calls : list event) (v : value) (n : option entity),
    evs = EvHandle m :: pre ++ calls ∧
    (pre = [] ∨ ∃ name, pre = [EvNotHandled name m]) ∧
    m !! "method" = Some v ∧
    Forall (λ e, ∃ c, e = EvCall c v n) calls.

(** The observers in [l] behave for the pair [(v, n)]: called in a session
    whose observer list is [l], each returns normally and leaves that list
    as it is. *)
Definition well_behaved (cbs : cbid → callback) (l : list cbid) (v : value)
    (n : option entity) : Prop :=
  ∀ (c : cbid) (s : Session) (nt : Net),
    c ∈ l → _callbacks s = l →
    ∃ s' nt', cbs c v n s nt = Return tt (s', nt') ∧ _callbacks s' = l.

(** The observers respect the walk, for the pair [(v, n)] and the observer
    lists that satisfy [Q]: called at position [i] of such a list, an
    observer returns normally, leaves the list as it is up to and including
    position [i], and leaves a list that satisfies [Q] again.  It may
    register observers and remove later ones. *)
Definition keeps_walked (cbs : cbid → callback) (Q : list cbid → Prop) (v : value)
    (n : option entity) : Prop :=
  ∀ (i : nat) (c : cbid) (s : Session) (nt : Net),
    Q (_callbacks s) → _callbacks s !! i = Some c →
    ∃ s' nt', cbs c v n s nt = Return tt (s', nt') ∧
              take (S i) (_callbacks s') = take (S i) (_callbacks s) ∧
              Q (_callbacks s').

(** The sequence tags of the requests sent so far, oldest first. *)
Definition sent_tags (tr : list event) : list (option value) :=
  flat_map (λ e, match e with EvSend m => [m !! "seq"] | _ => [] end) tr.

(** The part of the session the correlator and [monitor] own. *)
Definition core (s : Session) : Z * bool * list cbid :=
  (_sequence s, _command_pending s, _callbacks s).

(** What the invariants below read of a world. *)
Definition view (w : World) : Z * bool * list cbid * list (option value) :=
  (core (sess w), sent_tags (trace w)).

(** [m] keeps [f] of the state, however it ends. *)
Definition stable {S X A} (f : S → X) (m : M S A) : Prop :=
  ∀ s, match m s with
       | Return _ s' | Raise _ s' | Blocked s' => f s' = f s
       | OutOfFuel => True
       end.

(** [m] keeps the invariant [P], however it ends. *)
Definition preserves {S A} (P : S → Prop) (m : M S A) : Prop :=
  ∀ s, P s → match m s with
             | Return _ s' | Raise _ s' | Blocked s' => P s'
             | OutOfFuel => True
             end.

(** No observer edits the observer list. *)
Definition keeps_observers (cbs : cbid → callback) : Prop :=
  ∀ c v n s nt,
    match cbs c v n s nt with
    | Return _ sn | Raise _ sn | Blocked sn => _callbacks sn.1 = _callbacks s
    | OutOfFuel => True
    end.

(** The observer list is [l]. *)
Definition observers_are (l : list cbid) (w : World) : Prop := _callbacks (sess w) = l.

(** The tags [0, 1, ..., k-1]. *)
Definition tags_upto (k : nat) : list (option value) :=
  map (λ i, Some (VInt (Z.of_nat i))) (seq 0 k).

(** The requests sent so far carry [0 .. k-1] in that order, and the
    counter is [k], or [k-1] while the last request is outstanding. *)
Definition sequenced (w : World) : Prop :=
  ∃ k : nat,
    sent_tags (trace w) = tags_upto k ∧
    (_sequence (sess w) = Z.of_nat k ∨
     (_command_pending (sess w) = true ∧ _sequence (sess w) + 1 = Z.of_nat k)).

(** No observer writes the counter or the pending flag. *)
Definition keeps_correlator (cbs : cbid → callback) : Prop :=
  ∀ c v n s nt,
    match cbs c v n s nt with
    | Return _ sn | Raise _ sn | Blocked sn =>
        _sequence sn.1 = _sequence s ∧ _command_pending sn.1 = _command_pending s
    | OutOfFuel => True
    end.

(** The public operations of a session. *)
Inductive op : Type :=
| OpInvoke (method : string) (r : option message)
| OpHello
| OpDiskspace
| OpFetch (events : bool)
| OpMonitor (c : cbid).

(** The world an operation leaves behind, whether it returned, raised or
    blocked. *)
Definition final {A} (r : outcome World A) : option World :=
  match r with
  | Return _ w | Raise _ w | Blocked w => Some w
  | OutOfFuel => None
  end.

Definition run_op (cbs : cbid → callback) (fuel : nat) (o : op) (w : World)
    : option World :=
  match o with
  | OpInvoke method r => final (_invoke_command cbs fuel method r w)
  | OpHello => final (hello cbs fuel w)
  | OpDiskspace => final (diskspace cbs fuel w)
  | OpFetch events => final (fetch_initial_data cbs fuel events w)
  | OpMonitor c => final (monitor cbs fuel c w)
  end.

(** A fresh session on a socket that will deliver [nt]. *)
Definition start (name : string) (nt : Net) : World :=
  {| sess := init name; net := nt; default_args := ∅; trace := [] |}.

(** The worlds a program can get to: it starts a session and runs
    operations one after the other, carrying on after an exception. *)
Inductive reachable (cbs : cbid → callback) : World → Prop :=
| reach_start (name : string) (nt : Net) : reachable cbs (start name nt)
| reach_step (w w' : World) (fuel : nat) (o : op) :
    reachable cbs w → run_op cbs fuel o w = Some w' → reachable cbs w'.

(** The counter is [n] and the pending flag is [b]. *)
Definition correlator_at (n : Z) (b : bool) (w : World) : Prop :=
  _sequence (sess w) = n ∧ _command_pending (sess w) = b.

(** * Worked examples *)

(** The example of the claim: add [{id:1, title:"A", retention:5}], then
    update [{id:1, title:"X"}]. *)
Definition example_add : message :=
  <["id" := VInt 1]> (<["title" := VStr "A"]> (<["retention" := VInt 5]> ∅)).

Definition example_update : message :=
  <["id" := VInt 1]> (<["title" := VStr "X"]> ∅).

Definition after_example_add : Session :=
  state_of (_handle_dvrEntryAdd example_add (init "python-htsp")) (init "python-htsp").

Definition example_merged : entity :=
  Entity HTSPDVREntry (<["title" := VStr "X"]> example_add).

Definition after_example_update : Session :=
  state_of (_handle_dvrEntryUpdate example_update after_example_add) after_example_add.

(** An auto-record rule is added enabled, then the server disables it. *)
Definition rule_add : message :=
  <["method" := VStr "autorecEntryAdd"]>
    (<["id" := VStr "r1"]> (<["enabled" := VInt 1]> (<["title" := VStr "News"]> ∅))).

Definition rule_update : message :=
  <["method" := VStr "autorecEntryUpdate"]>
    (<["id" := VStr "r1"]> (<["enabled" := VInt 0]> ∅)).

(** A session nobody has used yet. *)
Definition fresh_world : World :=
  {| sess := init "python-htsp"; net := {| refuse := false; incoming := [] |};
     default_args := ∅; trace := [] |}.

(** Notifications about a recording and an event the cache never saw. *)
Definition stray_update : message :=
  <["method" := VStr "dvrEntryUpdate"]> (<["id" := VInt 7]> (<["title" := VStr "X"]> ∅)).

Definition stray_delete : message :=
  <["method" := VStr "dvrEntryDelete"]> (<["id" := VInt 7]> ∅).

Definition stray_event_delete : message :=
  <["method" := VStr "eventDelete"]> (<["eventId" := VInt 7]> ∅).

(** Observers that return at once and change nothing. *)
Definition quiet_observers : cbid → callback :=
  λ _ _ _ s nt, Return tt (s, nt).

Definition hello_reply (version : Z) : message :=
  <["seq" := VInt 0]> (<["htspversion" := VInt version]>
    (<["servername" := VStr "tvheadend"]> ∅)).

(** A session after [hello], with [obs] registered and [ins] waiting on the
    socket. *)
Definition connected (version : Z) (seqno : Z) (obs : list cbid) (ins : list inbound)
    : World :=
  {| sess := set_callbacks obs
               (set_sequence seqno
                  (set_hello (Some (Entity HTSPHello (hello_reply version)))
                     (set_sock true (init "python-htsp"))));
     net := {| refuse := false; incoming := ins |};
     default_args := ∅;
     trace := [] |}.

(** Two pushed notifications, the reply to [addDvrEntry], its arguments. *)
Definition push_dvr : message :=
  <["method" := VStr "dvrEntryAdd"]> (<["id" := VInt 77]> (<["title" := VStr "Film"]> ∅)).

Definition push_tag : message :=
  <["method" := VStr "tagAdd"]> (<["tagId" := VInt 1]> (<["tagName" := VStr "News"]> ∅)).

Definition add_reply (tag : Z) : message :=
  <["seq" := VInt tag]> (<["success" := VInt 1]> (<["id" := VInt 77]> ∅)).

Definition add_args : message := <["eventId" := VInt 5]> ∅.

(** Sessions about to issue a command: with two pushes ahead of the reply,
    with a request already outstanding, with a reply carrying the wrong tag,
    and against a server that speaks version 2. *)
Definition exchange_world : World :=
  connected 17 1 [0%nat] [InMsg push_dvr; InMsg push_tag; InMsg (add_reply 1)].

Definition busy_world : World :=
  upd_sess (set_command_pending true) (connected 17 4 [] [InMsg (add_reply 4)]).

Definition crossed_world : World :=
  connected 17 1 [0%nat] [InMsg push_dvr; InMsg (add_reply 9)].

Definition old_server_world : World :=
  connected 2 1 [0%nat] [InMsg (add_reply 1)].

(** Observer 0 unregisters itself when called; the others do nothing. *)
Definition self_removing : cbid → callback :=
  λ c _ _ s nt,
    match c with
    | O => match list_remove 0%nat (_callbacks s) with
           | Some l => Return tt (set_callbacks l s, nt)
           | None => Raise ValueError (s, nt)
           end
    | _ => Return tt (s, nt)
    end.

(** Observer 0 registers observer 5 when called, unless it is registered
    already; the others do nothing. *)
Definition enrolling : cbid → callback :=
  λ c _ _ s nt,
    match c with
    | O => if existsb (Nat.eqb 5) (_callbacks s) then Return tt (s, nt)
           else Return tt (set_callbacks (_callbacks s ++ [5%nat]) s, nt)
    | _ => Return tt (s, nt)
    end.

(** The observer lists that arise with [enrolling] on observers 0 and 1. *)
Definition enrolled (l : list cbid) : Prop :=
  l = [0%nat; 1%nat] ∨ l = [0%nat; 1%nat; 5%nat].

Definition two_observers : World := connected 17 0 [0%nat; 1%nat] [].

Definition tag_handled : World :=
  state_of (_handleMessage push_tag two_observers) two_observers.

Definition sync_reply : message := <["seq" := VInt 1]> ∅.

Definition sync_completed : message := <["method" := VStr "initialSyncCompleted"]> ∅.

(** A connected session about to monitor: the reply to
    [enableAsyncMetadata], the bulk data, then an update for a recording
    that was never added. *)
Definition monitor_world : World :=
  connected 17 1 []
    [InMsg sync_reply; InMsg push_tag; InMsg sync_completed; InMsg stray_update].

Definition monitor_entered : World :=
  state_of (monitor_enter quiet_observers 3 0%nat monitor_world) monitor_world.

Definition monitor_stopped : World :=
  state_of (monitor_loop quiet_observers 3 monitor_entered) monitor_world.

(** Observers that call [sys.exit()], and a synchronized session that is
    about to be told of a recording. *)
Definition exiting : cbid → callback :=
  λ _ _ _ s nt, Raise SystemExit (s, nt).

Definition exit_world : World :=
  upd_sess (set_initial_data true) (connected 17 1 [] [InMsg push_dvr]).

(** A run: [hello], then [addDvrEntry] whose reply comes after two pushed
    notifications. *)
Definition run_start : World :=
  start "python-htsp"
    {| refuse := false;
       incoming := [InMsg (hello_reply 17); InMsg push_dvr; InMsg push_tag;
                    InMsg (add_reply 1)] |}.

Definition run_hello : World :=
  state_of (hello quiet_observers 1 run_start) run_start.

Definition run_added : World :=
  state_of (_invoke_command quiet_observers 1 "addDvrEntry" (Some add_args) run_hello)
    run_start.

(** * Vocabulary of the further properties *)

(** Every record of a cache of class [c] sits under the key its own
    identifier hashes to. *)
Definition keyed (c : cls) (cache : gmap key entity) : Prop :=
  ∀ k e, cache !! k = Some e →
         ecls e = c ∧ ∃ i, _message e !! id_field c = Some i ∧ hash_key i = Some k.

Definition consistent (s : Session) : Prop :=
  keyed HTSPTag (_tags s) ∧ keyed HTSPChannel (_channels s) ∧
  keyed HTSPDVREntry (_dvr_entries s) ∧
  keyed HTSPAutoRecordEntry (_auto_record_entries s) ∧
  match _events s with Some evs => keyed HTSPEvent evs | None => True end.

(** The observer calls recorded in a trace. *)
Definition observer_calls (tr : list event) : list event :=
  List.filter (λ e, match e with EvCall _ _ _ => true | _ => false end) tr.

(** Observers that return at once and change nothing. *)
Definition inert (cbs : cbid → callback) : Prop :=
  ∀ c v n s nt, cbs c v n s nt = Return tt (s, nt).

(** The requests sent so far, oldest first. *)
Definition sent_requests (tr : list event) : list message :=
  flat_map (λ e, match e with EvSend m => [m] | _ => [] end) tr.

(** The arguments of [addDvrEntry] for a recording given by channel and
    times, and for one tied to an event. *)
Definition timed_command (retention title channel start stop : value) : message :=
  <["stop" := stop]> (<["start" := start]> (<["channelId" := channel]>
    (<["title" := title]> (<["retention" := retention]> ∅)))).

Definition event_command (retention : value) (title : option value) (event_id : value)
    : arguments :=
  <["eventId" := Some event_id]> (<["title" := title]> (<["retention" := Some retention]> ∅)).

(** [entry._message.get('retention', 0)]. *)
Definition retention_of (entry : entity) : value :=
  default (VInt 0) (_message entry !! "retention").

(** * Further examples *)

Definition film_add : message :=
  <["id" := VInt 7]> (<["title" := VStr "Film"]> (<["state" := VStr "scheduled"]> ∅)).

Definition film_update : message :=
  <["id" := VInt 7]> (<["state" := VStr "recording"]> (<["error" := VStr EmptyString]> ∅)).

Definition film_delete : message := <["id" := VInt 7]> ∅.

Definition film_scheduled : Session :=
  state_of (_handle_dvrEntryAdd film_add (init "python-htsp")) (init "python-htsp").

Definition film_recording : Session :=
  state_of (_handle_dvrEntryUpdate film_update film_scheduled) film_scheduled.

(** A session whose socket raises while a command waits for its reply. *)
Definition interrupted_world : World :=
  connected 17 1 [0%nat] [InMsg push_dvr; InRaise KeyboardInterrupt; InMsg (add_reply 1)].

(** A frame that names no method. *)
Definition anonymous_frame : message := <["status" := VStr "idle"]> ∅.

Definition muddled_world : World :=
  connected 17 1 [0%nat]
    [InMsg push_dvr; InMsg anonymous_frame; InMsg push_tag; InMsg (add_reply 1)].

(** A synchronized session holding three recordings. *)
Definition rec_scheduled : message :=
  <["id" := VInt 1]> (<["state" := VStr "scheduled"]> ∅).

Definition rec_completed : message :=
  <["id" := VInt 2]> (<["state" := VStr "completed"]> ∅).

Definition rec_invalid : message :=
  <["id" := VInt 3]> (<["state" := VStr "invalid"]> ∅).

Definition library_world : World :=
  upd_sess
    (λ s, set_initial_data true
            (set_dvr_entries
               (<[inl 1 := Entity HTSPDVREntry rec_scheduled]>
                  (<[inl 2 := Entity HTSPDVREntry rec_completed]>
                     (<[inl 3 := Entity HTSPDVREntry rec_invalid]> ∅))) s))
    (connected 17 1 [] []).

(** A session that keeps an event map, holding one event. *)
Definition event_news : message :=
  <["eventId" := VInt 5]> (<["title" := VStr "News"]> ∅).

Definition epg_world : World :=
  upd_sess (set_events (Some (<[inl 5 := Entity HTSPEvent event_news]> ∅)))
    (connected 17 1 [] []).

(** The server's answer to [getEvent], [cancelDvrEntry] refused, and
    [addDvrEntry] answered before the recording was announced. *)
Definition event_reply : message :=
  <["seq" := VInt 1]> (<["eventId" := VInt 9]> (<["title" := VStr "Film"]> ∅)).

Definition no_epg_world : World := connected 17 1 [] [InMsg event_reply].

Definition cancel_refused : message :=
  <["seq" := VInt 1]> (<["success" := VInt 0]> (<["error" := VStr "no such entry"]> ∅)).

Definition cancel_world : World :=
  upd_sess (set_dvr_entries (<[inl 7 := Entity HTSPDVREntry film_add]> ∅))
    (connected 17 1 [] [InMsg cancel_refused]).

(** A recording to be made, given by channel and times, and one tied to an
    event; a codec that refuses [None]. *)
Definition film_entry : entity :=
  Entity HTSPDVREntry
    (<["title" := VStr "Film"]> (<["channel" := VInt 10]>
       (<["start" := VInt 1000]> (<["stop" := VInt 2000]> ∅)))).

Definition news_entry (event_id : Z) : entity :=
  Entity HTSPDVREntry (<["eventId" := VInt event_id]> ∅).

Definition refusing_codec : string → arguments → M World message :=
  λ _ _, raise (Exception "invalid type").

Definition early_reply_world : World :=
  connected 17 1 [0%nat] [InMsg (add_reply 1); InMsg push_dvr].

(** The recording is announced before the reply: the spec's scenario. *)
Definition announced_world : World :=
  connected 17 1 [0%nat] [InMsg push_dvr; InMsg (add_reply 1)].

(** A channel mapped to tag 1, one mapped to an unknown tag, and a session
    that knows tag 1. *)
Definition bbc : entity :=
  Entity HTSPChannel
    (<["channelId" := VInt 10]> (<["channelNumber" := VInt 101]>
       (<["channelName" := VStr "BBC"]> (<["tags" := VList [VInt 1]]> ∅)))).

Definition tagged_session : Session :=
  state_of (_handle_tagAdd push_tag (init "python-htsp")) (init "python-htsp").

(** A session on which [monitor] already left observer 0 behind, about to
    be interrupted. *)
Definition remonitor_world : World :=
  upd_sess (set_initial_data true)
    (connected 17 1 [0%nat] [InMsg push_tag; InRaise KeyboardInterrupt]).

Definition remonitor_entered : World :=
  state_of (monitor_enter quiet_observers 3 0%nat remonitor_world) remonitor_world.

Definition remonitor_stopped : World :=
  state_of (monitor_loop quiet_observers 3 remonitor_entered) remonitor_world.

(** A stand-in for the hash, and a session whose server sent a challenge. *)
Definition demo_sha1 (s : string) : string := "sha1:" +:+ s.

Definition challenge_world : World :=
  upd_sess
    (set_hello (Some (Entity HTSPHello (<["challenge" := VStr "xyz"]> (hello_reply 17)))))
    (connected 17 1 [] [InMsg (<["noaccess" := VInt 1]> sync_reply)]).

(** A session that authenticated as bob. *)
Definition bob_world : World :=
  upd_sess (set_user (Some "bob")) (connected 17 1 [] [InMsg sync_reply]).

(** A session about to connect, and one whose server is down. *)
Definition dialing_world : World :=
  start "python-htsp" {| refuse := false; incoming := [InMsg (hello_reply 17)] |}.

(** The session part of [_handleMessage]: what a frame does to the
    caches. *)
Definition apply_frame (m : message) : M Session (option entity) :=
  match m !! "method" with
  | None => ret None
  | Some (VStr name) =>
      match handler_of name with
      | Some fn => fn m
      | None => ret None
      end
  | Some _ => raise TypeError
  end.

(** The session after the frames [ms] were applied in order, provided each
    was handled without an exception and none of them completed the
    synchronization. *)
Fixpoint apply_frames (ms : list message) (s : Session) : option Session :=
  match ms with
  | [] => Some s
  | m :: rest =>
      match apply_frame m s with
      | Return _ s' => if _initial_data s' then None else apply_frames rest s'
      | _ => None
      end
  end.

Definition channel_bbc : message :=
  <["method" := VStr "channelAdd"]>
    (<["channelId" := VInt 10]> (<["channelNumber" := VInt 101]>
       (<["channelName" := VStr "BBC"]> (<["tags" := VList [VInt 1]]> ∅)))).

(** The spec's bulk synchronization, with one more frame behind the
    completion marker. *)
Definition unsynced_world : World :=
  connected 17 1 []
    [InMsg sync_reply; InMsg push_tag; InMsg channel_bbc; InMsg sync_completed;
     InMsg push_dvr].

Definition synced_session : Session :=
  default (init "python-htsp")
    (apply_frames [push_tag; channel_bbc]
       (set_sequence 2 (set_events None (sess unsynced_world)))).

(** The verbs [HTSPSession] has a [_handle_] method for. *)
Definition handled_verbs : list string :=
  ["initialSyncCompleted"; "tagAdd"; "tagUpdate"; "channelAdd"; "channelUpdate";
   "eventAdd"; "eventDelete"; "dvrEntryAdd"; "dvrEntryDelete"; "dvrEntryUpdate";
   "autorecEntryAdd"; "autorecEntryUpdate"].

(** The server withdraws a tag. *)
Definition tag_delete : message :=
  <["method" := VStr "tagDelete"]> (<["tagId" := VInt 1]> ∅).

Definition tagged_world : World :=
  upd_sess (λ s, set_tags (_tags tagged_session) s) (connected 17 1 [0%nat; 1%nat] []).

(** * Properties *)

(** ** The entity cache *)

Lemma new_response_message (c : cls) (m : message) :
  _message (new_response c m) = m.
Proof.
  unfold new_response; simpl.
  destruct (Nat.eqb (size m) 0) eqn:E; [|done].
  apply Nat.eqb_eq in E. symmetry. by apply map_size_empty_inv.
Qed.

Lemma new_response_cls (c : cls) (m : message) : ecls (new_response c m) = c.
Proof. done. Qed.

(** What the merge loop leaves under each field name. *)
Lemma foldl_update_step_lookup (l : list (string * value)) (acc : message) (f : string) :
  NoDup l.*1 →
  foldl update_step acc l !! f =
    match (list_to_map l : message) !! f with
    | Some v => if truthy v then Some v else acc !! f
    | None => acc !! f
    end.
Proof.
  revert acc. induction l as [|[k v] l IH]; intros acc Hnd; [done|].
  apply NoDup_cons in Hnd as [Hk Hnd]. cbn [foldl list_to_map foldr].
  rewrite (IH _ Hnd). destruct (decide (k = f)) as [->|Hne].
  - rewrite lookup_insert_eq.
    rewrite (not_elem_of_list_to_map_1 (M:=gmap string) _ _ Hk).
    unfold update_step; simpl. destruct (truthy v); [|done].
    by rewrite lookup_insert_eq.
  - rewrite (lookup_insert_ne _ k f) by done.
    assert (update_step acc (k, v) !! f = acc !! f) as ->; [|done].
    unfold update_step; simpl. destruct (truthy v); [|done].
    by rewrite lookup_insert_ne.
Qed.

Lemma _update_reponse_lookup (old new : entity) (f : string) :
  _message (_update_reponse old new) !! f =
    match _message new !! f with
    | Some v => if truthy v then Some v else _message old !! f
    | None => _message old !! f
    end.
Proof.
  unfold _update_reponse; simpl.
  rewrite foldl_update_step_lookup by apply NoDup_fst_map_to_list.
  by rewrite list_to_map_to_list.
Qed.

Lemma kind_update_unfold (kd : kind) :
  kind_update kd = handle_update (kind_cls kd) (kind_cache kd) (kind_set_cache kd).
Proof. by destruct kd. Qed.

Lemma kind_cache_set (kd : kind) (c : gmap key entity) (s : Session) :
  kind_cache kd (kind_set_cache kd c s) = c.
Proof. by destruct kd. Qed.

Lemma handler_of_update (kd : kind) :
  handler_of (kind_update_verb kd) = Some (kind_update kd).
Proof. by destruct kd. Qed.

(** A successful update, taken apart. *)
Lemma handle_update_Return (kd : kind) (m : message) (s s' : Session) (r : option entity) :
  kind_update kd m s = Return r s' →
  ∃ (i : value) (k : key) (old : entity),
    m !! id_field (kind_cls kd) = Some i ∧ hash_key i = Some k ∧
    kind_cache kd s !! k = Some old ∧
    r = Some (_update_reponse old (new_response (kind_cls kd) m)) ∧
    s' = kind_set_cache kd
           (<[k := _update_reponse old (new_response (kind_cls kd) m)]> (kind_cache kd s)) s.
Proof.
  rewrite kind_update_unfold. unfold handle_update, entity_id, bind, getitem, hashed.
  rewrite new_response_message, new_response_cls.
  destruct (m !! id_field (kind_cls kd)) as [i|] eqn:Hi; [|done].
  unfold ret at 1. destruct (hash_key i) as [k|] eqn:Hk; [|done].
  unfold ret at 1, get.
  destruct (kind_cache kd s !! k) as [old|] eqn:Hold; [|done].
  unfold modify, ret. intros [= <- <-]. by exists i, k, old.
Qed.

(** An update for an identifier the cache does not hold. *)
Lemma handle_update_absent (kd : kind) (m : message) (s : Session) (i : value) (k : key) :
  m !! id_field (kind_cls kd) = Some i → hash_key i = Some k →
  kind_cache kd s !! k = None →
  kind_update kd m s = Raise KeyError s.
Proof.
  intros Hi Hk Hnone. rewrite kind_update_unfold.
  unfold handle_update, entity_id, bind, getitem, hashed.
  rewrite new_response_message, new_response_cls, Hi. unfold ret at 1.
  rewrite Hk. unfold ret at 1, get. by rewrite Hnone.
Qed.

Lemma _handle_dvrEntryDelete_absent (m : message) (s : Session) (i : value) (k : key) :
  m !! "id" = Some i → hash_key i = Some k → _dvr_entries s !! k = None →
  _handle_dvrEntryDelete m s = Return None s.
Proof.
  intros Hi Hk Hnone.
  unfold _handle_dvrEntryDelete, entity_id, bind, getitem, hashed.
  rewrite new_response_message, new_response_cls. cbn [id_field].
  rewrite Hi. unfold ret at 1. rewrite Hk. unfold ret at 1, get.
  by rewrite Hnone.
Qed.

Lemma _handle_eventDelete_absent (m : message) (s : Session) (i : value) (k : key) :
  m !! "eventId" = Some i → hash_key i = Some k →
  match _events s with Some evs => evs !! k = None | None => True end →
  _handle_eventDelete m s = Return None s.
Proof.
  intros Hi Hk Hnone. unfold _handle_eventDelete, bind, get.
  destruct (_events s) as [evs|]; [|done].
  unfold entity_id, bind, getitem, hashed.
  rewrite new_response_message, new_response_cls. cbn [id_field].
  rewrite Hi. unfold ret at 1. rewrite Hk. unfold ret at 1.
  by rewrite Hnone.
Qed.

Lemma set_sess_sess (w : World) : set_sess (sess w) w = w.
Proof. by destruct w. Qed.

(** [_handleMessage] on a message whose verb has a handler. *)
Lemma _handleMessage_known (m : message) (name : string)
    (fn : message → M Session (option entity)) (w : World) :
  m !! "method" = Some (VStr name) → handler_of name = Some fn →
  _handleMessage m w = liftS (fn m) (log (EvHandle m) w).
Proof.
  intros Hm Hfn. unfold _handleMessage, bind, modify. by rewrite Hm, Hfn.
Qed.

(** C2: an update notification changes only the fields its payload
    carries.  For each of the four kinds with an update handler, a
    successful update replaces the cached record under the message's
    identifier by the merged record; every field absent from the payload
    keeps the value it had, and a non-empty field of the payload is
    stored.  All other records of the cache are left alone. *)
Theorem update_alters_only_carried_fields
    (kd : kind) (m : message) (s s' : Session) (r : option entity) :
  kind_update kd m s = Return r s' →
  ∃ (i : value) (k : key) (old new : entity),
    m !! id_field (kind_cls kd) = Some i ∧ hash_key i = Some k ∧
    kind_cache kd s !! k = Some old ∧ r = Some new ∧
    kind_cache kd s' = <[k := new]> (kind_cache kd s) ∧
    (∀ f, m !! f = None → _message new !! f = _message old !! f) ∧
    (∀ f v, m !! f = Some v → truthy v = true → _message new !! f = Some v).
Proof.
  intros H. apply handle_update_Return in H as (i & k & old & Hi & Hk & Hold & -> & ->).
  exists i, k, old, (_update_reponse old (new_response (kind_cls kd) m)).
  repeat split; try done.
  - apply kind_cache_set.
  - intros f Hf. by rewrite _update_reponse_lookup, new_response_message, Hf.
  - intros f v Hf Hv.
    by rewrite _update_reponse_lookup, new_response_message, Hf, Hv.
Qed.

Lemma update_alters_only_carried_fields_witness :
  ∃ (new : entity) (s' : Session),
    _handle_dvrEntryAdd example_add (init "python-htsp")
      = Return (Some (Entity HTSPDVREntry example_add)) after_example_add ∧
    _handle_dvrEntryUpdate example_update after_example_add = Return (Some new) s' ∧
    _dvr_entries s' !! inl 1 = Some new ∧
    _message new !! "title" = Some (VStr "X") ∧
    _message new !! "retention" = Some (VInt 5).
Proof.
  assert (_handle_dvrEntryUpdate example_update after_example_add
          = Return (Some example_merged) after_example_update) as E
    by (vm_compute; reflexivity).
  destruct (update_alters_only_carried_fields DvrEntry example_update after_example_add
              after_example_update (Some example_merged) E)
    as (i & k & old & new & Hi & Hk & Hold & Hnew & Hc & Habs & Hch).
  exists new, after_example_update.
  assert (i = VInt 1) as -> by (vm_compute in Hi; congruence).
  assert (k = inl 1) as -> by (simpl in Hk; congruence).
  assert (old = Entity HTSPDVREntry example_add) as ->
    by (vm_compute in Hold; vm_compute; congruence).
  split; [vm_compute; reflexivity|].
  split; [by rewrite E, Hnew|].
  split; [simpl in Hc; rewrite Hc; apply lookup_insert_eq|].
  split.
  - apply Hch; vm_compute; reflexivity.
  - rewrite Habs; vm_compute; reflexivity.
Defined.

(** The merge skips every falsy value of the payload, whatever the kind and
    whatever the field. *)
Lemma update_ignores_falsy_fields
    (kd : kind) (m : message) (s s' : Session) (r : option entity) (f : string) (v : value) :
  kind_update kd m s = Return r s' →
  m !! f = Some v → truthy v = false →
  ∃ (k : key) (old new : entity),
    kind_cache kd s !! k = Some old ∧ r = Some new ∧
    _message new !! f = _message old !! f.
Proof.
  intros H Hf Hv.
  apply handle_update_Return in H as (i & k & old & Hi & Hk & Hold & -> & ->).
  exists k, old, (_update_reponse old (new_response (kind_cls kd) m)).
  repeat split; try done.
  by rewrite _update_reponse_lookup, new_response_message, Hf, Hv.
Qed.

(** C4: the update [{id:"r1", enabled:0}] is applied without error and the
    cached rule still reads [enabled = 1]: the merge dropped the falsy
    value. *)
Theorem autorec_update_enabled_zero_ignored :
  ∃ (new : entity) (w' : World),
    (_handleMessage rule_add ;;; _handleMessage rule_update) fresh_world
      = Return (Some new) w' ∧
    rule_update !! "enabled" = Some (VInt 0) ∧
    _auto_record_entries (sess w') !! inr "r1" = Some new ∧
    _message new !! "enabled" = Some (VInt 1).
Proof.
  exists (Entity HTSPAutoRecordEntry (<["method" := VStr "autorecEntryUpdate"]> rule_add)),
    (state_of ((_handleMessage rule_add ;;; _handleMessage rule_update) fresh_world)
       fresh_world).
  split; [|split; [|split]]; vm_compute; reflexivity.
Qed.

(** C7: an update whose identifier the cache does not hold raises
    [KeyError] out of [_handleMessage], for each of the four update verbs;
    a [dvrEntryDelete] or [eventDelete] whose identifier the cache does not
    hold returns [None] and leaves every cache as it was. *)
Theorem absent_id_update_raises_delete_tolerated
    (kd : kind) (mu md me : message) (w : World)
    (iu id ie : value) (ku kd' ke : key) :
  mu !! "method" = Some (VStr (kind_update_verb kd)) →
  mu !! id_field (kind_cls kd) = Some iu → hash_key iu = Some ku →
  kind_cache kd (sess w) !! ku = None →
  md !! "method" = Some (VStr "dvrEntryDelete") →
  md !! "id" = Some id → hash_key id = Some kd' →
  _dvr_entries (sess w) !! kd' = None →
  me !! "method" = Some (VStr "eventDelete") →
  me !! "eventId" = Some ie → hash_key ie = Some ke →
  match _events (sess w) with Some evs => evs !! ke = None | None => True end →
  _handleMessage mu w = Raise KeyError (log (EvHandle mu) w) ∧
  _handleMessage md w = Return None (log (EvHandle md) w) ∧
  _handleMessage me w = Return None (log (EvHandle me) w).
Proof.
  intros Hmu Hiu Hku Hu Hmd Hid Hkd Hd Hme Hie Hke He.
  split; [|split].
  - rewrite (_handleMessage_known mu _ _ w Hmu (handler_of_update kd)).
    unfold liftS. cbn [sess log].
    rewrite (handle_update_absent kd mu (sess w) iu ku Hiu Hku Hu).
    by destruct w.
  - rewrite (_handleMessage_known md "dvrEntryDelete" _handle_dvrEntryDelete w Hmd eq_refl).
    unfold liftS. cbn [sess log].
    rewrite (_handle_dvrEntryDelete_absent md (sess w) id kd' Hid Hkd Hd).
    by destruct w.
  - rewrite (_handleMessage_known me "eventDelete" _handle_eventDelete w Hme eq_refl).
    unfold liftS. cbn [sess log].
    rewrite (_handle_eventDelete_absent me (sess w) ie ke Hie Hke He).
    by destruct w.
Qed.

Lemma absent_id_update_raises_delete_tolerated_witness :
  _handleMessage stray_update fresh_world
    = Raise KeyError (log (EvHandle stray_update) fresh_world) ∧
  _handleMessage stray_delete fresh_world
    = Return None (log (EvHandle stray_delete) fresh_world) ∧
  _handleMessage stray_event_delete fresh_world
    = Return None (log (EvHandle stray_event_delete) fresh_world).
Proof.
  apply (absent_id_update_raises_delete_tolerated DvrEntry
           stray_update stray_delete stray_event_delete fresh_world
           (VInt 7) (VInt 7) (VInt 7) (inl 7) (inl 7) (inl 7));
    vm_compute; reflexivity.
Defined.

(** ** The correlator *)

Lemma received_nil (w : World) : received [] (incoming (net w)) w = w.
Proof.
  destruct w as [s [rf ins] d t]. unfold received; simpl. by rewrite app_nil_r.
Qed.

Lemma received_received (ms1 ms2 : list message) (r1 r2 : list inbound) (w : World) :
  received ms2 r2 (received ms1 r1 w) = received (ms1 ++ ms2) r2 w.
Proof.
  unfold received; simpl. by rewrite map_app, app_assoc.
Qed.

Lemma _recv_msg (w : World) (m : message) (rest : list inbound) :
  _sock (sess w) = true → incoming (net w) = InMsg m :: rest →
  _recv w = Return m (received [m] rest w).
Proof. intros Hs Hi. unfold _recv. by rewrite Hs, Hi. Qed.

Lemma _recv_Return (w w' : World) (m : message) :
  _recv w = Return m w' →
  _sock (sess w) = true ∧
  ∃ rest, incoming (net w) = InMsg m :: rest ∧ w' = received [m] rest w.
Proof.
  unfold _recv. destruct (_sock (sess w)); [|discriminate]. simpl.
  destruct (incoming (net w)) as [|[m'|e] rest]; try discriminate.
  intros [= <- <-]. split; [done|]. by exists rest.
Qed.

Section Correlator.

Variable cbs : cbid → callback.

(** The waiting loop, forwards: on a stream that holds the reply after the
    untagged frames [q], it returns them queued in arrival order. *)
Lemma await_reply_ok (reply : message) (rest : list inbound) (q : list message) :
  ∀ (m : message) (ms queue : list message) (ins : list inbound) (w : World),
    m :: ms = q ++ [reply] → Forall no_seq q → is_Some (reply !! "seq") →
    _sock (sess w) = true →
    incoming (net w) = map InMsg ms ++ rest →
    (length ms ≤ length ins)%nat →
    await_reply ins m queue w = Return (queue ++ q, reply) (received ms rest w).
Proof.
  induction q as [|m0 q IH]; intros m ms queue ins w Heq Hq [t Ht] Hs Hin Hlen.
  - injection Heq as -> ->. simpl in Hin. subst rest.
    destruct ins; simpl; rewrite Ht; unfold ret;
      by rewrite app_nil_r, received_nil.
  - injection Heq as -> ->. apply Forall_cons in Hq as [Hm Hq].
    destruct (q ++ [reply]) as [|m' ms'] eqn:Hms; [by destruct q|].
    destruct ins as [|x ins]; [simpl in Hlen; lia|].
    simpl in Hin. cbn [await_reply]. rewrite Hm. unfold bind.
    rewrite (_recv_msg w m' _ Hs Hin).
    rewrite (IH m' ms' (queue ++ [m0]) ins (received [m'] (map InMsg ms' ++ rest) w));
      try done; [|simpl in Hlen; lia].
    by rewrite received_received, <- app_assoc.
Qed.

(** The waiting loop, backwards: whatever it returns was on the stream in
    that order. *)
Lemma await_reply_Return :
  ∀ (ins : list inbound) (m : message) (queue : list message) (w w' : World)
    (qm : list message * message),
    await_reply ins m queue w = Return qm w' →
    ∃ (q ms : list message) (rest : list inbound),
      m :: ms = q ++ [qm.2] ∧ qm.1 = queue ++ q ∧
      Forall no_seq q ∧ is_Some (qm.2 !! "seq") ∧
      incoming (net w) = map InMsg ms ++ rest ∧
      w' = received ms rest w.
Proof.
  induction ins as [|x ins IH]; intros m queue w w' qm; simpl;
    destruct (m !! "seq") as [t|] eqn:Ht.
  - intros [= <- <-]. exists [], [], (incoming (net w)). simpl.
    rewrite app_nil_r, received_nil. eauto 10.
  - unfold bind. by destruct (_recv w).
  - intros [= <- <-]. exists [], [], (incoming (net w)). simpl.
    rewrite app_nil_r, received_nil. eauto 10.
  - unfold bind. destruct (_recv w) as [m' w1| | |] eqn:Hr; try done.
    apply _recv_Return in Hr as (Hs & rest1 & Hin & ->).
    intros H. apply IH in H as (q & ms & rest & Heq & Hq1 & Hq & Hseq & Hin' & ->).
    exists (m :: q), (m' :: ms), rest. simpl in Hin'. subst rest1.
    rewrite received_received, Hq1, <- app_assoc. simpl. rewrite Heq.
    repeat split; try done. by apply Forall_cons.
Qed.

Lemma invoke_busy (fuel : nat) (method : string) (r : option message) (w : World) :
  _command_pending (sess w) = true →
  _invoke_command cbs fuel method r w
    = Raise (Exception ("A command is already pending: " +:+ method)) w.
Proof. intros Hp. unfold _invoke_command, bind, get. by rewrite Hp. Qed.

Lemma invoke_sent (fuel : nat) (method : string) (r : option message) (w : World) :
  _command_pending (sess w) = false → _sock (sess w) = true →
  _invoke_command cbs fuel method r w =
    (m <- _recv ;;
     w1 <- get ;;
     qm <- await_reply (incoming (net w1)) m [] ;;
     finish cbs fuel qm) (sent method r w).
Proof.
  intros Hp Hs. unfold _invoke_command, _send, store_args, sent, store, request.
  unfold bind, get, modify, ret, raise. rewrite Hp.
  destruct r as [a|]; cbn [sess upd_sess set_sess set_command_pending _sock set_default_args];
    rewrite Hs; reflexivity.
Qed.

(** Without a socket the request is prepared, the pending flag is set, and
    the send fails. *)
Lemma invoke_no_socket (fuel : nat) (method : string) (r : option message) (w : World) :
  _command_pending (sess w) = false → _sock (sess w) = false →
  _invoke_command cbs fuel method r w =
    Raise AttributeError
      (store r (request method r w) (upd_sess (set_command_pending true) w)).
Proof.
  intros Hp Hs. unfold _invoke_command, _send, store_args, sent, store, request.
  unfold bind, get, modify, ret, raise. rewrite Hp.
  destruct r as [a|]; cbn [sess upd_sess set_sess set_command_pending _sock set_default_args];
    rewrite Hs; reflexivity.
Qed.

Lemma sent_sess (method : string) (r : option message) (w : World) :
  sess (sent method r w) = set_command_pending true (sess w).
Proof. by destruct r. Qed.

Lemma sent_net (method : string) (r : option message) (w : World) :
  net (sent method r w) = net w.
Proof. by destruct r. Qed.

Lemma sent_trace (method : string) (r : option message) (w : World) :
  trace (sent method r w) = trace w ++ [EvSend (request method r w)].
Proof. by destruct r. Qed.

(** An exchange whose reply arrives after the untagged frames [q]. *)
Lemma invoke_reply (fuel : nat) (method : string) (r : option message) (w : World)
    (q : list message) (reply : message) (rest : list inbound) :
  _command_pending (sess w) = false → _sock (sess w) = true →
  incoming (net w) = map InMsg (q ++ [reply]) ++ rest →
  Forall no_seq q → is_Some (reply !! "seq") →
  _invoke_command cbs fuel method r w =
    finish cbs fuel (q, reply) (received (q ++ [reply]) rest (sent method r w)).
Proof.
  intros Hp Hs Hin Hq Hseq. rewrite invoke_sent by done.
  destruct (q ++ [reply]) as [|m ms] eqn:Hqr; [by destruct q|].
  assert (_sock (sess (sent method r w)) = true) as Hs' by (by rewrite sent_sess).
  assert (incoming (net (sent method r w)) = InMsg m :: map InMsg ms ++ rest) as Hin'
    by (by rewrite sent_net).
  unfold bind at 1. rewrite (_recv_msg _ m _ Hs' Hin').
  unfold bind at 1, get at 1. unfold bind at 1.
  rewrite (await_reply_ok reply rest q m ms [] _ _ (eq_sym Hqr) Hq Hseq); try done.
  - by rewrite received_received.
  - simpl. rewrite length_app, length_map. lia.
Qed.

Lemma finish_mismatch (fuel : nat) (q : list message) (reply : message) (tag : value)
    (w : World) :
  reply !! "seq" = Some tag → value_ne_int tag (_sequence (sess w)) = true →
  finish cbs fuel (q, reply) w = Raise (Exception "Message out of sequence") w.
Proof. intros Ht Hne. unfold finish, bind; simpl. by rewrite Ht, Hne. Qed.

Lemma finish_match (fuel : nat) (q : list message) (reply : message) (tag : value)
    (w : World) :
  reply !! "seq" = Some tag → value_ne_int tag (_sequence (sess w)) = false →
  finish cbs fuel (q, reply) w = (drain cbs fuel q ;;; ret reply) (completed w).
Proof. intros Ht Hne. unfold finish, bind; simpl. by rewrite Ht, Hne. Qed.

(** An exchange whose reply carries the expected tag: the queue is drained,
    then the reply is returned. *)
Lemma invoke_matching_reply (fuel : nat) (method : string) (r : option message)
    (w : World) (q : list message) (reply : message) (rest : list inbound) :
  _command_pending (sess w) = false → _sock (sess w) = true →
  incoming (net w) = map InMsg (q ++ [reply]) ++ rest →
  Forall no_seq q →
  reply !! "seq" = Some (VInt (_sequence (sess w))) →
  _invoke_command cbs fuel method r w =
    (drain cbs fuel q ;;; ret reply)
      (completed (received (q ++ [reply]) rest (sent method r w))).
Proof.
  intros Hp Hs Hin Hq Ht.
  rewrite (invoke_reply fuel method r w q reply rest) by eauto.
  apply (finish_match fuel q reply _ _ Ht).
  unfold received; cbn [sess]. rewrite sent_sess. simpl. by rewrite Z.eqb_refl.
Qed.

(** C6: a call made while a request is outstanding raises the
    "already pending" exception at once and returns the world exactly as it
    found it: nothing was sent or received, and the sequence counter, like
    every other field, is what it was, so whatever runs next runs as if the
    call had not been made. *)
Theorem busy_invocation_fails_unchanged
    (fuel : nat) (method : string) (r : option message) (w : World) :
  _command_pending (sess w) = true →
  ∃ w', _invoke_command cbs fuel method r w
          = Raise (Exception ("A command is already pending: " +:+ method)) w' ∧
        w' = w ∧
        _sequence (sess w') = _sequence (sess w) ∧ trace w' = trace w.
Proof. intros Hp. exists w. by rewrite invoke_busy. Qed.

(** C5: when the first frame that carries a sequence tag carries the wrong
    one, the call raises "Message out of sequence"; the pending flag is
    still set, so every later call, whatever its method and arguments,
    raises "already pending" and leaves the world as it is: no request is
    sent, no frame is read. *)
Theorem out_of_sequence_poisons_session
    (fuel : nat) (method : string) (r : option message) (w : World)
    (q : list message) (reply : message) (rest : list inbound) (tag : value) :
  _command_pending (sess w) = false → _sock (sess w) = true →
  incoming (net w) = map InMsg (q ++ [reply]) ++ rest →
  Forall no_seq q → reply !! "seq" = Some tag →
  value_ne_int tag (_sequence (sess w)) = true →
  ∃ w', _invoke_command cbs fuel method r w
          = Raise (Exception "Message out of sequence") w' ∧
        _command_pending (sess w') = true ∧
        ∀ fuel' method' r',
          _invoke_command cbs fuel' method' r' w'
            = Raise (Exception ("A command is already pending: " +:+ method')) w'.
Proof.
  intros Hp Hs Hin Hq Ht Hne.
  exists (received (q ++ [reply]) rest (sent method r w)).
  assert (_command_pending (sess (received (q ++ [reply]) rest (sent method r w))) = true)
    as Hp' by (unfold received; cbn [sess]; by rewrite sent_sess).
  split; [|split; [done|]].
  - rewrite (invoke_reply fuel method r w q reply rest) by eauto.
    apply (finish_mismatch fuel q reply tag); [done|].
    unfold received; cbn [sess]. by rewrite sent_sess.
  - intros fuel' method' r'. by apply invoke_busy.
Qed.

End Correlator.

(** ** Dispatch order *)

Lemma liftS_trace {A} (fn : M Session A) (w w' : World) (a : A) :
  liftS fn w = Return a w' → trace w' = trace w.
Proof.
  unfold liftS. destruct (fn (sess w)); try discriminate. by intros [= <- <-].
Qed.

Lemma _handleMessage_trace (m : message) (w w' : World) (n : option entity) :
  _handleMessage m w = Return n w' →
  ∃ pre, trace w' = trace w ++ EvHandle m :: pre ∧
         (pre = [] ∨ ∃ name, pre = [EvNotHandled name m]).
Proof.
  unfold _handleMessage, bind, modify.
  destruct (m !! "method") as [[z|name|l|d]|]; try discriminate.
  - destruct (handler_of name) as [fn|].
    + intros H. apply liftS_trace in H. exists []. by split; [|left].
    + unfold ret. intros [= <- <-]. exists [EvNotHandled ("_handle_" +:+ name) m].
      split; [|eauto]. simpl. by rewrite <- app_assoc.
  - unfold ret. intros [= <- <-]. exists []. by split; [|left].
Qed.

Section Dispatch.

Variable cbs : cbid → callback.

Lemma call_trace (c : cbid) (v : value) (n : option entity) (w w' : World) :
  call cbs c v n w = Return tt w' → trace w' = trace w ++ [EvCall c v n].
Proof.
  unfold call. destruct (cbs c v n (sess w) (net w)); try discriminate.
  by intros [= <-].
Qed.

Lemma notify_loop_trace (fuel : nat) :
  ∀ (i : nat) (v : value) (n : option entity) (w w' : World),
    notify_loop cbs fuel i v n w = Return tt w' →
    ∃ calls, trace w' = trace w ++ calls ∧ Forall (λ e, ∃ c, e = EvCall c v n) calls.
Proof.
  induction fuel as [|fuel IH]; intros i v n w w'; simpl;
    destruct (_callbacks (sess w) !! i) as [c|]; try discriminate.
  - intros [= <-]. exists []. by rewrite app_nil_r.
  - unfold bind. destruct (call cbs c v n w) as [[] w1| | |] eqn:Hc; try discriminate.
    intros H. apply IH in H as (calls & -> & Hcalls).
    apply call_trace in Hc as ->. exists (EvCall c v n :: calls).
    rewrite <- app_assoc. split; [done|]. apply Forall_cons. eauto.
  - intros [= <-]. exists []. by rewrite app_nil_r.
Qed.

Lemma _notify_trace (fuel : nat) (m : message) (n : option entity) (w w' : World) :
  _notify cbs fuel m n w = Return tt w' →
  ∃ v calls, m !! "method" = Some v ∧ trace w' = trace w ++ calls ∧
             Forall (λ e, ∃ c, e = EvCall c v n) calls.
Proof.
  unfold _notify, bind, getitem. destruct (m !! "method") as [v|]; [|discriminate].
  unfold ret at 1. intros H. apply notify_loop_trace in H as (calls & ? & ?).
  by exists v, calls.
Qed.

(** Draining the queue leaves one group of events per queued message, in
    queue order. *)
Lemma drain_trace (fuel : nat) (q : list message) :
  ∀ (w w' : World),
    drain cbs fuel q w = Return tt w' →
    ∃ evss, Forall2 dispatched q evss ∧ trace w' = trace w ++ concat evss.
Proof.
  induction q as [|m q IH]; intros w w'; simpl.
  - intros [= <-]. exists []. split; [constructor|]. simpl. by rewrite app_nil_r.
  - unfold bind at 1. destruct (_handleMessage m w) as [n w1| | |] eqn:Hh; try discriminate.
    unfold bind at 1. destruct (_notify cbs fuel m n w1) as [[] w2| | |] eqn:Hn; try discriminate.
    intros H. apply IH in H as (evss & Hevss & ->).
    apply _handleMessage_trace in Hh as (pre & Hw1 & Hpre).
    apply _notify_trace in Hn as (v & calls & Hv & -> & Hcalls). rewrite Hw1.
    exists ((EvHandle m :: pre ++ calls) :: evss). split.
    + constructor; [|done]. by exists pre, calls, v, n.
    + simpl. by rewrite <- !app_assoc.
Qed.

(** C1: an exchange whose matching reply arrives after the untagged frames
    [q] is the draining of [q], in arrival order, followed by the return of
    the reply.  When the reply is returned, the trace since the call is: the
    request, the frames as received, then for each held frame in arrival
    order its cache step followed by the observer calls for it.  Nothing is
    dispatched before the reply is read, and the reply is handed back only
    after the last held frame went through. *)
Theorem held_notifications_dispatched_before_reply
    (fuel : nat) (method : string) (r : option message) (w : World)
    (q : list message) (reply : message) (rest : list inbound) :
  _command_pending (sess w) = false → _sock (sess w) = true →
  incoming (net w) = map InMsg (q ++ [reply]) ++ rest →
  Forall no_seq q →
  reply !! "seq" = Some (VInt (_sequence (sess w))) →
  _invoke_command cbs fuel method r w =
    (drain cbs fuel q ;;; ret reply)
      (completed (received (q ++ [reply]) rest (sent method r w))) ∧
  ∀ (a : message) (w' : World),
    _invoke_command cbs fuel method r w = Return a w' →
    a = reply ∧
    ∃ evss, Forall2 dispatched q evss ∧
      trace w' = trace w ++ EvSend (request method r w)
                   :: map EvRecv (q ++ [reply]) ++ concat evss.
Proof.
  intros Hp Hs Hin Hq Ht.
  pose proof (invoke_matching_reply cbs fuel method r w q reply rest Hp Hs Hin Hq Ht)
    as Heq.
  split; [done|]. intros a w'. rewrite Heq. unfold bind.
  destruct (drain cbs fuel q _) as [[] w1| | |] eqn:Hd; try discriminate.
  unfold ret. intros [= <- <-]. split; [done|].
  apply drain_trace in Hd as (evss & Hevss & ->). exists evss. split; [done|].
  unfold completed, received, upd_sess, set_sess; cbn [trace].
  rewrite sent_trace. by rewrite <- !app_assoc.
Qed.

End Dispatch.

(** ** A worked exchange *)

Lemma held_notifications_dispatched_before_reply_witness :
  (_invoke_command quiet_observers 1 "addDvrEntry" (Some add_args) exchange_world =
     (drain quiet_observers 1 [push_dvr; push_tag] ;;; ret (add_reply 1))
       (completed (received ([push_dvr; push_tag] ++ [add_reply 1]) []
          (sent "addDvrEntry" (Some add_args) exchange_world))) ∧
   ∀ (a : message) (w' : World),
     _invoke_command quiet_observers 1 "addDvrEntry" (Some add_args) exchange_world
       = Return a w' →
     a = add_reply 1 ∧
     ∃ evss, Forall2 dispatched [push_dvr; push_tag] evss ∧
       trace w' = trace exchange_world
                    ++ EvSend (request "addDvrEntry" (Some add_args) exchange_world)
                    :: map EvRecv ([push_dvr; push_tag] ++ [add_reply 1]) ++ concat evss) ∧
  ∃ w', _invoke_command quiet_observers 1 "addDvrEntry" (Some add_args) exchange_world
          = Return (add_reply 1) w' ∧
        trace w' =
          [EvSend (request "addDvrEntry" (Some add_args) exchange_world);
           EvRecv push_dvr; EvRecv push_tag; EvRecv (add_reply 1);
           EvHandle push_dvr;
           EvCall 0 (VStr "dvrEntryAdd") (Some (Entity HTSPDVREntry push_dvr));
           EvHandle push_tag;
           EvCall 0 (VStr "tagAdd") (Some (Entity HTSPTag push_tag))] ∧
        _dvr_entries (sess w') !! inl 77 = Some (Entity HTSPDVREntry push_dvr).
Proof.
  split.
  - apply (held_notifications_dispatched_before_reply quiet_observers 1 "addDvrEntry"
             (Some add_args) exchange_world [push_dvr; push_tag] (add_reply 1) []);
      try (vm_compute; reflexivity).
    repeat constructor; vm_compute; reflexivity.
  - exists (state_of (_invoke_command quiet_observers 1 "addDvrEntry" (Some add_args)
                        exchange_world) exchange_world).
    split; [|split]; vm_compute; reflexivity.
Defined.

Lemma busy_invocation_fails_unchanged_witness :
  ∃ w', _invoke_command quiet_observers 1 "getDiskSpace" None busy_world
          = Raise (Exception "A command is already pending: getDiskSpace") w' ∧
        w' = busy_world ∧
        _sequence (sess w') = 4 ∧ trace w' = [].
Proof.
  apply (busy_invocation_fails_unchanged quiet_observers 1 "getDiskSpace" None busy_world).
  reflexivity.
Defined.

Lemma out_of_sequence_poisons_session_witness :
  ∃ w', _invoke_command quiet_observers 1 "addDvrEntry" (Some add_args) crossed_world
          = Raise (Exception "Message out of sequence") w' ∧
        _command_pending (sess w') = true ∧
        ∀ fuel' method' r',
          _invoke_command quiet_observers fuel' method' r' w'
            = Raise (Exception ("A command is already pending: " +:+ method')) w'.
Proof.
  apply (out_of_sequence_poisons_session quiet_observers 1 "addDvrEntry" (Some add_args)
           crossed_world [push_dvr] (add_reply 9) [] (VInt 9));
    try (vm_compute; reflexivity).
  repeat constructor; vm_compute; reflexivity.
Defined.

(** ** Protocol version gate *)

Section VersionGate.

Variable cbs : cbid → callback.

Lemma protocol_version_connected (fuel : nat) (w : World) (h : entity) (v : value) :
  _sock (sess w) = true → _hello (sess w) = Some h →
  _message h !! "htspversion" = Some v →
  protocol_version cbs fuel w = Return v w.
Proof.
  intros Hs Hh Hv. unfold protocol_version, _check_connection, bind, get.
  rewrite Hs. unfold ret at 1. rewrite Hh. unfold getitem. by rewrite Hv.
Qed.

Lemma _checkProtocol_too_old (fuel : nat) (required : Z) (w : World) (h : entity) (v : Z) :
  _sock (sess w) = true → _hello (sess w) = Some h →
  _message h !! "htspversion" = Some (VInt v) → v < required →
  _checkProtocol cbs fuel required w
    = Raise (ProtocolVersionException required (VInt v)) w.
Proof.
  intros Hs Hh Hv Hlt. unfold _checkProtocol, bind.
  rewrite (protocol_version_connected fuel w h (VInt v) Hs Hh Hv). simpl.
  destruct (Z.ltb_spec v required) as [_|Hge]; [|lia].
  by rewrite (protocol_version_connected fuel w h (VInt v) Hs Hh Hv).
Qed.

(** C9: on a session whose [hello] reply announced a version below 3,
    [diskspace] raises [ProtocolVersionException] and returns the world
    exactly as it found it: no request was sent, no frame was read, the
    pending flag and the sequence counter are untouched. *)
Theorem diskspace_version_gate (fuel : nat) (w : World) (h : entity) (v : Z) :
  _sock (sess w) = true → _hello (sess w) = Some h →
  _message h !! "htspversion" = Some (VInt v) → v < 3 →
  ∃ w', diskspace cbs fuel w = Raise (ProtocolVersionException 3 (VInt v)) w' ∧
        w' = w ∧ trace w' = trace w ∧ incoming (net w') = incoming (net w).
Proof.
  intros Hs Hh Hv Hlt. exists w. repeat split.
  unfold diskspace, bind at 1, _check_connection, bind at 1, get.
  rewrite Hs. unfold ret at 1. unfold bind.
  by rewrite (_checkProtocol_too_old fuel 3 w h v Hs Hh Hv Hlt).
Qed.

End VersionGate.

Lemma diskspace_version_gate_witness :
  ∃ w', diskspace quiet_observers 1 old_server_world
          = Raise (ProtocolVersionException 3 (VInt 2)) w' ∧
        w' = old_server_world ∧ trace w' = trace old_server_world ∧
        incoming (net w') = incoming (net old_server_world).
Proof.
  apply (diskspace_version_gate quiet_observers 1 old_server_world
           (Entity HTSPHello (hello_reply 2)) 2);
    [reflexivity|reflexivity|vm_compute; reflexivity|lia].
Defined.

(** ** Observer fan-out *)

Section FanOut.

Variable cbs : cbid → callback.

Lemma notify_loop_well_behaved (l : list cbid) (v : value) (n : option entity) :
  well_behaved cbs l v n →
  ∀ (fuel i : nat) (w : World),
    _callbacks (sess w) = l → (length l - i ≤ fuel)%nat →
    ∃ w', notify_loop cbs fuel i v n w = Return tt w' ∧
          trace w' = trace w ++ map (λ c, EvCall c v n) (drop i l) ∧
          _callbacks (sess w') = l.
Proof.
  intros Hwb. induction fuel as [|fuel IH]; intros i w Hl Hfuel.
  - assert (length l ≤ i)%nat as Hi by lia.
    simpl. rewrite Hl, (lookup_ge_None_2 l i Hi).
    exists w. by rewrite (drop_ge l i Hi), app_nil_r.
  - simpl. rewrite Hl. destruct (l !! i) as [c|] eqn:Hc.
    + destruct (Hwb c (sess w) (net w)) as (s' & nt' & Hcall & Hl');
        [by eapply list_elem_of_lookup_2|done|].
      unfold bind, call. rewrite Hcall.
      destruct (IH (S i) (install (s', nt') (log (EvCall c v n) w))) as (w' & Hw' & Ht & Hl'');
        [done|lia|].
      exists w'. split; [done|]. split; [|done].
      rewrite Ht. simpl. rewrite <- app_assoc. simpl.
      by rewrite (drop_S l c i Hc).
    + exists w. apply lookup_ge_None_1 in Hc.
      by rewrite (drop_ge l i Hc), app_nil_r.
Qed.

(** The walk over the live list, from position [i] on. *)
Lemma notify_loop_live (Q : list cbid → Prop) (v : value) (n : option entity) :
  keeps_walked cbs Q v n →
  ∀ (fuel i : nat) (w : World),
    Q (_callbacks (sess w)) → (∀ l, Q l → (length l ≤ i + fuel)%nat) →
    ∃ w', notify_loop cbs fuel i v n w = Return tt w' ∧
          Q (_callbacks (sess w')) ∧
          take i (_callbacks (sess w')) = take i (_callbacks (sess w)) ∧
          trace w' = trace w ++ map (λ c, EvCall c v n) (drop i (_callbacks (sess w'))).
Proof.
  intros Hk. induction fuel as [|fuel IH]; intros i w HQ Hlen.
  - assert (length (_callbacks (sess w)) ≤ i)%nat as Hi by (specialize (Hlen _ HQ); lia).
    simpl. rewrite (lookup_ge_None_2 _ i Hi).
    exists w. by rewrite (drop_ge _ i Hi), app_nil_r.
  - simpl. destruct (_callbacks (sess w) !! i) as [c|] eqn:Hc.
    + destruct (Hk i c (sess w) (net w) HQ Hc) as (s' & nt' & Hcall & Htake & HQ').
      unfold bind, call. rewrite Hcall.
      destruct (IH (S i) (install (s', nt') (log (EvCall c v n) w)))
        as (w' & Hw' & HQw & Ht & Htr).
      { done. } { intros l Hl. specialize (Hlen l Hl). lia. }
      cbn [install sess set_sess set_net log fst snd] in Ht. rewrite Htake in Ht.
      assert (_callbacks (sess w') !! i = Some c) as Hci.
      { rewrite <- (lookup_take_lt _ (S i) i) by lia. rewrite Ht.
        rewrite lookup_take_lt by lia. done. }
      exists w'. split; [done|]. split; [done|]. split.
      * apply (f_equal (take i)) in Ht. rewrite !take_take in Ht.
        by replace (i `min` S i)%nat with i in Ht by lia.
      * rewrite Htr. simpl. rewrite <- app_assoc. simpl.
        by rewrite (drop_S _ c i Hci).
    + exists w. apply lookup_ge_None_1 in Hc.
      by rewrite (drop_ge _ i Hc), app_nil_r.
Qed.

(** C8 (as amended): one dispatch step, the cache step followed by
    [_notify], which walks the live observer list by position.  When the
    observers respect the walk (each returns normally and leaves the list
    as it is up to and including its own position; it may register
    observers or remove later ones, within lists [Q] of bounded length),
    the calls made are exactly the observers in the list as it stands when
    the dispatch ends, in list order, one call per position, each with the
    message's verb and the entity the cache step returned.  With observers
    that leave the list alone ([Q] fixes the list) these are the registered
    observers in registration order. *)
Theorem observers_notified_in_registration_order
    (Q : list cbid → Prop) (fuel : nat) (m : message) (v : value) (n : option entity)
    (w w1 : World) :
  _handleMessage m w = Return n w1 →
  m !! "method" = Some v →
  keeps_walked cbs Q v n →
  Q (_callbacks (sess w1)) →
  (∀ l, Q l → (length l ≤ fuel)%nat) →
  ∃ w', (n' <- _handleMessage m ;; _notify cbs fuel m n') w = Return tt w' ∧
        trace w' = trace w1 ++ map (λ c, EvCall c v n) (_callbacks (sess w')) ∧
        Q (_callbacks (sess w')).
Proof.
  intros Hh Hv Hk HQ Hfuel. unfold bind. rewrite Hh.
  unfold _notify, bind, getitem. rewrite Hv. unfold ret.
  destruct (notify_loop_live Q v n Hk fuel 0%nat w1 HQ) as (w' & Hw' & HQ' & _ & Ht).
  { intros l Hl. specialize (Hfuel l Hl). lia. }
  exists w'. by rewrite drop_0 in Ht.
Qed.

End FanOut.

Lemma enrolling_keeps_walked (v : value) (n : option entity) :
  keeps_walked enrolling enrolled v n.
Proof.
  intros i c s nt [H|H] Hi; rewrite H in Hi;
    destruct i as [|[|[|i]]]; simpl in Hi; try discriminate Hi;
    injection Hi as <-; unfold enrolling; rewrite ?H; simpl;
    eexists _, nt; (split; [reflexivity|]); simpl; rewrite ?H; simpl;
    (split; [reflexivity|]); unfold enrolled; tauto.
Qed.

Lemma observers_notified_in_registration_order_witness :
  ∃ w', (n' <- _handleMessage push_tag ;; _notify enrolling 3 push_tag n') two_observers
          = Return tt w' ∧
        trace w' =
          trace tag_handled
            ++ map (λ c, EvCall c (VStr "tagAdd") (Some (Entity HTSPTag push_tag)))
                 (_callbacks (sess w')) ∧
        enrolled (_callbacks (sess w')).
Proof.
  apply (observers_notified_in_registration_order enrolling enrolled 3 push_tag
           (VStr "tagAdd") (Some (Entity HTSPTag push_tag)) two_observers tag_handled).
  - vm_compute; reflexivity.
  - vm_compute; reflexivity.
  - apply enrolling_keeps_walked.
  - left. vm_compute; reflexivity.
  - intros l [->| ->]; simpl; lia.
Defined.

(** C8 (as stated) fails: with observers 0 and 1 registered, observer 0
    removing itself inside its call makes the iteration end after one step;
    observer 1 is registered before and after the dispatch and is never
    called. *)
Lemma removing_observer_skips_next :
  ∃ w', (n' <- _handleMessage push_tag ;; _notify self_removing 2 push_tag n') two_observers
          = Return tt w' ∧
        1%nat ∈ _callbacks (sess two_observers) ∧
        _callbacks (sess w') = [1%nat] ∧
        trace w' = [EvHandle push_tag;
                    EvCall 0 (VStr "tagAdd") (Some (Entity HTSPTag push_tag))] ∧
        ∀ v n, EvCall 1 v n ∉ trace w'.
Proof.
  exists (state_of ((n' <- _handleMessage push_tag ;; _notify self_removing 2 push_tag n')
                      two_observers) two_observers).
  assert (trace (state_of ((n' <- _handleMessage push_tag ;;
                            _notify self_removing 2 push_tag n') two_observers) two_observers)
          = [EvHandle push_tag;
             EvCall 0 (VStr "tagAdd") (Some (Entity HTSPTag push_tag))]) as Ht
    by (vm_compute; reflexivity).
  split; [vm_compute; reflexivity|].
  split; [apply list_elem_of_In; simpl; tauto|].
  split; [vm_compute; reflexivity|].
  split; [done|].
  intros v n Hin. rewrite Ht in Hin.
  apply list_elem_of_In in Hin. simpl in Hin.
  destruct Hin as [Hin|[Hin|[]]]; discriminate Hin.
Qed.

(** ** What the engine leaves alone *)

Lemma stable_bind {S X A B} (f : S → X) (m : M S A) (k : A → M S B) :
  stable f m → (∀ a, stable f (k a)) → stable f (bind m k).
Proof.
  intros Hm Hk s. unfold bind. specialize (Hm s).
  destruct (m s) as [a s1| | |]; try done.
  specialize (Hk a s1). destruct (k a s1); congruence.
Qed.

Lemma preserves_bind {S A B} (P : S → Prop) (m : M S A) (k : A → M S B) :
  preserves P m → (∀ a, preserves P (k a)) → preserves P (bind m k).
Proof.
  intros Hm Hk s Hs. unfold bind. specialize (Hm s Hs).
  destruct (m s) as [a s1| | |]; try done. by apply Hk.
Qed.

Lemma stable_ret {S X A} (f : S → X) (a : A) : stable f (ret a).
Proof. by intros s. Qed.

Lemma stable_raise {S X A} (f : S → X) (e : exn) : stable f (raise (A:=A) e).
Proof. by intros s. Qed.

Lemma stable_get {S X} (f : S → X) : stable f get.
Proof. by intros s. Qed.

Lemma stable_modify {S X} (f : S → X) (g : S → S) :
  (∀ s, f (g s) = f s) → stable f (modify g).
Proof. intros Hg s. apply Hg. Qed.

Lemma stable_getitem {S X} (f : S → X) (m : message) (k : string) :
  stable f (getitem m k).
Proof. intros s. unfold getitem. by destruct (m !! k). Qed.

Lemma stable_hashed {S X} (f : S → X) (v : value) : stable f (hashed v).
Proof. intros s. unfold hashed. by destruct (hash_key v). Qed.

Lemma stable_preserves {S X A} (f : S → X) (P : S → Prop) (m : M S A) :
  (∀ s s', f s' = f s → P s → P s') → stable f m → preserves P m.
Proof.
  intros HP Hm s Hs. specialize (Hm s).
  destruct (m s); try done; by eapply HP.
Qed.

Lemma sent_tags_app (t1 t2 : list event) :
  sent_tags (t1 ++ t2) = sent_tags t1 ++ sent_tags t2.
Proof. unfold sent_tags. apply flat_map_app. Qed.

(** Every handler keeps the core of the session. *)
Lemma stable_handle_add (c : cls) (cache : Session → gmap key entity)
    (set_cache : gmap key entity → Session → Session) (m : message) :
  (∀ x s, core (set_cache x s) = core s) →
  stable core (handle_add c cache set_cache m).
Proof.
  intros Hset. unfold handle_add, entity_id.
  apply stable_bind; [apply stable_getitem|intros i].
  apply stable_bind; [apply stable_hashed|intros k].
  apply stable_bind; [apply stable_get|intros s].
  apply stable_bind; [by apply stable_modify|intros _]. apply stable_ret.
Qed.

Lemma stable_handle_update (c : cls) (cache : Session → gmap key entity)
    (set_cache : gmap key entity → Session → Session) (m : message) :
  (∀ x s, core (set_cache x s) = core s) →
  stable core (handle_update c cache set_cache m).
Proof.
  intros Hset. unfold handle_update, entity_id.
  apply stable_bind; [apply stable_getitem|intros i].
  apply stable_bind; [apply stable_hashed|intros k].
  apply stable_bind; [apply stable_get|intros s].
  destruct (cache s !! k); [|apply stable_raise].
  apply stable_bind; [by apply stable_modify|intros _]. apply stable_ret.
Qed.

Lemma stable_handler (name : string) (fn : message → M Session (option entity))
    (m : message) :
  handler_of name = Some fn → stable core (fn m).
Proof.
  unfold handler_of.
  repeat (destruct (String.eqb name _);
          [intros [= <-];
           first [ by apply stable_handle_add | by apply stable_handle_update | idtac ] |]);
    try discriminate.
  - unfold _handle_initialSyncCompleted.
    apply stable_bind; [by apply stable_modify|intros _]. apply stable_ret.
  - unfold _handle_eventAdd, entity_id.
    apply stable_bind; [apply stable_get|intros s].
    destruct (_events s); [|apply stable_ret].
    apply stable_bind; [apply stable_getitem|intros i].
    apply stable_bind; [apply stable_hashed|intros k].
    apply stable_bind; [by apply stable_modify|intros _]. apply stable_ret.
  - unfold _handle_eventDelete, entity_id.
    apply stable_bind; [apply stable_get|intros s].
    destruct (_events s) as [evs|]; [|apply stable_ret].
    apply stable_bind; [apply stable_getitem|intros i].
    apply stable_bind; [apply stable_hashed|intros k].
    destruct (evs !! k); [|apply stable_ret].
    apply stable_bind; [by apply stable_modify|intros _]. apply stable_ret.
  - unfold _handle_dvrEntryDelete, entity_id.
    apply stable_bind; [apply stable_getitem|intros i].
    apply stable_bind; [apply stable_hashed|intros k].
    apply stable_bind; [apply stable_get|intros s].
    destruct (_dvr_entries s !! k); [|apply stable_ret].
    apply stable_bind; [by apply stable_modify|intros _]. apply stable_ret.
Qed.

Lemma stable_liftS {A} (m : M Session A) :
  stable core m → stable view (liftS m).
Proof.
  intros Hm w. unfold liftS. specialize (Hm (sess w)).
  destruct (m (sess w)); try done; unfold view; simpl; by rewrite Hm.
Qed.

Lemma view_log (e : event) (w : World) :
  (∀ m, e ≠ EvSend m) → view (log e w) = view w.
Proof.
  intros He. unfold view; simpl. rewrite sent_tags_app. simpl.
  destruct e; try by rewrite app_nil_r. by destruct (He m).
Qed.

Lemma stable__handleMessage (m : message) : stable view (_handleMessage m).
Proof.
  unfold _handleMessage.
  apply stable_bind; [apply stable_modify; intros w; by apply view_log|intros _].
  destruct (m !! "method") as [[z|name|l|d]|];
    try apply stable_raise; try apply stable_ret.
  destruct (handler_of name) as [fn|] eqn:Hfn.
  - apply stable_liftS. by eapply stable_handler.
  - apply stable_bind; [apply stable_modify; intros w; by apply view_log|intros _].
    apply stable_ret.
Qed.

Lemma stable__recv : stable view _recv.
Proof.
  intros w. unfold _recv. destruct (_sock (sess w)); simpl; [|done].
  destruct (incoming (net w)) as [|[m|e] rest]; try done.
  unfold view; simpl. by rewrite sent_tags_app, app_nil_r.
Qed.

Lemma stable_out_of_fuel {S X A} (f : S → X) : stable f (λ _ : S, OutOfFuel (A:=A)).
Proof. by intros s. Qed.

Lemma stable_await_reply (ins : list inbound) :
  ∀ (m : message) (queue : list message), stable view (await_reply ins m queue).
Proof.
  induction ins as [|x ins IH]; intros m queue; simpl;
    destruct (m !! "seq"); try apply stable_ret.
  - apply stable_bind; [apply stable__recv|intros _]. apply stable_out_of_fuel.
  - apply stable_bind; [apply stable__recv|intros m']. apply IH.
Qed.

Lemma stable_sync_loop (ins : list inbound) : stable view (sync_loop ins).
Proof.
  induction ins as [|x ins IH]; intros w; simpl;
    destruct (_initial_data (sess w)); try done.
  - apply (stable_bind view _recv); [apply stable__recv|intros _].
    apply stable_out_of_fuel.
  - apply (stable_bind view _recv); [apply stable__recv|intros m].
    apply stable_bind; [apply stable__handleMessage|intros _]. apply IH.
Qed.

Lemma stable_connect : stable view connect.
Proof. intros w. unfold connect. by destruct (refuse (net w)). Qed.

Section Preserved.

Variable cbs : cbid → callback.
Variable P : World → Prop.

(** [P] looks at the world only through [view], and no observer breaks
    it. *)
Hypothesis P_view : ∀ w w', view w' = view w → P w → P w'.
Hypothesis P_call : ∀ c v n, preserves P (call cbs c v n).

Lemma preserves_view {A} (m : M World A) : stable view m → preserves P m.
Proof. apply stable_preserves, P_view. Qed.

Lemma preserves_notify_loop (fuel : nat) :
  ∀ (i : nat) (v : value) (n : option entity), preserves P (notify_loop cbs fuel i v n).
Proof.
  induction fuel as [|fuel IH]; intros i v n w Hw; simpl;
    destruct (_callbacks (sess w) !! i) as [c|]; try done.
  apply (preserves_bind P (call cbs c v n)); [apply P_call|intros _; apply IH|done].
Qed.

Lemma preserves__notify (fuel : nat) (m : message) (n : option entity) :
  preserves P (_notify cbs fuel m n).
Proof.
  unfold _notify. apply preserves_bind.
  - apply preserves_view, stable_getitem.
  - intros v. apply preserves_notify_loop.
Qed.

Lemma preserves_drain (fuel : nat) (q : list message) : preserves P (drain cbs fuel q).
Proof.
  induction q as [|m q IH]; simpl; [by intros w|].
  apply preserves_bind; [apply preserves_view, stable__handleMessage|intros n].
  apply preserves_bind; [apply preserves__notify|intros _; apply IH].
Qed.

Lemma preserves_monitor_loop (fuel : nat) : preserves P (monitor_loop cbs fuel).
Proof.
  induction fuel as [|fuel IH]; simpl; [by intros w|].
  apply preserves_bind; [apply preserves_view, stable__recv|intros m].
  apply preserves_bind; [apply preserves_view, stable__handleMessage|intros n].
  apply preserves_bind; [apply preserves__notify|intros _; apply IH].
Qed.

(** The correlator keeps [P] when [P] survives its own three steps: setting
    the pending flag, putting the tagged request on the wire, and accepting
    the reply. *)
Hypothesis P_pending : ∀ w method r,
  P w → _command_pending (sess w) = false →
  P (store r (request method r w) (upd_sess (set_command_pending true) w)).
Hypothesis P_exchange : ∀ w method r w2,
  P w → _command_pending (sess w) = false →
  view w2 = view (sent method r w) → P w2 ∧ P (completed w2).

Lemma preserves__invoke_command (fuel : nat) (method : string) (r : option message) :
  preserves P (_invoke_command cbs fuel method r).
Proof.
  intros w Hw. destruct (_command_pending (sess w)) eqn:Hp.
  { by rewrite invoke_busy. }
  destruct (_sock (sess w)) eqn:Hs.
  2:{ rewrite invoke_no_socket by done. by apply P_pending. }
  rewrite invoke_sent by done. unfold bind at 1.
  pose proof (stable__recv (sent method r w)) as Hr.
  destruct (_recv (sent method r w)) as [m w1|e w1|w1|];
    try done; try (by apply (P_exchange w method r w1)).
  unfold bind at 1, get. unfold bind at 1.
  pose proof (stable_await_reply (incoming (net w1)) m [] w1) as Ha.
  destruct (await_reply (incoming (net w1)) m [] w1) as [qm w2|e w2|w2|];
    try done; rewrite Hr in Ha; try (by apply (P_exchange w method r w2)).
  destruct (P_exchange w method r w2 Hw Hp Ha) as [Hw2 Hc].
  unfold finish, bind at 1. destruct (qm.2 !! "seq") as [tag|]; [|done].
  destruct (value_ne_int tag (_sequence (sess w2))); [done|].
  unfold bind, modify. pose proof (preserves_drain fuel qm.1 _ Hc) as Hd.
  unfold completed in Hd.
  by destruct (drain cbs fuel qm.1 _).
Qed.

Lemma preserves_hello (fuel : nat) : preserves P (hello cbs fuel).
Proof.
  unfold hello. apply preserves_bind; [apply preserves_view, stable_get|intros w].
  apply preserves_bind.
  { destruct (_sock (sess w)); apply preserves_view;
      [apply stable_ret|apply stable_connect]. }
  intros _. apply preserves_bind; [apply preserves__invoke_command|intros m].
  apply preserves_bind; [|intros _; apply preserves_view, stable_ret].
  apply preserves_view, stable_modify. by intros w'.
Qed.

Lemma preserves__check_connection (fuel : nat) : preserves P (_check_connection cbs fuel).
Proof.
  unfold _check_connection.
  apply preserves_bind; [apply preserves_view, stable_get|intros w].
  destruct (_sock (sess w)); [apply preserves_view, stable_ret|].
  apply preserves_bind; [apply preserves_hello|intros _].
  apply preserves_view, stable_ret.
Qed.

Lemma preserves_protocol_version (fuel : nat) : preserves P (protocol_version cbs fuel).
Proof.
  unfold protocol_version.
  apply preserves_bind; [apply preserves__check_connection|intros _].
  apply preserves_bind; [apply preserves_view, stable_get|intros w].
  destruct (_hello (sess w)); apply preserves_view;
    [apply stable_getitem|apply stable_raise].
Qed.

Lemma preserves__checkProtocol (fuel : nat) (required : Z) :
  preserves P (_checkProtocol cbs fuel required).
Proof.
  unfold _checkProtocol.
  apply preserves_bind; [apply preserves_protocol_version|intros v].
  destruct (value_lt_int v required); [|apply preserves_view, stable_ret].
  apply preserves_bind; [apply preserves_protocol_version|intros v'].
  apply preserves_view, stable_raise.
Qed.

Lemma preserves_diskspace (fuel : nat) : preserves P (diskspace cbs fuel).
Proof.
  unfold diskspace.
  apply preserves_bind; [apply preserves__check_connection|intros _].
  apply preserves_bind; [apply preserves__checkProtocol|intros _].
  apply preserves_bind; [apply preserves__invoke_command|intros m].
  apply preserves_view, stable_ret.
Qed.

Lemma preserves_fetch_initial_data (fuel : nat) (events : bool) :
  preserves P (fetch_initial_data cbs fuel events).
Proof.
  unfold fetch_initial_data, _enable_async_metadata.
  apply preserves_bind; [apply preserves_view, stable_modify; by intros w|intros _].
  apply preserves_bind; [apply preserves__check_connection|intros _].
  apply preserves_bind.
  { apply preserves_bind; [apply preserves__invoke_command|intros _].
    apply preserves_view, stable_ret. }
  intros _. apply preserves_bind; [apply preserves_view, stable_get|intros w].
  apply preserves_view, stable_sync_loop.
Qed.

End Preserved.

(** ** The monitoring loop and the observer list *)

Lemma list_remove_app_last (c : cbid) (l : list cbid) :
  ∃ l', list_remove c (l ++ [c]) = Some l' ∧ length l' = length l.
Proof.
  induction l as [|y l (l' & IH & Hlen)]; simpl.
  - rewrite Nat.eqb_refl. by exists [].
  - destruct (Nat.eqb c y).
    + exists (l ++ [c]). split; [done|]. rewrite length_app. simpl. lia.
    + rewrite IH. exists (y :: l'). simpl. by rewrite Hlen.
Qed.

Section ObserverList.

Variable cbs : cbid → callback.
Hypothesis cbs_keep : keeps_observers cbs.

Lemma observers_view (l : list cbid) (w w' : World) :
  view w' = view w → observers_are l w → observers_are l w'.
Proof. unfold view, core, observers_are. intros [= _ _ -> _]. done. Qed.

Lemma observers_call (l : list cbid) (c : cbid) (v : value) (n : option entity) :
  preserves (observers_are l) (call cbs c v n).
Proof.
  intros w Hw. unfold call. pose proof (cbs_keep c v n (sess w) (net w)) as Hk.
  destruct (cbs c v n (sess w) (net w)) as [[] sn|e sn|sn|]; try done;
    unfold observers_are in *; simpl; congruence.
Qed.

Lemma sent_view_callbacks (method : string) (r : option message) (w w2 : World) :
  view w2 = view (sent method r w) → _callbacks (sess w2) = _callbacks (sess w).
Proof. unfold view, core. rewrite sent_sess. by intros [= _ _ -> _]. Qed.

Lemma observers__invoke_command (l : list cbid) (fuel : nat) (method : string)
    (r : option message) :
  preserves (observers_are l) (_invoke_command cbs fuel method r).
Proof.
  apply preserves__invoke_command.
  - apply observers_view.
  - apply observers_call.
  - intros w m' r' Hw _. by destruct r'.
  - intros w m' r' w2 Hw _ Hv. apply sent_view_callbacks in Hv.
    unfold observers_are in *. simpl. by rewrite Hv.
Qed.

Lemma observers_fetch_initial_data (l : list cbid) (fuel : nat) (events : bool) :
  preserves (observers_are l) (fetch_initial_data cbs fuel events).
Proof.
  apply preserves_fetch_initial_data.
  - apply observers_view.
  - apply observers_call.
  - intros w m' r' Hw _. by destruct r'.
  - intros w m' r' w2 Hw _ Hv. apply sent_view_callbacks in Hv.
    unfold observers_are in *. simpl. by rewrite Hv.
Qed.

Lemma observers_monitor_loop (l : list cbid) (fuel : nat) :
  preserves (observers_are l) (monitor_loop cbs fuel).
Proof.
  apply preserves_monitor_loop; [apply observers_view|apply observers_call].
Qed.

(** [monitor] enters its loop with the observer appended. *)
Lemma monitor_enter_appends (fuel : nat) (c : cbid) (w w0 : World) :
  monitor_enter cbs fuel c w = Return tt w0 →
  _callbacks (sess w0) = _callbacks (sess w) ++ [c].
Proof.
  unfold monitor_enter, bind at 1, get. unfold bind at 1.
  destruct (_initial_data (sess w)).
  - unfold ret, modify. by intros [= <-].
  - pose proof (observers_fetch_initial_data _ fuel false w eq_refl) as Hf.
    destruct (fetch_initial_data cbs fuel false w) as [[] w1| | |]; try discriminate.
    unfold modify. intros [= <-]. simpl. by rewrite Hf.
Qed.


End ObserverList.

Lemma quiet_observers_keep : keeps_observers quiet_observers.
Proof. by intros c v n s nt. Qed.



(** ** Sequence numbers *)

Lemma tags_upto_S (k : nat) :
  tags_upto (S k) = tags_upto k ++ [Some (VInt (Z.of_nat k))].
Proof. unfold tags_upto. by rewrite seq_S, map_app. Qed.

Lemma send_args_seq (method : string) (args : message) (s : Session) :
  send_args method args s !! "seq" = args !! "seq".
Proof.
  unfold send_args.
  destruct (truthy_str (_digest s)), (truthy_str (_user s));
    by rewrite ?lookup_insert_ne.
Qed.

Lemma request_seq (method : string) (r : option message) (w : World) :
  request method r w !! "seq" = Some (VInt (_sequence (sess w))).
Proof. unfold request. by rewrite send_args_seq, lookup_insert_eq. Qed.

Lemma final_preserves {A} (P : World → Prop) (m : M World A) (w w' : World) :
  preserves P m → P w → final (m w) = Some w' → P w'.
Proof.
  intros Hm Hw. specialize (Hm w Hw). destruct (m w); simpl; congruence.
Qed.

Section Sequencing.

Variable cbs : cbid → callback.
Hypothesis cbs_keep : keeps_correlator cbs.

Lemma sequenced_view (w w' : World) : view w' = view w → sequenced w → sequenced w'.
Proof.
  unfold view, core. intros [= Hs Hp _ Ht] (k & Hk & Hc).
  exists k. by rewrite Hs, Hp, Ht.
Qed.

Lemma call_keeps_correlator (c : cbid) (v : value) (n : option entity) (w : World) :
  match call cbs c v n w with
  | Return _ w' | Raise _ w' | Blocked w' =>
      _sequence (sess w') = _sequence (sess w) ∧
      _command_pending (sess w') = _command_pending (sess w) ∧
      sent_tags (trace w') = sent_tags (trace w)
  | OutOfFuel => True
  end.
Proof.
  unfold call. pose proof (cbs_keep c v n (sess w) (net w)) as Hk.
  destruct (cbs c v n (sess w) (net w)) as [[] sn|e sn|sn|]; try done;
    destruct Hk as [Hs Hp]; simpl; by rewrite sent_tags_app, app_nil_r.
Qed.

Lemma sequenced_call (c : cbid) (v : value) (n : option entity) :
  preserves sequenced (call cbs c v n).
Proof.
  intros w (k & Hk & Hc). pose proof (call_keeps_correlator c v n w) as H.
  destruct (call cbs c v n w) as [[] w'|e w'|w'|]; try done;
    destruct H as (Hs & Hp & Ht); exists k; by rewrite Hs, Hp, Ht.
Qed.

Lemma sequenced_pending (w : World) (method : string) (r : option message) :
  sequenced w → _command_pending (sess w) = false →
  sequenced (store r (request method r w) (upd_sess (set_command_pending true) w)).
Proof.
  intros (k & Hk & Hc) Hp. exists k.
  destruct Hc as [Hc|[Hc _]]; [|congruence]. destruct r; (split; [done|by left]).
Qed.

Lemma sequenced_exchange (w : World) (method : string) (r : option message) (w2 : World) :
  sequenced w → _command_pending (sess w) = false →
  view w2 = view (sent method r w) → sequenced w2 ∧ sequenced (completed w2).
Proof.
  intros (k & Hk & Hc) Hp. unfold view, core.
  rewrite sent_sess, sent_trace, sent_tags_app. simpl.
  rewrite request_seq. intros [= Hs Hp2 _ Ht].
  destruct Hc as [Hc|[Hc _]]; [|congruence].
  rewrite Hk, Hc, <- tags_upto_S in Ht.
  split; exists (S k); (split; [done|]).
  - right. split; [done|]. lia.
  - left. simpl. lia.
Qed.

Lemma sequenced__invoke_command (fuel : nat) (method : string) (r : option message) :
  preserves sequenced (_invoke_command cbs fuel method r).
Proof.
  apply preserves__invoke_command;
    [apply sequenced_view|apply sequenced_call|
     intros; by apply sequenced_pending|intros; by eapply sequenced_exchange].
Qed.

Lemma sequenced_monitor (fuel : nat) (c : cbid) : preserves sequenced (monitor cbs fuel c).
Proof.
  assert (preserves sequenced (monitor_enter cbs fuel c)) as Henter.
  { unfold monitor_enter.
    apply preserves_bind; [apply (preserves_view sequenced sequenced_view), stable_get|].
    intros w0. apply preserves_bind.
    - destruct (_initial_data (sess w0)).
      + apply (preserves_view sequenced sequenced_view), stable_ret.
      + apply preserves_fetch_initial_data;
          [apply sequenced_view|apply sequenced_call|
           intros; by apply sequenced_pending|intros; by eapply sequenced_exchange].
    - intros _ w1 (k & Hk & Hc). by exists k. }
  unfold monitor. apply preserves_bind; [done|]. intros _ w Hw.
  pose proof (preserves_monitor_loop cbs sequenced sequenced_view sequenced_call fuel w Hw)
    as Hl.
  destruct (monitor_loop cbs fuel w) as [[] w1|e w1|w1|]; try done.
  unfold monitor_except.
  assert (sequenced (log (EvPrint e) w1)) as Hp.
  { apply (sequenced_view w1); [|done]. by apply view_log. }
  destruct e; try done.
  unfold callbacks_remove. destruct (list_remove c (_callbacks (sess w1))); [|done].
  destruct Hl as (k & Hk & Hc). by exists k.
Qed.

Lemma reachable_sequenced (w : World) : reachable cbs w → sequenced w.
Proof.
  induction 1 as [name nt|w w' fuel o Hr IH Hstep].
  - exists 0%nat. by split; [|left].
  - destruct o as [method r| | |events|c]; simpl in Hstep;
      (eapply final_preserves; [|exact IH|exact Hstep]).
    + apply sequenced__invoke_command.
    + apply preserves_hello;
        [apply sequenced_view|apply sequenced_call|
         intros; by apply sequenced_pending|intros; by eapply sequenced_exchange].
    + apply preserves_diskspace;
        [apply sequenced_view|apply sequenced_call|
         intros; by apply sequenced_pending|intros; by eapply sequenced_exchange].
    + apply preserves_fetch_initial_data;
        [apply sequenced_view|apply sequenced_call|
         intros; by apply sequenced_pending|intros; by eapply sequenced_exchange].
    + apply sequenced_monitor.
Qed.

Lemma correlator_at_drain (n : Z) (b : bool) (fuel : nat) (q : list message) :
  preserves (correlator_at n b) (drain cbs fuel q).
Proof.
  apply preserves_drain.
  - unfold view, core, correlator_at. intros w w' [= Hs Hp _ _]. by rewrite Hs, Hp.
  - intros c v k w [Hs Hp]. pose proof (call_keeps_correlator c v k w) as H.
    destruct (call cbs c v k w) as [[] w'|e w'|w'|]; try done;
      destruct H as (Hs' & Hp' & _); split; congruence.
Qed.


End Sequencing.

Lemma quiet_observers_keep_correlator : keeps_correlator quiet_observers.
Proof. by intros c v n s nt. Qed.

Lemma run_added_reachable : reachable quiet_observers run_added.
Proof.
  apply (reach_step quiet_observers run_hello run_added 1
           (OpInvoke "addDvrEntry" (Some add_args))).
  - apply (reach_step quiet_observers run_start run_hello 1 OpHello).
    + apply reach_start.
    + vm_compute; reflexivity.
  - vm_compute; reflexivity.
Qed.


(** * Further properties *)

(** ** The merge and the cache handlers *)

(** X1: the merge loop of [_update_reponse] is a left-biased union: the
    truthy fields of the payload laid over the old record.  It therefore
    never removes a field, and the record keeps its class. *)
Theorem update_merge_is_union (old new : entity) :
  _message (_update_reponse old new)
    = filter (λ kv, truthy kv.2 = true) (_message new) ∪ _message old ∧
  dom (_message old) ⊆ dom (_message (_update_reponse old new)) ∧
  ecls (_update_reponse old new) = ecls old.
Proof.
  assert (_message (_update_reponse old new)
          = filter (λ kv, truthy kv.2 = true) (_message new) ∪ _message old) as Heq.
  { apply map_eq. intros f. rewrite _update_reponse_lookup, lookup_union.
    rewrite map_lookup_filter. destruct (_message new !! f) as [v|]; simpl.
    - destruct (truthy v) eqn:Hv; simpl.
      + by destruct (_message old !! f).
      + by destruct (_message old !! f).
    - by destruct (_message old !! f). }
  split; [done|]. split; [|done].
  rewrite Heq, dom_union. set_solver.
Qed.

(** The merged record, merged again with the same payload, is itself. *)
Lemma _update_reponse_idempotent (old new : entity) :
  _update_reponse (_update_reponse old new) new = _update_reponse old new.
Proof.
  assert (_message (_update_reponse (_update_reponse old new) new)
          = _message (_update_reponse old new)) as Hm.
  { apply map_eq. intros f. rewrite !_update_reponse_lookup.
    destruct (_message new !! f) as [v|]; [|done]. by destruct (truthy v). }
  destruct (_update_reponse (_update_reponse old new) new) as [c1 m1] eqn:E1.
  destruct (_update_reponse old new) as [c2 m2] eqn:E2.
  simpl in Hm. subst m1. f_equal.
  assert (c1 = ecls (_update_reponse (Entity c2 m2) new)) as -> by (by rewrite E1).
  done.
Qed.

Lemma handle_update_present (kd : kind) (m : message) (s : Session) (i : value) (k : key)
    (old : entity) :
  m !! id_field (kind_cls kd) = Some i → hash_key i = Some k →
  kind_cache kd s !! k = Some old →
  kind_update kd m s =
    Return (Some (_update_reponse old (new_response (kind_cls kd) m)))
      (kind_set_cache kd
         (<[k := _update_reponse old (new_response (kind_cls kd) m)]> (kind_cache kd s)) s).
Proof.
  intros Hi Hk Hold. rewrite kind_update_unfold.
  unfold handle_update, entity_id, bind, getitem, hashed.
  rewrite new_response_message, new_response_cls, Hi. unfold ret at 1.
  rewrite Hk. unfold ret at 1, get. by rewrite Hold.
Qed.

Lemma kind_set_cache_twice (kd : kind) (c c' : gmap key entity) (s : Session) :
  kind_set_cache kd c (kind_set_cache kd c' s) = kind_set_cache kd c s.
Proof. by destruct kd. Qed.

(** X2: an update notification delivered twice does what it does once: the
    second application returns the same record and leaves the session as
    the first one left it. *)
Theorem duplicate_update_is_idempotent
    (kd : kind) (m : message) (s s' : Session) (r : option entity) :
  kind_update kd m s = Return r s' →
  kind_update kd m s' = Return r s'.
Proof.
  intros H. apply handle_update_Return in H as (i & k & old & Hi & Hk & Hold & -> & ->).
  set (new := new_response (kind_cls kd) m).
  rewrite (handle_update_present kd m _ i k (_update_reponse old new) Hi Hk);
    [|by rewrite kind_cache_set, lookup_insert_eq].
  fold new. rewrite _update_reponse_idempotent, kind_cache_set, kind_set_cache_twice.
  by rewrite insert_insert_eq.
Qed.

Lemma duplicate_update_is_idempotent_witness :
  _handle_dvrEntryUpdate film_update film_recording
    = Return (Some (Entity HTSPDVREntry (<["state" := VStr "recording"]> film_add)))
        film_recording.
Proof.
  apply (duplicate_update_is_idempotent DvrEntry film_update film_scheduled film_recording).
  vm_compute; reflexivity.
Defined.

Lemma set_dvr_entries_same (s : Session) : set_dvr_entries (_dvr_entries s) s = s.
Proof. by destruct s. Qed.

(** X3: the life of a recording.  [dvrEntryAdd] stores the message as the
    record, whatever was cached under the identifier before; a
    [dvrEntryDelete] for the same identifier returns that record and removes
    exactly it; afterwards an update for the identifier raises [KeyError].
    If the identifier was not cached before the add, the session is back
    where it started. *)
Theorem add_then_delete_removes_record
    (a d : message) (s : Session) (i : value) (k : key) :
  a !! "id" = Some i → d !! "id" = Some i → hash_key i = Some k →
  ∃ s1 s2,
    _handle_dvrEntryAdd a s = Return (Some (Entity HTSPDVREntry a)) s1 ∧
    _dvr_entries s1 !! k = Some (Entity HTSPDVREntry a) ∧
    _handle_dvrEntryDelete d s1 = Return (Some (Entity HTSPDVREntry a)) s2 ∧
    _dvr_entries s2 = delete k (_dvr_entries s) ∧
    (∀ u, u !! "id" = Some i → _handle_dvrEntryUpdate u s2 = Raise KeyError s2) ∧
    (_dvr_entries s !! k = None → s2 = s).
Proof.
  intros Ha Hd Hk.
  set (e := Entity HTSPDVREntry a).
  exists (set_dvr_entries (<[k := e]> (_dvr_entries s)) s),
         (set_dvr_entries (delete k (_dvr_entries s)) s).
  assert (new_response HTSPDVREntry a = e) as He.
  { unfold e. rewrite <- (new_response_message HTSPDVREntry a) at 2. done. }
  split; [|split; [|split; [|split; [|split]]]].
  - unfold _handle_dvrEntryAdd, handle_add, entity_id, bind, getitem, hashed.
    rewrite new_response_message, new_response_cls. cbn [id_field].
    rewrite Ha. unfold ret at 1. rewrite Hk. unfold ret at 1, get, modify, ret.
    by rewrite He.
  - simpl. apply lookup_insert_eq.
  - unfold _handle_dvrEntryDelete, entity_id, bind, getitem, hashed.
    rewrite new_response_message, new_response_cls. cbn [id_field].
    rewrite Hd. unfold ret at 1. rewrite Hk. unfold ret at 1, get. simpl.
    rewrite lookup_insert_eq. unfold modify, ret. simpl.
    by rewrite delete_insert_eq.
  - done.
  - intros u Hu. apply (handle_update_absent DvrEntry u _ i k Hu Hk).
    simpl. apply lookup_delete_eq.
  - intros Hnone. rewrite delete_id by done. apply set_dvr_entries_same.
Qed.

Lemma add_then_delete_removes_record_witness :
  ∃ s1 s2,
    _handle_dvrEntryAdd film_add (init "python-htsp")
      = Return (Some (Entity HTSPDVREntry film_add)) s1 ∧
    _dvr_entries s1 !! inl 7 = Some (Entity HTSPDVREntry film_add) ∧
    _handle_dvrEntryDelete film_delete s1 = Return (Some (Entity HTSPDVREntry film_add)) s2 ∧
    _dvr_entries s2 = delete (inl 7) (_dvr_entries (init "python-htsp")) ∧
    (∀ u, u !! "id" = Some (VInt 7) → _handle_dvrEntryUpdate u s2 = Raise KeyError s2) ∧
    (_dvr_entries (init "python-htsp") !! inl 7 = None → s2 = init "python-htsp").
Proof.
  apply (add_then_delete_removes_record film_add film_delete (init "python-htsp")
           (VInt 7) (inl 7)); vm_compute; reflexivity.
Defined.

(** ** Cache keys *)

Lemma keyed_insert (c : cls) (cache : gmap key entity) (k : key) (e : entity) (i : value) :
  keyed c cache → ecls e = c → _message e !! id_field c = Some i → hash_key i = Some k →
  keyed c (<[k := e]> cache).
Proof.
  intros Hc He Hi Hk k' e'. destruct (decide (k = k')) as [<-|Hne].
  - rewrite lookup_insert_eq. intros [= <-]. split; [done|]. by exists i.
  - rewrite lookup_insert_ne by done. apply Hc.
Qed.

Lemma keyed_delete (c : cls) (cache : gmap key entity) (k : key) :
  keyed c cache → keyed c (delete k cache).
Proof.
  intros Hc k' e'. destruct (decide (k = k')) as [<-|Hne].
  - by rewrite lookup_delete_eq.
  - rewrite lookup_delete_ne by done. apply Hc.
Qed.

Lemma keyed_empty (c : cls) : keyed c ∅.
Proof. intros k e. by rewrite lookup_empty. Qed.

Lemma init_consistent (name : string) : consistent (init name).
Proof.
  unfold consistent; simpl. repeat apply conj; try apply keyed_empty. done.
Qed.

Lemma consistent_kind (kd : kind) (s : Session) :
  consistent s → keyed (kind_cls kd) (kind_cache kd s).
Proof. intros (? & ? & ? & ? & ?). by destruct kd. Qed.

Lemma consistent_set_kind (kd : kind) (c : gmap key entity) (s : Session) :
  consistent s → keyed (kind_cls kd) c → consistent (kind_set_cache kd c s).
Proof. intros (? & ? & ? & ? & ?) Hc. by destruct kd. Qed.

Lemma consistent_set_events (evs : gmap key entity) (s : Session) :
  consistent s → keyed HTSPEvent evs → consistent (set_events (Some evs) s).
Proof. by intros (? & ? & ? & ? & ?) Hc. Qed.

Lemma kind_add_unfold (kd : kind) :
  kind_add kd = handle_add (kind_cls kd) (kind_cache kd) (kind_set_cache kd).
Proof. by destruct kd. Qed.

Lemma consistent_kind_add (kd : kind) (m : message) : preserves consistent (kind_add kd m).
Proof.
  intros s Hs. rewrite kind_add_unfold.
  unfold handle_add, entity_id, bind, getitem, hashed.
  rewrite new_response_cls. pose proof (new_response_message (kind_cls kd) m) as Hm.
  rewrite Hm. destruct (m !! id_field (kind_cls kd)) as [i|] eqn:Hi; [|done].
  unfold ret at 1. destruct (hash_key i) as [k|] eqn:Hk; [|done].
  unfold ret at 1, get, modify, ret.
  apply consistent_set_kind; [done|].
  apply (keyed_insert _ _ _ _ i); try done; [by apply consistent_kind|by rewrite Hm].
Qed.

Lemma consistent_kind_update (kd : kind) (m : message) :
  preserves consistent (kind_update kd m).
Proof.
  intros s Hs. rewrite kind_update_unfold.
  unfold handle_update, entity_id, bind, getitem, hashed.
  rewrite new_response_cls, new_response_message.
  destruct (m !! id_field (kind_cls kd)) as [i|] eqn:Hi; [|done].
  unfold ret at 1. destruct (hash_key i) as [k|] eqn:Hk; [|done].
  unfold ret at 1, get.
  destruct (kind_cache kd s !! k) as [old|] eqn:Hold; [|done].
  unfold modify, ret. apply consistent_set_kind; [done|].
  destruct (consistent_kind kd s Hs k old Hold) as (Hcls & i' & Hi' & Hk').
  destruct (truthy i) eqn:Hti.
  - apply (keyed_insert _ _ _ _ i); try done; [by apply consistent_kind|].
    by rewrite _update_reponse_lookup, new_response_message, Hi, Hti.
  - apply (keyed_insert _ _ _ _ i'); try done; [by apply consistent_kind|].
    by rewrite _update_reponse_lookup, new_response_message, Hi, Hti.
Qed.

Lemma consistent_handler (name : string) (fn : message → M Session (option entity))
    (m : message) :
  handler_of name = Some fn → preserves consistent (fn m).
Proof.
  unfold handler_of.
  repeat (destruct (String.eqb name _);
          [intros [= <-];
           first [ apply (consistent_kind_add Tag) | apply (consistent_kind_update Tag)
                 | apply (consistent_kind_add Channel)
                 | apply (consistent_kind_update Channel)
                 | apply (consistent_kind_add DvrEntry)
                 | apply (consistent_kind_update DvrEntry)
                 | apply (consistent_kind_add AutoRecord)
                 | apply (consistent_kind_update AutoRecord) | idtac ] |]);
    try discriminate.
  - by intros s (? & ? & ? & ? & ?).
  - intros s Hs. unfold _handle_eventAdd, bind, get.
    destruct (_events s) as [evs|] eqn:He; [|done].
    unfold entity_id, bind, getitem, hashed. rewrite new_response_cls.
    pose proof (new_response_message HTSPEvent m) as Hm. rewrite Hm. cbn [id_field].
    destruct (m !! "eventId") as [i|] eqn:Hi; [|done].
    unfold ret at 1. destruct (hash_key i) as [k|] eqn:Hk; [|done].
    unfold modify, ret. apply consistent_set_events; [done|].
    apply (keyed_insert _ _ _ _ i); try done; [|by rewrite Hm].
    destruct Hs as (_ & _ & _ & _ & Hev). by rewrite He in Hev.
  - intros s Hs. unfold _handle_eventDelete, bind, get.
    destruct (_events s) as [evs|] eqn:He; [|done].
    unfold entity_id, bind, getitem, hashed.
    rewrite new_response_cls, new_response_message. cbn [id_field].
    destruct (m !! "eventId") as [i|] eqn:Hi; [|done].
    unfold ret at 1. destruct (hash_key i) as [k|] eqn:Hk; [|done].
    unfold ret at 1. destruct (evs !! k); [|exact Hs].
    unfold modify, ret. apply consistent_set_events; [done|].
    apply keyed_delete. destruct Hs as (_ & _ & _ & _ & Hev). by rewrite He in Hev.
  - intros s Hs. unfold _handle_dvrEntryDelete, entity_id, bind, getitem, hashed.
    rewrite new_response_cls, new_response_message. cbn [id_field].
    destruct (m !! "id") as [i|] eqn:Hi; [|done].
    unfold ret at 1. destruct (hash_key i) as [k|] eqn:Hk; [|done].
    unfold ret at 1, get. destruct (_dvr_entries s !! k); [|exact Hs].
    unfold modify, ret. apply (consistent_set_kind DvrEntry); [done|].
    apply keyed_delete. apply (consistent_kind DvrEntry s Hs).
Qed.

(** X4: the caches stay keyed by identifier.  A fresh session is
    consistent, and whatever message [_handleMessage] is given and however
    it ends, every cached record still sits under the key its own identifier
    field hashes to and has the class of its cache: an update cannot move a
    record or change its identifier. *)
Theorem caches_stay_keyed_by_id (m : message) (w : World) :
  consistent (sess w) →
  (∀ name, consistent (init name)) ∧
  match _handleMessage m w with
  | Return _ w' | Raise _ w' | Blocked w' => consistent (sess w')
  | OutOfFuel => True
  end.
Proof.
  intros Hw. split.
  { apply init_consistent. }
  unfold _handleMessage, bind, modify.
  destruct (m !! "method") as [[z|name|l|d]|]; try done.
  destruct (handler_of name) as [fn|] eqn:Hfn; [|done].
  unfold liftS. cbn [sess log].
  pose proof (consistent_handler name fn m Hfn (sess w) Hw) as H.
  by destruct (fn m (sess w)).
Qed.

Lemma caches_stay_keyed_by_id_witness :
  (∀ name, consistent (init name)) ∧
  match _handleMessage rule_update
          (state_of (_handleMessage rule_add fresh_world) fresh_world) with
  | Return _ w' | Raise _ w' | Blocked w' => consistent (sess w')
  | OutOfFuel => True
  end.
Proof.
  apply (caches_stay_keyed_by_id rule_update
           (state_of (_handleMessage rule_add fresh_world) fresh_world)).
  pose proof (caches_stay_keyed_by_id rule_add fresh_world) as H.
  destruct (H (init_consistent "python-htsp")) as [_ H1]. by destruct (_handleMessage rule_add fresh_world).
Defined.

(** ** Exchanges that fail *)

Lemma received_nil_set (rest : list inbound) (w : World) :
  received [] rest w = set_incoming rest w.
Proof. unfold received, set_incoming, set_net; simpl. by rewrite app_nil_r. Qed.

Section FailedExchange.

Variable cbs : cbid → callback.

(** The waiting loop on a stream whose next tagged frame never comes: the
    socket raises first. *)
Lemma await_reply_raise (e : exn) (rest : list inbound) (q : list message) :
  ∀ (m : message) (queue : list message) (ins : list inbound) (w : World),
    no_seq m → Forall no_seq q → _sock (sess w) = true →
    incoming (net w) = map InMsg q ++ InRaise e :: rest →
    (length q < length ins)%nat →
    await_reply ins m queue w = Raise e (received q rest w).
Proof.
  induction q as [|m' q IH]; intros m queue ins w Hm Hq Hs Hin Hlen;
    (destruct ins as [|x ins]; [simpl in Hlen; lia|]);
    cbn [await_reply]; rewrite Hm; unfold bind.
  - unfold _recv. rewrite Hs, Hin. simpl. by rewrite received_nil_set.
  - apply Forall_cons in Hq as [Hm' Hq]. simpl in Hin.
    rewrite (_recv_msg w m' _ Hs Hin).
    rewrite (IH m' (queue ++ [m]) ins (received [m'] (map InMsg q ++ InRaise e :: rest) w));
      try done; [|simpl in Hlen; lia].
    by rewrite received_received.
Qed.

Lemma invoke_recv_raise (fuel : nat) (method : string) (r : option message) (w : World)
    (q : list message) (e : exn) (rest : list inbound) :
  _command_pending (sess w) = false → _sock (sess w) = true →
  incoming (net w) = map InMsg q ++ InRaise e :: rest →
  Forall no_seq q →
  _invoke_command cbs fuel method r w = Raise e (received q rest (sent method r w)).
Proof.
  intros Hp Hs Hin Hq. rewrite invoke_sent by done.
  assert (_sock (sess (sent method r w)) = true) as Hs' by (by rewrite sent_sess).
  assert (incoming (net (sent method r w)) = map InMsg q ++ InRaise e :: rest) as Hin'
    by (by rewrite sent_net).
  unfold bind at 1. destruct q as [|m q].
  - unfold _recv. rewrite Hs', Hin'. simpl. by rewrite received_nil_set.
  - apply Forall_cons in Hq as [Hm Hq]. simpl in Hin'.
    rewrite (_recv_msg _ m _ Hs' Hin'). unfold bind at 1, get. unfold bind at 1.
    rewrite (await_reply_raise e rest q m [] _ _ Hm Hq); try done.
    + by rewrite received_received.
    + simpl. rewrite length_app, length_map. simpl. lia.
Qed.

(** X5: an exception out of the socket while a command waits for its reply
    (a transport failure, or the interrupt) leaves the session unusable.
    The exception reaches the caller with the pending flag still set; the
    frames held so far were taken off the socket but never applied (the
    session is as before apart from the flag), and every later command
    raises "already pending" without touching the socket. *)
Theorem recv_exception_poisons_session
    (fuel : nat) (method : string) (r : option message) (w : World)
    (q : list message) (e : exn) (rest : list inbound) :
  _command_pending (sess w) = false → _sock (sess w) = true →
  incoming (net w) = map InMsg q ++ InRaise e :: rest →
  Forall no_seq q →
  ∃ w', _invoke_command cbs fuel method r w = Raise e w' ∧
        sess w' = set_command_pending true (sess w) ∧
        incoming (net w') = rest ∧
        trace w' = trace w ++ EvSend (request method r w) :: map EvRecv q ∧
        ∀ fuel' method' r',
          _invoke_command cbs fuel' method' r' w'
            = Raise (Exception ("A command is already pending: " +:+ method')) w'.
Proof.
  intros Hp Hs Hin Hq. exists (received q rest (sent method r w)).
  split; [by apply invoke_recv_raise|].
  assert (sess (received q rest (sent method r w)) = set_command_pending true (sess w))
    as Hsess by (unfold received; cbn [sess]; apply sent_sess).
  split; [done|]. split; [done|]. split.
  - unfold received; cbn [trace]. by rewrite sent_trace, <- app_assoc.
  - intros fuel' method' r'. apply invoke_busy. by rewrite Hsess.
Qed.

(** X6: when the reply carries the wrong tag, the frames held before it are
    lost: they were taken off the socket, but no handler ran and no
    observer was called; apart from the pending flag the session is as it
    was before the call. *)
Theorem out_of_sequence_discards_held_frames
    (fuel : nat) (method : string) (r : option message) (w : World)
    (q : list message) (reply : message) (rest : list inbound) (tag : value) :
  _command_pending (sess w) = false → _sock (sess w) = true →
  incoming (net w) = map InMsg (q ++ [reply]) ++ rest →
  Forall no_seq q → reply !! "seq" = Some tag →
  value_ne_int tag (_sequence (sess w)) = true →
  ∃ w', _invoke_command cbs fuel method r w
          = Raise (Exception "Message out of sequence") w' ∧
        sess w' = set_command_pending true (sess w) ∧
        incoming (net w') = rest ∧
        trace w' = trace w ++ EvSend (request method r w) :: map EvRecv (q ++ [reply]).
Proof.
  intros Hp Hs Hin Hq Ht Hne.
  exists (received (q ++ [reply]) rest (sent method r w)).
  assert (sess (received (q ++ [reply]) rest (sent method r w))
          = set_command_pending true (sess w))
    as Hsess by (unfold received; cbn [sess]; apply sent_sess).
  split; [|split; [done|split; [done|]]].
  - rewrite (invoke_reply cbs fuel method r w q reply rest) by eauto.
    apply (finish_mismatch cbs fuel q reply tag); [done|]. by rewrite Hsess.
  - unfold received; cbn [trace]. by rewrite sent_trace, <- app_assoc.
Qed.

(** X7: a command issued before the first connection breaks the session
    for good.  Nothing is sent and [AttributeError] is raised, but the
    pending flag has been set; a later [hello] opens the socket and then
    fails with "already pending", so the handshake can never complete. *)
Theorem command_before_connect_blocks_hello
    (fuel : nat) (method : string) (r : option message) (w : World) :
  _command_pending (sess w) = false → _sock (sess w) = false →
  refuse (net w) = false →
  ∃ w1, _invoke_command cbs fuel method r w = Raise AttributeError w1 ∧
        trace w1 = trace w ∧ incoming (net w1) = incoming (net w) ∧
        _command_pending (sess w1) = true ∧
        ∀ fuel',
          hello cbs fuel' w1
            = Raise (Exception "A command is already pending: hello")
                (upd_sess (set_sock true) w1).
Proof.
  intros Hp Hs Hr.
  exists (store r (request method r w) (upd_sess (set_command_pending true) w)).
  split; [by apply invoke_no_socket|].
  split; [by destruct r|]. split; [by destruct r|]. split; [by destruct r|].
  intros fuel'. unfold hello, bind at 1, get. unfold bind at 1.
  assert (_sock (sess (store r (request method r w)
                         (upd_sess (set_command_pending true) w))) = false) as ->
    by (by destruct r).
  unfold connect.
  assert (refuse (net (store r (request method r w)
                         (upd_sess (set_command_pending true) w))) = false) as ->
    by (by destruct r).
  unfold bind at 1. rewrite invoke_busy; [done|]. by destruct r.
Qed.

Lemma drain_app (fuel : nat) (q1 q2 : list message) (w : World) :
  drain cbs fuel (q1 ++ q2) w = (drain cbs fuel q1 ;;; drain cbs fuel q2) w.
Proof.
  revert w. induction q1 as [|m q1 IH]; intros w; [done|]. simpl. unfold bind.
  destruct (_handleMessage m w) as [n w1| | |]; try done.
  destruct (_notify cbs fuel m n w1) as [[] w2| | |]; try done.
Qed.

(** X8: a held frame that has no [method] field costs the caller the
    reply.  The exchange itself completes (counter advanced, pending flag
    cleared), the frames queued ahead of it are dispatched, then [_notify]
    raises [KeyError] on it: the reply is never returned and the frames
    queued behind it are never handled. *)
Theorem held_frame_without_method_loses_reply
    (fuel : nat) (method : string) (r : option message) (w w2 : World)
    (q1 q2 : list message) (m reply : message) (rest : list inbound) :
  _command_pending (sess w) = false → _sock (sess w) = true →
  incoming (net w) = map InMsg ((q1 ++ m :: q2) ++ [reply]) ++ rest →
  Forall no_seq (q1 ++ m :: q2) →
  reply !! "seq" = Some (VInt (_sequence (sess w))) →
  m !! "method" = None →
  drain cbs fuel q1
    (completed (received ((q1 ++ m :: q2) ++ [reply]) rest (sent method r w)))
    = Return tt w2 →
  _invoke_command cbs fuel method r w = Raise KeyError (log (EvHandle m) w2) ∧
  _sequence (sess (completed (received ((q1 ++ m :: q2) ++ [reply]) rest
                                 (sent method r w)))) = _sequence (sess w) + 1 ∧
  _command_pending (sess (completed (received ((q1 ++ m :: q2) ++ [reply]) rest
                                        (sent method r w)))) = false.
Proof.
  intros Hp Hs Hin Hq Ht Hm Hd. split; [|split].
  - rewrite (invoke_matching_reply cbs fuel method r w (q1 ++ m :: q2) reply rest)
      by done.
    unfold bind at 1. rewrite drain_app. unfold bind at 1. rewrite Hd.
    cbn [drain]. unfold bind at 1.
    unfold _handleMessage, bind at 1, modify at 1. rewrite Hm. unfold ret at 1.
    unfold bind, _notify, bind, getitem. by rewrite Hm.
  - unfold completed, received; cbn [sess upd_sess set_sess]. by rewrite sent_sess.
  - done.
Qed.

End FailedExchange.

Lemma recv_exception_poisons_session_witness :
  ∃ w', _invoke_command quiet_observers 1 "addDvrEntry" (Some add_args) interrupted_world
          = Raise KeyboardInterrupt w' ∧
        sess w' = set_command_pending true (sess interrupted_world) ∧
        incoming (net w') = [InMsg (add_reply 1)] ∧
        trace w' = trace interrupted_world
                     ++ EvSend (request "addDvrEntry" (Some add_args) interrupted_world)
                     :: map EvRecv [push_dvr] ∧
        ∀ fuel' method' r',
          _invoke_command quiet_observers fuel' method' r' w'
            = Raise (Exception ("A command is already pending: " +:+ method')) w'.
Proof.
  apply (recv_exception_poisons_session quiet_observers 1 "addDvrEntry" (Some add_args)
           interrupted_world [push_dvr] KeyboardInterrupt [InMsg (add_reply 1)]);
    try (vm_compute; reflexivity).
  repeat constructor; vm_compute; reflexivity.
Defined.

Lemma out_of_sequence_discards_held_frames_witness :
  ∃ w', _invoke_command quiet_observers 1 "addDvrEntry" (Some add_args) crossed_world
          = Raise (Exception "Message out of sequence") w' ∧
        sess w' = set_command_pending true (sess crossed_world) ∧
        incoming (net w') = [] ∧
        trace w' = trace crossed_world
                     ++ EvSend (request "addDvrEntry" (Some add_args) crossed_world)
                     :: map EvRecv ([push_dvr] ++ [add_reply 9]).
Proof.
  apply (out_of_sequence_discards_held_frames quiet_observers 1 "addDvrEntry"
           (Some add_args) crossed_world [push_dvr] (add_reply 9) [] (VInt 9));
    try (vm_compute; reflexivity).
  repeat constructor; vm_compute; reflexivity.
Defined.

Lemma command_before_connect_blocks_hello_witness :
  ∃ w1, _invoke_command quiet_observers 1 "addDvrEntry" (Some add_args) fresh_world
          = Raise AttributeError w1 ∧
        trace w1 = trace fresh_world ∧ incoming (net w1) = incoming (net fresh_world) ∧
        _command_pending (sess w1) = true ∧
        ∀ fuel',
          hello quiet_observers fuel' w1
            = Raise (Exception "A command is already pending: hello")
                (upd_sess (set_sock true) w1).
Proof.
  apply (command_before_connect_blocks_hello quiet_observers 1 "addDvrEntry"
           (Some add_args) fresh_world); reflexivity.
Defined.

Lemma held_frame_without_method_loses_reply_witness :
  _invoke_command quiet_observers 1 "addDvrEntry" (Some add_args) muddled_world
    = Raise KeyError
        (log (EvHandle anonymous_frame)
           (state_of
              (drain quiet_observers 1 [push_dvr]
                 (completed (received (([push_dvr] ++ anonymous_frame :: [push_tag])
                                         ++ [add_reply 1]) []
                               (sent "addDvrEntry" (Some add_args) muddled_world))))
              muddled_world)) ∧
  _sequence (sess (completed (received (([push_dvr] ++ anonymous_frame :: [push_tag])
                                          ++ [add_reply 1]) []
                                (sent "addDvrEntry" (Some add_args) muddled_world))))
    = _sequence (sess muddled_world) + 1 ∧
  _command_pending (sess (completed (received (([push_dvr] ++ anonymous_frame :: [push_tag])
                                                 ++ [add_reply 1]) []
                                       (sent "addDvrEntry" (Some add_args) muddled_world))))
    = false.
Proof.
  apply (held_frame_without_method_loses_reply quiet_observers 1 "addDvrEntry"
           (Some add_args) muddled_world _ [push_dvr] [push_tag] anonymous_frame
           (add_reply 1) []);
    try (vm_compute; reflexivity).
  repeat constructor; vm_compute; reflexivity.
Defined.

(** ** Bulk synchronization and the accessors *)

Lemma observer_calls_app (t1 t2 : list event) :
  observer_calls (t1 ++ t2) = observer_calls t1 ++ observer_calls t2.
Proof. unfold observer_calls. apply List.filter_app. Qed.

Lemma calls_stable__recv : stable (λ w, observer_calls (trace w)) _recv.
Proof.
  intros w. unfold _recv. destruct (_sock (sess w)); simpl; [|done].
  destruct (incoming (net w)) as [|[m|e] rest]; try done.
  simpl. by rewrite observer_calls_app, app_nil_r.
Qed.

Lemma calls_stable__handleMessage (m : message) :
  stable (λ w, observer_calls (trace w)) (_handleMessage m).
Proof.
  intros w. unfold _handleMessage, bind, modify.
  destruct (m !! "method") as [[z|name|l|d]|]; simpl;
    try (by rewrite observer_calls_app, app_nil_r).
  destruct (handler_of name) as [fn|].
  - unfold liftS. cbn [sess log].
    destruct (fn m (sess w)); try done; simpl; by rewrite observer_calls_app, app_nil_r.
  - simpl. by rewrite !observer_calls_app, !app_nil_r.
Qed.

Lemma calls_stable_sync_loop (ins : list inbound) :
  stable (λ w, observer_calls (trace w)) (sync_loop ins).
Proof.
  induction ins as [|x ins IH]; intros w; simpl;
    destruct (_initial_data (sess w)); try done.
  - exact (stable_bind (λ w, observer_calls (trace w)) _recv _ calls_stable__recv
             (λ _, stable_out_of_fuel _) w).
  - exact (stable_bind (λ w, observer_calls (trace w)) _recv _ calls_stable__recv
             (λ m, stable_bind _ _ _ (calls_stable__handleMessage m) (λ _, IH)) w).
Qed.

(** X9: the receive loop of [fetch_initial_data] applies every frame to the
    cache but never notifies an observer: however the loop ends, the
    recorded observer calls are those recorded before it started.  It sends
    nothing and leaves the counter, the pending flag and the observer list
    as they were. *)
Theorem sync_loop_never_notifies (ins : list inbound) (w : World) :
  match sync_loop ins w with
  | Return _ w' | Raise _ w' | Blocked w' =>
      observer_calls (trace w') = observer_calls (trace w) ∧
      sent_tags (trace w') = sent_tags (trace w) ∧
      _sequence (sess w') = _sequence (sess w) ∧
      _command_pending (sess w') = _command_pending (sess w) ∧
      _callbacks (sess w') = _callbacks (sess w)
  | OutOfFuel => True
  end.
Proof.
  pose proof (calls_stable_sync_loop ins w) as Hc.
  pose proof (stable_sync_loop ins w) as Hv. unfold view, core in Hv.
  destruct (sync_loop ins w); try done; by injection Hv as -> -> -> ->.
Qed.

Lemma state_is_unique (a b : string) (e : entity) :
  state_is a e = true → state_is b e = true → a = b.
Proof.
  unfold state_is. destruct (_message e !! "state") as [[z|t|l|d]|]; try done.
  intros Ha Hb. apply String.eqb_eq in Ha, Hb. congruence.
Qed.

Section Accessors.

Variable cbs : cbid → callback.

Lemma ensure_initial_data_done (fuel : nat) (w : World) :
  _initial_data (sess w) = true → ensure_initial_data cbs fuel w = Return tt w.
Proof. intros H. unfold ensure_initial_data, bind, get. by rewrite H. Qed.

(** X10: on a synchronized session the recording accessors are pure reads
    of the cache, with no traffic.  [recorded], [scheduled] and [failed]
    select by the [state] field; one recording has one state, so no
    recording is in two of the lists, and a recording whose state is none of
    completed, scheduled, recording, missed (or has no state) is in none. *)
Theorem recordings_classified_by_state (fuel : nat) (w : World) :
  _initial_data (sess w) = true →
  ∃ R S F,
    recorded cbs fuel w = Return R w ∧
    scheduled cbs fuel w = Return S w ∧
    failed cbs fuel w = Return F w ∧
    ∀ e,
      (e ∈ R ↔ e ∈ values (_dvr_entries (sess w)) ∧ state_is "completed" e = true) ∧
      (e ∈ S ↔ e ∈ values (_dvr_entries (sess w)) ∧
               (state_is "scheduled" e = true ∨ state_is "recording" e = true)) ∧
      (e ∈ F ↔ e ∈ values (_dvr_entries (sess w)) ∧ state_is "missed" e = true) ∧
      ¬ (e ∈ R ∧ e ∈ S) ∧ ¬ (e ∈ R ∧ e ∈ F) ∧ ¬ (e ∈ S ∧ e ∈ F).
Proof.
  intros Hi.
  exists (List.filter (state_is "completed") (values (_dvr_entries (sess w)))),
    (List.filter (λ entry, state_is "scheduled" entry || state_is "recording" entry)
       (values (_dvr_entries (sess w)))),
    (List.filter (state_is "missed") (values (_dvr_entries (sess w)))).
  split; [|split; [|split]];
    try (unfold recorded, scheduled, failed, bind at 1;
         by rewrite (ensure_initial_data_done fuel w Hi)).
  intros e.
  assert (∀ (f : entity → bool) l, e ∈ List.filter f l ↔ e ∈ l ∧ f e = true) as Hf.
  { intros f l. rewrite !list_elem_of_In. apply List.filter_In. }
  rewrite !Hf, orb_true_iff.
  repeat split; try tauto.
  - intros [[_ H1] [_ [H2|H2]]]; by pose proof (state_is_unique _ _ _ H1 H2).
  - intros [[_ H1] [_ H2]]; by pose proof (state_is_unique _ _ _ H1 H2).
  - intros [[_ [H1|H1]] [_ H2]]; by pose proof (state_is_unique _ _ _ H1 H2).
Qed.

End Accessors.

Lemma recordings_classified_by_state_witness :
  ∃ R S F,
    recorded quiet_observers 1 library_world = Return R library_world ∧
    scheduled quiet_observers 1 library_world = Return S library_world ∧
    failed quiet_observers 1 library_world = Return F library_world ∧
    ∀ e,
      (e ∈ R ↔ e ∈ values (_dvr_entries (sess library_world)) ∧
               state_is "completed" e = true) ∧
      (e ∈ S ↔ e ∈ values (_dvr_entries (sess library_world)) ∧
               (state_is "scheduled" e = true ∨ state_is "recording" e = true)) ∧
      (e ∈ F ↔ e ∈ values (_dvr_entries (sess library_world)) ∧
               state_is "missed" e = true) ∧
      ¬ (e ∈ R ∧ e ∈ S) ∧ ¬ (e ∈ R ∧ e ∈ F) ∧ ¬ (e ∈ S ∧ e ∈ F).
Proof.
  apply (recordings_classified_by_state quiet_observers 1 library_world). reflexivity.
Defined.

(** ** Request wrappers *)

Lemma sent_requests_app (t1 t2 : list event) :
  sent_requests (t1 ++ t2) = sent_requests t1 ++ sent_requests t2.
Proof. unfold sent_requests. by rewrite flat_map_app. Qed.

Lemma encodable_empty : encodable ∅ = Some ∅.
Proof.
  unfold encodable. rewrite decide_True by apply map_Forall_empty. by rewrite omap_empty.
Qed.

Lemma encodable_insert (k : string) (v : value) (a : arguments) (m : message) :
  encodable a = Some m → encodable (<[k := Some v]> a) = Some (<[k := v]> m).
Proof.
  unfold encodable. destruct (decide (map_Forall (λ _ o, is_Some o) a)) as [Hall|]; [|done].
  intros [= <-]. rewrite decide_True.
  - by rewrite (omap_insert_Some id a k (Some v) v).
  - apply map_Forall_insert_2; [by eexists|done].
Qed.

Section Wrappers.

Variable cbs : cbid → callback.
Variable invoke_unset : string → arguments → M World message.

(** An exchange whose reply is the next frame on the socket. *)
Lemma invoke_immediate_reply (fuel : nat) (method : string) (r : option message)
    (w : World) (reply : message) (rest : list inbound) :
  _command_pending (sess w) = false → _sock (sess w) = true →
  incoming (net w) = InMsg reply :: rest →
  reply !! "seq" = Some (VInt (_sequence (sess w))) →
  _invoke_command cbs fuel method r w
    = Return reply (completed (received [reply] rest (sent method r w))).
Proof.
  intros Hp Hs Hin Ht.
  by rewrite (invoke_matching_reply cbs fuel method r w [] reply rest).
Qed.

Lemma completed_caches (ms : list message) (rest : list inbound) (method : string)
    (r : option message) (w : World) :
  let w1 := completed (received ms rest (sent method r w)) in
  _events (sess w1) = _events (sess w) ∧
  _dvr_entries (sess w1) = _dvr_entries (sess w) ∧
  _tags (sess w1) = _tags (sess w) ∧
  _channels (sess w1) = _channels (sess w) ∧
  _auto_record_entries (sess w1) = _auto_record_entries (sess w).
Proof.
  unfold completed, received; cbn [sess upd_sess set_sess]. rewrite sent_sess. done.
Qed.

(** X11: [_get_event] has two modes.  With an event map it is a lookup: a
    known identifier is answered from the map and an unknown one raises
    [KeyError], in both cases without asking the server.  Without an event
    map it asks the server each time and returns the reply as the event
    without caching it: the map is still absent afterwards. *)
Theorem get_event_lookup_or_fetch
    (fuel : nat) (event_id : value) (k : key) (w1 w2 : World)
    (evs : gmap key entity) (reply : message) (rest : list inbound) :
  hash_key event_id = Some k →
  _events (sess w1) = Some evs →
  _events (sess w2) = None →
  _command_pending (sess w2) = false → _sock (sess w2) = true →
  incoming (net w2) = InMsg reply :: rest →
  reply !! "seq" = Some (VInt (_sequence (sess w2))) →
  _get_event cbs fuel event_id w1
    = match evs !! k with
      | Some e => Return (Some e) w1
      | None => Raise KeyError w1
      end ∧
  ∃ w2', _get_event cbs fuel event_id w2 = Return (Some (Entity HTSPEvent reply)) w2' ∧
         _events (sess w2') = None ∧
         trace w2' = trace w2
                       ++ [EvSend (request "getEvent" (Some (<["eventId" := event_id]> ∅)) w2);
                           EvRecv reply].
Proof.
  intros Hk He1 He2 Hp Hs Hin Ht. split.
  - unfold _get_event, bind at 1, get. rewrite He1.
    unfold bind, hashed. rewrite Hk. unfold ret at 1. by destruct (evs !! k).
  - set (a := <["eventId" := event_id]> ∅ : message).
    set (w2' := completed (received [reply] rest (sent "getEvent" (Some a) w2))).
    destruct (completed_caches [reply] rest "getEvent" (Some a) w2) as (Hev & _).
    fold w2' in Hev. exists w2'. split; [|split].
    + unfold _get_event, bind at 1, get. rewrite He2. unfold bind. fold a.
      rewrite (invoke_immediate_reply fuel "getEvent" (Some a) w2 reply rest) by done.
      fold w2'. unfold liftS, _handle_eventAdd, bind, get. rewrite Hev, He2.
      unfold ret. rewrite set_sess_sess. do 2 f_equal.
      rewrite <- (new_response_message HTSPEvent reply) at 2. done.
    + by rewrite Hev.
    + unfold w2', completed, received, upd_sess, set_sess; cbn [trace].
      rewrite sent_trace. by rewrite <- app_assoc.
Qed.

(** X12: [cancel_dvr_entry].  An entry without an [id] raises [KeyError]
    before anything is sent.  Otherwise the outcome is read off the reply:
    a truthy [success] returns the entry that was passed in; a falsy one
    raises [RequestError] if the reply has an [error] text and [KeyError] if
    it has not; a reply without [success] raises [KeyError].  In no case is
    the recordings cache touched by the call itself. *)
Theorem cancel_dvr_entry_outcomes
    (fuel : nat) (entry : entity) (i : value) (w : World)
    (reply : message) (rest : list inbound) :
  _message entry !! "id" = Some i →
  _command_pending (sess w) = false → _sock (sess w) = true →
  incoming (net w) = InMsg reply :: rest →
  reply !! "seq" = Some (VInt (_sequence (sess w))) →
  (∀ entry', _message entry' !! "id" = None →
             cancel_dvr_entry cbs fuel entry' w = Raise KeyError w) ∧
  ∃ w', _dvr_entries (sess w') = _dvr_entries (sess w) ∧
        trace w' = trace w
                     ++ [EvSend (request "cancelDvrEntry" (Some (<["id" := i]> ∅)) w);
                         EvRecv reply] ∧
        cancel_dvr_entry cbs fuel entry w =
          match reply !! "success" with
          | None => Raise KeyError w'
          | Some ok =>
              if truthy ok then Return entry w'
              else match reply !! "error" with
                   | Some _ => Raise RequestError w'
                   | None => Raise KeyError w'
                   end
          end.
Proof.
  intros Hi Hp Hs Hin Ht. split.
  - intros entry' Hnone. unfold cancel_dvr_entry, bind, getitem. by rewrite Hnone.
  - set (a := <["id" := i]> ∅ : message).
    set (w' := completed (received [reply] rest (sent "cancelDvrEntry" (Some a) w))).
    exists w'. split; [apply completed_caches|]. split.
    + unfold w', completed, received, upd_sess, set_sess; cbn [trace].
      rewrite sent_trace. by rewrite <- app_assoc.
    + unfold cancel_dvr_entry, bind at 1, getitem at 1. rewrite Hi.
      unfold ret at 1. unfold bind at 1. fold a.
      rewrite (invoke_immediate_reply fuel "cancelDvrEntry" (Some a) w reply rest) by done.
      fold w'. unfold bind, _check_response, bind, getitem.
      destruct (reply !! "success") as [ok|]; [|done]. unfold ret at 1.
      destruct (truthy ok); [done|]. by destruct (reply !! "error").
Qed.

(** The command of an entry that names no event: nothing is asked of the
    session, and with title, channel and times present no value is
    [None]. *)
Lemma _as_add_dvr_entry_command_timed (fuel : nat) (entry : entity)
    (t ch st sp : value) (w : World) :
  _message entry !! "eventId" = None →
  _message entry !! "title" = Some t → _message entry !! "channel" = Some ch →
  _message entry !! "start" = Some st → _message entry !! "stop" = Some sp →
  ∃ a, _as_add_dvr_entry_command cbs fuel entry w = Return a w ∧
       encodable a = Some (timed_command (retention_of entry) t ch st sp).
Proof.
  intros He Ht Hc Hst Hsp. eexists. split.
  - unfold _as_add_dvr_entry_command. rewrite He, Ht, Hc, Hst, Hsp. reflexivity.
  - unfold timed_command, retention_of.
    repeat apply encodable_insert. apply encodable_empty.
Qed.

(** X13: [add_dvr_entry] answers from the cache, so it depends on the
    order of the server's frames.  For an entry that names no event and
    has title, channel and times, the request carries retention (0 when
    unset), title, channel and times; when the reply is the next frame and
    the recording it names is not cached, the exchange completes (the
    counter advances, the pending flag is cleared) and the call then raises
    [KeyError]: the [dvrEntryAdd] notification still waiting on the socket
    comes too late. *)
Theorem add_dvr_entry_reply_before_push
    (fuel : nat) (entry : entity) (t ch st sp : value) (w : World) (reply : message)
    (rest : list inbound) (ok i : value) (k : key) :
  _message entry !! "eventId" = None →
  _message entry !! "title" = Some t → _message entry !! "channel" = Some ch →
  _message entry !! "start" = Some st → _message entry !! "stop" = Some sp →
  _command_pending (sess w) = false → _sock (sess w) = true →
  incoming (net w) = InMsg reply :: rest →
  reply !! "seq" = Some (VInt (_sequence (sess w))) →
  reply !! "success" = Some ok → truthy ok = true →
  reply !! "id" = Some i → hash_key i = Some k →
  _dvr_entries (sess w) !! k = None →
  ∃ w', add_dvr_entry cbs invoke_unset fuel entry w = Raise KeyError w' ∧
        trace w' = trace w
                     ++ [EvSend (request "addDvrEntry"
                                   (Some (timed_command (retention_of entry) t ch st sp)) w);
                         EvRecv reply] ∧
        _sequence (sess w') = _sequence (sess w) + 1 ∧
        _command_pending (sess w') = false ∧
        incoming (net w') = rest ∧
        _dvr_entries (sess w') = _dvr_entries (sess w).
Proof.
  intros He Hti Hc Hst Hsp Hp Hs Hin Ht Hok Htr Hi Hk Hnone.
  destruct (_as_add_dvr_entry_command_timed fuel entry t ch st sp w He Hti Hc Hst Hsp)
    as (a & Ha & Henc).
  set (command := timed_command (retention_of entry) t ch st sp) in *.
  set (w' := completed (received [reply] rest (sent "addDvrEntry" (Some command) w))).
  destruct (completed_caches [reply] rest "addDvrEntry" (Some command) w)
    as (_ & Hd & _). fold w' in Hd.
  exists w'. split; [|split; [|split; [|split; [done|split; [done|done]]]]].
  - unfold add_dvr_entry, bind at 1. rewrite Ha. unfold bind at 1. rewrite Henc.
    rewrite (invoke_immediate_reply fuel "addDvrEntry" (Some command) w reply rest) by done.
    fold w'. unfold bind, _check_response, bind, getitem. rewrite Hok. unfold ret at 1.
    rewrite Htr. unfold ret at 1. rewrite Hi. unfold ret at 1. unfold hashed.
    rewrite Hk. unfold ret at 1, get. by rewrite Hd, Hnone.
  - unfold w', completed, received, upd_sess, set_sess; cbn [trace].
    rewrite sent_trace. by rewrite <- app_assoc.
  - unfold w', completed, received; cbn [sess upd_sess set_sess].
    rewrite sent_sess. done.
Qed.

(** X23: an entry tied to an event is resolved before anything is sent.
    On a session with an event map, an event the map does not hold makes
    [add_dvr_entry] raise [KeyError] with the world untouched; for an event
    it holds, the arguments are retention, title and the event's own
    identifier, and never channel or times; the title is the entry's when
    that is truthy and the event's otherwise ([KeyError] if the event has
    none). *)
Theorem add_dvr_entry_resolves_event_first
    (fuel : nat) (entry : entity) (event_id : value) (k : key) (w : World)
    (evs : gmap key entity) :
  _message entry !! "eventId" = Some event_id → hash_key event_id = Some k →
  _events (sess w) = Some evs →
  (evs !! k = None → add_dvr_entry cbs invoke_unset fuel entry w = Raise KeyError w) ∧
  (∀ ev i, evs !! k = Some ev → _message ev !! "eventId" = Some i →
     _as_add_dvr_entry_command cbs fuel entry w
       = if truthy_opt (_message entry !! "title")
         then Return (event_command (retention_of entry) (_message entry !! "title") i) w
         else match _message ev !! "title" with
              | Some t => Return (event_command (retention_of entry) (Some t) i) w
              | None => Raise KeyError w
              end).
Proof.
  intros He Hk Hev.
  assert (_get_event cbs fuel event_id w
          = match evs !! k with
            | Some e => Return (Some e) w
            | None => Raise KeyError w
            end) as Hget.
  { unfold _get_event, bind, get. rewrite Hev. unfold hashed. rewrite Hk. unfold ret at 1.
    by destruct (evs !! k). }
  split.
  - intros Hnone. unfold add_dvr_entry, bind at 1, _as_add_dvr_entry_command.
    rewrite He. unfold bind at 1. by rewrite Hget, Hnone.
  - intros ev i Hsome Hid. unfold _as_add_dvr_entry_command. rewrite He.
    unfold bind at 1. rewrite Hget, Hsome. unfold bind at 1, getitem at 1. rewrite Hid.
    unfold ret at 1. rewrite lookup_insert_ne by done. rewrite lookup_insert_eq.
    unfold event_command, retention_of.
    destruct (truthy_opt (_message entry !! "title")); [done|].
    unfold bind, getitem. destruct (_message ev !! "title") as [t|]; [|done].
    unfold ret. by f_equal.
Qed.

End Wrappers.

Lemma get_event_lookup_or_fetch_witness :
  _get_event quiet_observers 1 (VInt 6) epg_world
    = match (<[inl 5 := Entity HTSPEvent event_news]> ∅ : gmap key entity) !! inl 6 with
      | Some e => Return (Some e) epg_world
      | None => Raise KeyError epg_world
      end ∧
  ∃ w2', _get_event quiet_observers 1 (VInt 6) no_epg_world
           = Return (Some (Entity HTSPEvent event_reply)) w2' ∧
         _events (sess w2') = None ∧
         trace w2' = trace no_epg_world
                       ++ [EvSend (request "getEvent" (Some (<["eventId" := VInt 6]> ∅))
                                     no_epg_world);
                           EvRecv event_reply].
Proof.
  apply (get_event_lookup_or_fetch quiet_observers 1 (VInt 6) (inl 6) epg_world
           no_epg_world (<[inl 5 := Entity HTSPEvent event_news]> ∅) event_reply []);
    vm_compute; reflexivity.
Defined.

Lemma cancel_dvr_entry_outcomes_witness :
  (∀ entry', _message entry' !! "id" = None →
             cancel_dvr_entry quiet_observers 1 entry' cancel_world
               = Raise KeyError cancel_world) ∧
  ∃ w', _dvr_entries (sess w') = _dvr_entries (sess cancel_world) ∧
        trace w' = trace cancel_world
                     ++ [EvSend (request "cancelDvrEntry" (Some (<["id" := VInt 7]> ∅))
                                   cancel_world);
                         EvRecv cancel_refused] ∧
        cancel_dvr_entry quiet_observers 1 (Entity HTSPDVREntry film_add) cancel_world =
          match cancel_refused !! "success" with
          | None => Raise KeyError w'
          | Some ok =>
              if truthy ok then Return (Entity HTSPDVREntry film_add) w'
              else match cancel_refused !! "error" with
                   | Some _ => Raise RequestError w'
                   | None => Raise KeyError w'
                   end
          end.
Proof.
  apply (cancel_dvr_entry_outcomes quiet_observers 1 (Entity HTSPDVREntry film_add)
           (VInt 7) cancel_world cancel_refused []);
    vm_compute; reflexivity.
Defined.

Lemma add_dvr_entry_reply_before_push_witness :
  ∃ w', add_dvr_entry quiet_observers refusing_codec 1 film_entry early_reply_world
          = Raise KeyError w' ∧
        trace w' = trace early_reply_world
                     ++ [EvSend (request "addDvrEntry"
                                   (Some (timed_command (retention_of film_entry)
                                            (VStr "Film") (VInt 10) (VInt 1000) (VInt 2000)))
                                   early_reply_world);
                         EvRecv (add_reply 1)] ∧
        _sequence (sess w') = _sequence (sess early_reply_world) + 1 ∧
        _command_pending (sess w') = false ∧
        incoming (net w') = [InMsg push_dvr] ∧
        _dvr_entries (sess w') = _dvr_entries (sess early_reply_world).
Proof.
  apply (add_dvr_entry_reply_before_push quiet_observers refusing_codec 1 film_entry
           (VStr "Film") (VInt 10) (VInt 1000) (VInt 2000) early_reply_world
           (add_reply 1) [InMsg push_dvr] (VInt 1) (VInt 77) (inl 77));
    vm_compute; reflexivity.
Defined.

Lemma add_dvr_entry_resolves_event_first_witness :
  ((<[inl 5 := Entity HTSPEvent event_news]> ∅ : gmap key entity) !! inl 6 = None →
   add_dvr_entry quiet_observers refusing_codec 1 (news_entry 6) epg_world
     = Raise KeyError epg_world) ∧
  (∀ ev i, (<[inl 5 := Entity HTSPEvent event_news]> ∅ : gmap key entity) !! inl 6 = Some ev →
     _message ev !! "eventId" = Some i →
     _as_add_dvr_entry_command quiet_observers 1 (news_entry 6) epg_world
       = if truthy_opt (_message (news_entry 6) !! "title")
         then Return (event_command (retention_of (news_entry 6))
                        (_message (news_entry 6) !! "title") i) epg_world
         else match _message ev !! "title" with
              | Some t => Return (event_command (retention_of (news_entry 6)) (Some t) i)
                            epg_world
              | None => Raise KeyError epg_world
              end).
Proof.
  apply (add_dvr_entry_resolves_event_first quiet_observers refusing_codec 1 (news_entry 6)
           (VInt 6) (inl 6) epg_world (<[inl 5 := Entity HTSPEvent event_news]> ∅));
    vm_compute; reflexivity.
Defined.

Lemma _handle_dvrEntryAdd_ok (a : message) (s : Session) (i : value) (k : key) :
  a !! "id" = Some i → hash_key i = Some k →
  _handle_dvrEntryAdd a s
    = Return (Some (Entity HTSPDVREntry a))
        (set_dvr_entries (<[k := Entity HTSPDVREntry a]> (_dvr_entries s)) s).
Proof.
  intros Ha Hk. unfold _handle_dvrEntryAdd, handle_add, entity_id, bind, getitem, hashed.
  rewrite new_response_message, new_response_cls. cbn [id_field].
  rewrite Ha. unfold ret at 1. rewrite Hk. unfold ret at 1, get, modify, ret.
  assert (new_response HTSPDVREntry a = Entity HTSPDVREntry a) as ->; [|done].
  rewrite <- (new_response_message HTSPDVREntry a) at 2. done.
Qed.

Section Announced.

Variable cbs : cbid → callback.
Variable invoke_unset : string → arguments → M World message.
Hypothesis cbs_inert : inert cbs.

Lemma notify_loop_inert (v : value) (n : option entity) :
  ∀ (fuel i : nat) (w : World),
    (length (_callbacks (sess w)) - i ≤ fuel)%nat →
    ∃ w', notify_loop cbs fuel i v n w = Return tt w' ∧
          sess w' = sess w ∧ net w' = net w.
Proof.
  induction fuel as [|fuel IH]; intros i w Hfuel.
  - assert (length (_callbacks (sess w)) ≤ i)%nat as Hi by lia.
    simpl. rewrite (lookup_ge_None_2 _ i Hi). by exists w.
  - simpl. destruct (_callbacks (sess w) !! i) as [c|] eqn:Hc; [|by exists w].
    unfold bind, call. rewrite cbs_inert.
    destruct (IH (S i) (install (sess w, net w) (log (EvCall c v n) w)))
      as (w' & Hw' & Hs & Hn); [simpl; lia|].
    exists w'. by split.
Qed.

Lemma notify_loop_quiet (v : value) (n : option entity) :
  ∀ (fuel i : nat) (w : World),
    (length (_callbacks (sess w)) - i ≤ fuel)%nat →
    ∃ w', notify_loop cbs fuel i v n w = Return tt w' ∧
          sess w' = sess w ∧ net w' = net w ∧
          sent_requests (trace w') = sent_requests (trace w).
Proof.
  induction fuel as [|fuel IH]; intros i w Hfuel.
  - assert (length (_callbacks (sess w)) ≤ i)%nat as Hi by lia.
    simpl. rewrite (lookup_ge_None_2 _ i Hi). by exists w.
  - simpl. destruct (_callbacks (sess w) !! i) as [c|] eqn:Hc; [|by exists w].
    unfold bind, call. rewrite cbs_inert.
    destruct (IH (S i) (install (sess w, net w) (log (EvCall c v n) w)))
      as (w' & Hw' & Hs & Hn & Hq); [simpl; lia|].
    exists w'. split; [done|]. split; [done|]. split; [done|].
    rewrite Hq. simpl. rewrite sent_requests_app. simpl. by rewrite app_nil_r.
Qed.

(** X14: [add_dvr_entry] when the server announces the recording before it
    answers, with observers that change nothing.  For an entry that names
    no event and has title, channel and times, the [dvrEntryAdd] frame is
    held, the reply is accepted, the held frame is applied, and the call
    returns the record the notification created: the entry the caller gets
    is the one in the cache. *)
Theorem add_dvr_entry_returns_announced_entry
    (fuel : nat) (entry : entity) (t ch st sp : value) (w : World) (push reply : message)
    (rest : list inbound) (ok i : value) (k : key) :
  _message entry !! "eventId" = None →
  _message entry !! "title" = Some t → _message entry !! "channel" = Some ch →
  _message entry !! "start" = Some st → _message entry !! "stop" = Some sp →
  (length (_callbacks (sess w)) ≤ fuel)%nat →
  _command_pending (sess w) = false → _sock (sess w) = true →
  incoming (net w) = InMsg push :: InMsg reply :: rest →
  push !! "seq" = None → push !! "method" = Some (VStr "dvrEntryAdd") →
  push !! "id" = Some i → hash_key i = Some k →
  reply !! "seq" = Some (VInt (_sequence (sess w))) →
  reply !! "success" = Some ok → truthy ok = true →
  reply !! "id" = Some i →
  ∃ w', add_dvr_entry cbs invoke_unset fuel entry w
          = Return (Entity HTSPDVREntry push) w' ∧
        _dvr_entries (sess w') !! k = Some (Entity HTSPDVREntry push) ∧
        sent_requests (trace w')
          = sent_requests (trace w)
              ++ [request "addDvrEntry"
                    (Some (timed_command (retention_of entry) t ch st sp)) w] ∧
        incoming (net w') = rest.
Proof.
  intros He Hti Hc Hst Hsp Hfuel Hp Hs Hin Hnoseq Hmeth Hpi Hk Ht Hok Htr Hri.
  destruct (_as_add_dvr_entry_command_timed cbs fuel entry t ch st sp w He Hti Hc Hst Hsp)
    as (a & Ha & Henc).
  set (command := timed_command (retention_of entry) t ch st sp) in *.
  set (w1 := completed (received ([push] ++ [reply]) rest
                          (sent "addDvrEntry" (Some command) w))).
  set (s2 := set_dvr_entries (<[k := Entity HTSPDVREntry push]> (_dvr_entries (sess w1)))
               (sess w1)).
  set (w2 := set_sess s2 (log (EvHandle push) w1)).
  assert (_handleMessage push w1 = Return (Some (Entity HTSPDVREntry push)) w2) as Hh.
  { rewrite (_handleMessage_known push "dvrEntryAdd" _handle_dvrEntryAdd w1 Hmeth eq_refl).
    unfold liftS. cbn [sess log].
    by rewrite (_handle_dvrEntryAdd_ok push (sess w1) i k Hpi Hk). }
  destruct (notify_loop_quiet (VStr "dvrEntryAdd") (Some (Entity HTSPDVREntry push))
              fuel 0%nat w2) as (w3 & Hn & Hs3 & Hn3 & Hq3).
  { unfold w2, s2, w1, completed, received; cbn [sess upd_sess set_sess log].
    rewrite sent_sess. simpl. lia. }
  exists w3. split; [|split; [|split]].
  - unfold add_dvr_entry, bind at 1. rewrite Ha. unfold bind at 1. rewrite Henc.
    rewrite (invoke_matching_reply cbs fuel "addDvrEntry" (Some command) w [push] reply rest)
      by (try done; by repeat constructor).
    fold w1. cbn [drain]. unfold bind at 1 2 3. rewrite Hh.
    unfold _notify, bind at 1, getitem at 1. rewrite Hmeth. unfold ret at 1.
    rewrite Hn. unfold ret at 1 2.
    unfold bind, _check_response, bind, getitem. rewrite Hok. unfold ret at 1.
    rewrite Htr. unfold ret at 1. rewrite Hri. unfold ret at 1. unfold hashed.
    rewrite Hk. unfold ret at 1, get. rewrite Hs3. unfold w2; cbn [sess set_sess].
    unfold s2; simpl. by rewrite lookup_insert_eq.
  - rewrite Hs3. unfold w2; cbn [sess set_sess]. unfold s2; simpl.
    by rewrite lookup_insert_eq.
  - rewrite Hq3. unfold w2, w1, completed, received, upd_sess, set_sess; cbn [trace log].
    rewrite sent_trace. rewrite !sent_requests_app. simpl. by rewrite !app_nil_r.
  - by rewrite Hn3.
Qed.

End Announced.

Lemma quiet_observers_inert : inert quiet_observers.
Proof. by intros c v n s nt. Qed.

Lemma add_dvr_entry_returns_announced_entry_witness :
  ∃ w', add_dvr_entry quiet_observers refusing_codec 1 film_entry announced_world
          = Return (Entity HTSPDVREntry push_dvr) w' ∧
        _dvr_entries (sess w') !! inl 77 = Some (Entity HTSPDVREntry push_dvr) ∧
        sent_requests (trace w')
          = sent_requests (trace announced_world)
              ++ [request "addDvrEntry"
                    (Some (timed_command (retention_of film_entry)
                             (VStr "Film") (VInt 10) (VInt 1000) (VInt 2000)))
                    announced_world] ∧
        incoming (net w') = [].
Proof.
  apply (add_dvr_entry_returns_announced_entry quiet_observers refusing_codec
           quiet_observers_inert 1 film_entry (VStr "Film") (VInt 10) (VInt 1000)
           (VInt 2000) announced_world push_dvr (add_reply 1) [] (VInt 1) (VInt 77)
           (inl 77));
    vm_compute; reflexivity.
Defined.

(** ** Channel tags *)

Lemma lookup_tags_spec (ids : list value) :
  ∀ (acc ts : list entity) (s s' : Session),
    lookup_tags ids acc s = Return ts s' ↔
    s' = s ∧ ∃ ts', ts = acc ++ ts' ∧
      Forall2 (λ v t, ∃ k, hash_key v = Some k ∧ _tags s !! k = Some t) ids ts'.
Proof.
  induction ids as [|v ids IH]; intros acc ts s s'; simpl.
  - unfold ret. split.
    + intros [= <- <-]. split; [done|]. exists []. by rewrite app_nil_r.
    + intros (-> & ts' & -> & H). inversion H. by rewrite app_nil_r.
  - unfold bind, hashed, get. destruct (hash_key v) as [k|] eqn:Hk.
    + unfold ret at 1. destruct (_tags s !! k) as [t|] eqn:Ht.
      * rewrite IH. split.
        -- intros (-> & ts' & -> & H). split; [done|]. exists (t :: ts').
           rewrite <- app_assoc. split; [done|]. constructor; [by exists k|done].
        -- intros (-> & ts' & -> & H). split; [done|].
           inversion H as [|v0 t0 ids0 ts0 (k0 & Hk0 & Ht0) H0]; subst.
           assert (k0 = k) as -> by congruence.
           assert (t0 = t) as -> by congruence.
           exists ts0. by rewrite <- app_assoc.
      * split; [done|]. intros (-> & ts' & -> & H).
        inversion H as [|v0 t0 ids0 ts0 (k0 & Hk0 & Ht0) H0]; subst. congruence.
    + split; [done|]. intros (-> & ts' & -> & H).
      inversion H as [|v0 t0 ids0 ts0 (k0 & Hk0 & Ht0) H0]; subst. congruence.
Qed.

(** X15: [HTSPChannel.tags].  The [tags] field is documented optional, yet
    a channel without it raises [KeyError].  With a list there, the
    accessor returns exactly the cached tags the identifiers name, in the
    order of the list, and only if every identifier is hashable and cached;
    it never changes the session. *)
Theorem channel_tags_resolves_in_order
    (channel : entity) (ids : list value) (s : Session) :
  _message channel !! "tags" = Some (VList ids) →
  (∀ c' s0, _message c' !! "tags" = None → channel_tags c' s0 = Raise KeyError s0) ∧
  ∀ ts s',
    channel_tags channel s = Return ts s' ↔
    s' = s ∧ Forall2 (λ v t, ∃ k, hash_key v = Some k ∧ _tags s !! k = Some t) ids ts.
Proof.
  intros Hl. split.
  - intros c' s0 Hnone. unfold channel_tags, bind, getitem. by rewrite Hnone.
  - intros ts s'. unfold channel_tags, bind, getitem. rewrite Hl. unfold ret at 1.
    simpl. rewrite lookup_tags_spec. split.
    + by intros (-> & ts' & -> & H).
    + intros (-> & H). split; [done|]. by exists ts.
Qed.

Lemma channel_tags_resolves_in_order_witness :
  (∀ c' s0, _message c' !! "tags" = None → channel_tags c' s0 = Raise KeyError s0) ∧
  ∀ ts s',
    channel_tags bbc tagged_session = Return ts s' ↔
    s' = tagged_session ∧
    Forall2 (λ v t, ∃ k, hash_key v = Some k ∧ _tags tagged_session !! k = Some t)
      [VInt 1] ts.
Proof.
  apply (channel_tags_resolves_in_order bbc [VInt 1] tagged_session).
  vm_compute; reflexivity.
Defined.

(** ** Interrupting a monitor whose observer was left behind *)

Lemma list_remove_keeps_duplicate (c : cbid) (l l' : list cbid) :
  c ∈ l → list_remove c (l ++ [c]) = Some l' → c ∈ l'.
Proof.
  revert l'. induction l as [|y l IH]; intros l' Hin; [by apply elem_of_nil in Hin|].
  simpl. destruct (Nat.eqb c y) eqn:Hcy.
  - intros [= <-]. apply elem_of_app. right. by apply list_elem_of_singleton.
  - apply Nat.eqb_neq in Hcy. apply elem_of_cons in Hin as [->|Hin]; [done|].
    destruct (list_remove c (l ++ [c])) as [l''|] eqn:Hr; [|done].
    intros [= <-]. apply elem_of_cons. right. by apply IH.
Qed.

Section Remonitor.

Variable cbs : cbid → callback.
Hypothesis cbs_keep : keeps_observers cbs.

(** X16: the interrupt removes one occurrence only.  When the callback was
    already registered (left behind by a [monitor] call that ended on an
    exception), a [monitor] call ended by the interrupt returns with the
    callback still registered and the observer list as long as it was
    before the call. *)
Theorem interrupt_leaves_earlier_registration
    (fuel : nat) (c : cbid) (w w0 w1 : World) :
  c ∈ _callbacks (sess w) →
  monitor_enter cbs fuel c w = Return tt w0 →
  monitor_loop cbs fuel w0 = Raise KeyboardInterrupt w1 →
  ∃ w', monitor cbs fuel c w = Return tt w' ∧
        c ∈ _callbacks (sess w') ∧
        length (_callbacks (sess w')) = length (_callbacks (sess w)).
Proof.
  intros Hc Henter Hloop.
  pose proof (monitor_enter_appends cbs cbs_keep fuel c w w0 Henter) as H0.
  pose proof (observers_monitor_loop cbs cbs_keep _ fuel w0 H0) as H1.
  rewrite Hloop in H1. unfold observers_are in H1.
  destruct (list_remove_app_last c (_callbacks (sess w))) as (l' & Hl' & Hlen).
  exists (upd_sess (set_callbacks l') w1). split; [|split].
  - unfold monitor, bind. rewrite Henter, Hloop. simpl. unfold callbacks_remove.
    by rewrite H1, Hl'.
  - simpl. by apply (list_remove_keeps_duplicate c (_callbacks (sess w))).
  - done.
Qed.

End Remonitor.

Lemma interrupt_leaves_earlier_registration_witness :
  ∃ w', monitor quiet_observers 3 0%nat remonitor_world = Return tt w' ∧
        0%nat ∈ _callbacks (sess w') ∧
        length (_callbacks (sess w')) = length (_callbacks (sess remonitor_world)).
Proof.
  apply (interrupt_leaves_earlier_registration quiet_observers quiet_observers_keep
           3 0%nat remonitor_world remonitor_entered remonitor_stopped).
  - apply list_elem_of_In. simpl. tauto.
  - vm_compute; reflexivity.
  - vm_compute; reflexivity.
Defined.

(** ** Service names *)

Lemma append_nil_r (s : string) : s +:+ EmptyString = s.
Proof.
  induction s as [|c s IH]; [done|].
  change (String c (s +:+ EmptyString) = String c s). by f_equal.
Qed.

Lemma append_assoc (a b c : string) : (a +:+ b) +:+ c = a +:+ (b +:+ c).
Proof.
  induction a as [|x a IH]; [done|].
  change (String x ((a +:+ b) +:+ c) = String x (a +:+ (b +:+ c))). by f_equal.
Qed.

Lemma split_slash_cons (s : string) : ∃ p ps, split_slash s = p :: ps.
Proof.
  induction s as [|c s (p & ps & IH)]; cbn [split_slash]; [by exists EmptyString, []|].
  destruct (String.eqb (String c EmptyString) "/"); [by exists EmptyString, (split_slash s)|].
  rewrite IH. by exists (String c p), ps.
Qed.

Lemma join_slash_cons (p : string) (ps : list string) :
  join_slash (p :: ps) = match ps with [] => p | _ => p +:+ "/" +:+ join_slash ps end.
Proof. by destruct ps. Qed.

(** Splitting at the slashes and joining again gives the name back. *)
Lemma join_split_slash (s : string) : join_slash (split_slash s) = s.
Proof.
  induction s as [|c s IH]; [done|]. cbn [split_slash].
  destruct (split_slash_cons s) as (p & ps & Hs). rewrite Hs in IH |- *.
  destruct (String.eqb (String c EmptyString) "/") eqn:Hc.
  - apply String.eqb_eq in Hc. injection Hc as ->.
    rewrite join_slash_cons, IH. done.
  - rewrite join_slash_cons in IH. rewrite join_slash_cons.
    destruct ps; simpl; by rewrite <- IH.
Qed.

(** X17: the derived accessors of [HTSPService].  Without a string [name]
    all three are [None].  With one, splitting the name at "/" and joining
    the parts gives the name back; [network] is always defined; when the
    name has no slash [mux] is [None] and [resource] is the whole name;
    otherwise [resource] is [network/mux] and a prefix of the name. *)
Theorem service_name_parts (m : message) :
  match m !! "name" with
  | Some (VStr s) =>
      join_slash (split_slash s) = s ∧
      ∃ n, service_network m = Some n ∧
           match service_mux m with
           | Some x => service_resource m = Some (n +:+ "/" +:+ x) ∧
                       ∃ t, s = (n +:+ "/" +:+ x) +:+ t
           | None => service_resource m = Some n ∧ s = n
           end
  | _ => service_network m = None ∧ service_mux m = None ∧ service_resource m = None
  end.
Proof.
  unfold service_network, service_mux, service_resource, service_parts.
  destruct (m !! "name") as [[z|s|l|d]|]; try done.
  split; [apply join_split_slash|].
  pose proof (join_split_slash s) as Hj.
  destruct (split_slash_cons s) as (n & ps & Hs). rewrite Hs in Hj |- *.
  exists n. split; [done|]. destruct ps as [|x ps]; simpl.
  - done.
  - split; [done|]. rewrite join_slash_cons, join_slash_cons in Hj.
    destruct ps as [|y ps].
    + exists EmptyString. by rewrite append_nil_r.
    + exists ("/" +:+ join_slash (y :: ps)). rewrite <- Hj.
      by rewrite !append_assoc.
Qed.

(** ** Credentials and the shared argument dictionary *)

Lemma truthy_str_nonempty (s : string) : s ≠ EmptyString → truthy_str (Some s) = Some s.
Proof.
  intros Hs. unfold truthy_str. destruct (String.eqb s EmptyString) eqn:E; [|done].
  by apply String.eqb_eq in E.
Qed.

Lemma send_args_method (method : string) (args : message) (s : Session) :
  send_args method args s !! "method" = Some (VStr method).
Proof.
  unfold send_args.
  destruct (truthy_str (_digest s)), (truthy_str (_user s));
    rewrite ?lookup_insert_ne by done; by rewrite ?lookup_insert_eq.
Qed.

Lemma send_args_username (method : string) (args : message) (s : Session) :
  send_args method args s !! "username"
    = match truthy_str (_user s) with
      | Some u => Some (VStr u)
      | None => args !! "username"
      end.
Proof.
  unfold send_args.
  destruct (truthy_str (_digest s)), (truthy_str (_user s));
    rewrite ?lookup_insert_ne by done; by rewrite ?lookup_insert_eq.
Qed.

Lemma send_args_digest (method : string) (args : message) (s : Session) :
  send_args method args s !! "digest"
    = match truthy_str (_digest s) with
      | Some d => Some (VStr d)
      | None => args !! "digest"
      end.
Proof.
  unfold send_args.
  destruct (truthy_str (_digest s)), (truthy_str (_user s));
    rewrite ?lookup_insert_ne by done; by rewrite ?lookup_insert_eq.
Qed.

Section Credentials.

Variable cbs : cbid → callback.
Variable sha1 : string → string.

(** X18: a refused [authenticate].  The request goes out carrying the user
    name and the digest of password and challenge; when the reply says
    [noaccess = 1] the call raises "Authentication failed", but the session
    keeps both credentials, and every later request still carries the user
    name. *)
Theorem authentication_denied_keeps_credentials
    (fuel : nat) (user passwd c : string) (h : entity) (w : World)
    (reply : message) (rest : list inbound) :
  user ≠ EmptyString → passwd ≠ EmptyString → sha1 (passwd +:+ c) ≠ EmptyString →
  _sock (sess w) = true → _command_pending (sess w) = false →
  _hello (sess w) = Some h → _message h !! "challenge" = Some (VStr c) →
  incoming (net w) = InMsg reply :: rest →
  reply !! "seq" = Some (VInt (_sequence (sess w))) →
  reply !! "noaccess" = Some (VInt 1) →
  ∃ w' req,
    authenticate cbs sha1 fuel user (Some passwd) w
      = Raise (Exception "Authentication failed") w' ∧
    trace w' = trace w ++ [EvSend req; EvRecv reply] ∧
    req !! "method" = Some (VStr "authenticate") ∧
    req !! "username" = Some (VStr user) ∧
    req !! "digest" = Some (VStr (sha1 (passwd +:+ c))) ∧
    _user (sess w') = Some user ∧
    _digest (sess w') = Some (sha1 (passwd +:+ c)) ∧
    ∀ method' r', request method' r' w' !! "username" = Some (VStr user).
Proof.
  intros Hu Hpw Hd Hs Hp Hh Hc Hin Ht Hno.
  set (wa := upd_sess (set_digest (Some (sha1 (passwd +:+ c))))
               (upd_sess (set_user (Some user)) w)).
  set (w' := completed (received [reply] rest (sent "authenticate" None wa))).
  assert (sess w' = set_command_pending false
                      (set_sequence (_sequence (sess w) + 1)
                         (set_command_pending true (sess wa)))) as Hsess.
  { unfold w', completed, received; cbn [sess upd_sess set_sess]. by rewrite sent_sess. }
  exists w', (request "authenticate" None wa). split; [|split; [|split; [|split; [|split]]]].
  - unfold authenticate, bind at 1, _check_connection, bind at 1, get at 1.
    rewrite Hs. unfold ret at 1. unfold bind at 1, modify at 1. unfold bind at 1.
    rewrite (truthy_str_nonempty passwd Hpw). unfold bind at 1, get at 1.
    cbn [sess upd_sess set_sess set_user _hello]. rewrite Hh.
    unfold bind at 1, getitem at 1. rewrite Hc. unfold ret at 1.
    unfold bind at 1, _htsp_digest, ret at 1, modify at 1. fold wa.
    unfold bind at 1.
    rewrite (invoke_immediate_reply cbs fuel "authenticate" None wa reply rest) by done.
    fold w'. unfold access_denied. by rewrite Hno.
  - unfold w', completed, received, upd_sess, set_sess; cbn [trace].
    rewrite sent_trace. by rewrite <- app_assoc.
  - apply send_args_method.
  - unfold request. rewrite send_args_username. unfold wa; cbn [sess upd_sess set_sess set_user set_digest set_command_pending set_sequence _user _digest].
    by rewrite (truthy_str_nonempty user Hu).
  - unfold request. rewrite send_args_digest. unfold wa; cbn [sess upd_sess set_sess set_user set_digest set_command_pending set_sequence _user _digest].
    by rewrite (truthy_str_nonempty _ Hd).
  - split; [by rewrite Hsess|]. split; [by rewrite Hsess|].
    intros method' r'. unfold request. rewrite send_args_username, Hsess. unfold wa; cbn [sess upd_sess set_sess set_user set_digest set_command_pending set_sequence _user _digest].
    by rewrite (truthy_str_nonempty user Hu).
Qed.

End Credentials.

Lemma authentication_denied_keeps_credentials_witness :
  ∃ w' req,
    authenticate quiet_observers demo_sha1 1 "bob" (Some "secret") challenge_world
      = Raise (Exception "Authentication failed") w' ∧
    trace w' = trace challenge_world
                 ++ [EvSend req; EvRecv (<["noaccess" := VInt 1]> sync_reply)] ∧
    req !! "method" = Some (VStr "authenticate") ∧
    req !! "username" = Some (VStr "bob") ∧
    req !! "digest" = Some (VStr (demo_sha1 ("secret" +:+ "xyz"))) ∧
    _user (sess w') = Some "bob" ∧
    _digest (sess w') = Some (demo_sha1 ("secret" +:+ "xyz")) ∧
    ∀ method' r', request method' r' w' !! "username" = Some (VStr "bob").
Proof.
  apply (authentication_denied_keeps_credentials quiet_observers demo_sha1 1
           "bob" "secret" "xyz"
           (Entity HTSPHello (<["challenge" := VStr "xyz"]> (hello_reply 17)))
           challenge_world (<["noaccess" := VInt 1]> sync_reply) []);
    try discriminate; vm_compute; reflexivity.
Defined.

Lemma args_stable__recv : stable default_args _recv.
Proof.
  intros w. unfold _recv. destruct (_sock (sess w)); simpl; [|done].
  by destruct (incoming (net w)) as [|[m|e] rest].
Qed.

Lemma args_stable_await_reply (ins : list inbound) :
  ∀ (m : message) (queue : list message), stable default_args (await_reply ins m queue).
Proof.
  induction ins as [|x ins IH]; intros m queue; simpl;
    destruct (m !! "seq"); try apply stable_ret.
  - apply stable_bind; [apply args_stable__recv|intros _]. apply stable_out_of_fuel.
  - apply stable_bind; [apply args_stable__recv|intros m']. apply IH.
Qed.

Lemma args_stable__handleMessage (m : message) : stable default_args (_handleMessage m).
Proof.
  intros w. unfold _handleMessage, bind, modify.
  destruct (m !! "method") as [[z|name|l|d]|]; try done.
  destruct (handler_of name) as [fn|]; [|done].
  unfold liftS. cbn [sess log]. by destruct (fn m (sess w)).
Qed.

Section SharedArguments.

Variable cbs : cbid → callback.

Lemma args_stable_call (c : cbid) (v : value) (n : option entity) :
  stable default_args (call cbs c v n).
Proof. intros w. unfold call. by destruct (cbs c v n (sess w) (net w)). Qed.

Lemma args_stable_notify_loop (fuel : nat) :
  ∀ (i : nat) (v : value) (n : option entity),
    stable default_args (notify_loop cbs fuel i v n).
Proof.
  induction fuel as [|fuel IH]; intros i v n w; simpl;
    destruct (_callbacks (sess w) !! i) as [c|]; try done.
  exact (stable_bind default_args _ _ (args_stable_call c v n) (λ _, IH (S i) v n) w).
Qed.

Lemma args_stable_drain (fuel : nat) (q : list message) :
  stable default_args (drain cbs fuel q).
Proof.
  induction q as [|m q IH]; simpl; [apply stable_ret|].
  apply stable_bind; [apply args_stable__handleMessage|intros n].
  apply stable_bind; [|intros _; apply IH].
  unfold _notify. apply stable_bind; [apply stable_getitem|intros v].
  apply args_stable_notify_loop.
Qed.

Lemma args_stable_finish (fuel : nat) (qm : list message * message) :
  stable default_args (finish cbs fuel qm).
Proof.
  unfold finish. apply stable_bind; [by intros w|intros s].
  destruct (qm.2 !! "seq") as [tag|]; [|apply stable_raise].
  destruct (value_ne_int tag (_sequence s)); [apply stable_raise|].
  apply stable_bind; [by apply stable_modify|intros _].
  apply stable_bind; [by apply stable_modify|intros _].
  apply stable_bind; [apply args_stable_drain|intros _]. apply stable_ret.
Qed.

(** X19: the default argument dictionary of [_invoke_command] is shared
    between calls.  A call that passes no arguments leaves the whole
    request it sent (tag, method, user name, digest) in that dictionary,
    however the call ends.  A later call without arguments starts from it:
    if the session's user name has been cleared in the meantime, the request
    still carries the old user name, whereas a call that passes its own
    dictionary carries none. *)
Theorem default_arguments_are_shared
    (fuel : nat) (method : string) (u : string) (w : World) :
  _command_pending (sess w) = false → _sock (sess w) = true →
  truthy_str (_user (sess w)) = Some u →
  match _invoke_command cbs fuel method None w with
  | Return _ w' | Raise _ w' | Blocked w' =>
      default_args w' = request method None w ∧
      default_args w' !! "username" = Some (VStr u) ∧
      ∀ w2 method2,
        default_args w2 = default_args w' →
        truthy_str (_user (sess w2)) = None →
        request method2 None w2 !! "username" = Some (VStr u) ∧
        ∀ a, request method2 (Some a) w2 !! "username" = a !! "username"
  | OutOfFuel => True
  end.
Proof.
  intros Hp Hs Hu. rewrite invoke_sent by done.
  assert (stable default_args
            (m <- _recv ;;
             w1 <- get ;;
             qm <- await_reply (incoming (net w1)) m [] ;;
             finish cbs fuel qm)) as Hst.
  { apply stable_bind; [apply args_stable__recv|intros m].
    apply stable_bind; [apply stable_get|intros w1].
    apply stable_bind; [apply args_stable_await_reply|intros qm].
    apply args_stable_finish. }
  specialize (Hst (sent method None w)).
  assert (default_args (sent method None w) = request method None w) as Hd by done.
  assert (request method None w !! "username" = Some (VStr u)) as Hreq.
  { unfold request. by rewrite send_args_username, Hu. }
  assert (∀ w', default_args w' = default_args (sent method None w) →
            default_args w' = request method None w ∧
            default_args w' !! "username" = Some (VStr u) ∧
            ∀ w2 method2,
              default_args w2 = default_args w' →
              truthy_str (_user (sess w2)) = None →
              request method2 None w2 !! "username" = Some (VStr u) ∧
              ∀ a, request method2 (Some a) w2 !! "username" = a !! "username") as Hall.
  { intros w' Hw'. rewrite Hw', Hd. split; [done|]. split; [done|].
    intros w2 method2 Hw2 Hnone. unfold request.
    rewrite !send_args_username, Hnone. split.
    - simpl. rewrite lookup_insert_ne by done. by rewrite Hw2.
    - intros a. rewrite send_args_username, Hnone. simpl.
      by rewrite lookup_insert_ne. }
  destruct ((m <- _recv ;; w1 <- get ;;
             qm <- await_reply (incoming (net w1)) m [] ;; finish cbs fuel qm)
              (sent method None w)); try done; by apply Hall.
Qed.

End SharedArguments.

Lemma default_arguments_are_shared_witness :
  match _invoke_command quiet_observers 1 "getDiskSpace" None bob_world with
  | Return _ w' | Raise _ w' | Blocked w' =>
      default_args w' = request "getDiskSpace" None bob_world ∧
      default_args w' !! "username" = Some (VStr "bob") ∧
      ∀ w2 method2,
        default_args w2 = default_args w' →
        truthy_str (_user (sess w2)) = None →
        request method2 None w2 !! "username" = Some (VStr "bob") ∧
        ∀ a, request method2 (Some a) w2 !! "username" = a !! "username"
  | OutOfFuel => True
  end.
Proof.
  apply (default_arguments_are_shared quiet_observers 1 "getDiskSpace" "bob" bob_world);
    reflexivity.
Defined.

(** ** The handshake *)

Section Handshake.

Variable cbs : cbid → callback.

(** X20: [hello].  On an unconnected session it opens the socket, sends
    the client's protocol version and name under the current tag, and keeps
    the reply; [protocol_version] is then answered from that reply without
    traffic (and raises [KeyError] if the reply has no [htspversion]).  When
    the connection is refused, [SocketError] is raised with the session
    untouched, so [hello] can be tried again. *)
Theorem hello_handshake
    (fuel : nat) (w : World) (reply : message) (rest : list inbound) :
  _sock (sess w) = false → _command_pending (sess w) = false →
  refuse (net w) = false →
  incoming (net w) = InMsg reply :: rest →
  reply !! "seq" = Some (VInt (_sequence (sess w))) →
  (∀ w0, _sock (sess w0) = false → refuse (net w0) = true →
         hello cbs fuel w0 = Raise SocketError w0) ∧
  ∃ w' req,
    hello cbs fuel w = Return (Entity HTSPHello reply) w' ∧
    trace w' = trace w ++ [EvSend req; EvRecv reply] ∧
    req !! "method" = Some (VStr "hello") ∧
    req !! "htspversion" = Some (VInt 17) ∧
    req !! "clientname" = Some (VStr (_name (sess w))) ∧
    req !! "seq" = Some (VInt (_sequence (sess w))) ∧
    _sock (sess w') = true ∧ _hello (sess w') = Some (Entity HTSPHello reply) ∧
    _command_pending (sess w') = false ∧
    ∀ fuel',
      protocol_version cbs fuel' w'
        = match reply !! "htspversion" with
          | Some v => Return v w'
          | None => Raise KeyError w'
          end.
Proof.
  intros Hs Hp Hr Hin Ht. split.
  { intros w0 Hs0 Hr0. unfold hello, bind at 1, get. unfold bind at 1.
    rewrite Hs0. unfold connect. by rewrite Hr0. }
  set (a := <["htspversion" := VInt HTSP_PROTO_VERSION]>
              (<["clientname" := VStr (_name (sess w))]> ∅) : message).
  set (wc := upd_sess (set_sock true) w).
  set (w1 := completed (received [reply] rest (sent "hello" (Some a) wc))).
  set (w' := upd_sess (set_hello (Some (Entity HTSPHello reply))) w1).
  assert (new_response HTSPHello reply = Entity HTSPHello reply) as He.
  { rewrite <- (new_response_message HTSPHello reply) at 2. done. }
  exists w', (request "hello" (Some a) wc).
  split; [|split; [|split; [|split; [|split; [|split]]]]].
  - unfold hello, bind at 1, get. unfold bind at 1. rewrite Hs.
    unfold connect. rewrite Hr. fold wc. fold a. unfold bind at 1.
    rewrite (invoke_immediate_reply cbs fuel "hello" (Some a) wc reply rest) by done.
    fold w1. unfold bind, modify, ret. by rewrite He.
  - unfold w', w1, completed, received, upd_sess, set_sess; cbn [trace].
    rewrite sent_trace. by rewrite <- app_assoc.
  - apply send_args_method.
  - assert (∀ (m : string) (x : message) (s : Session),
              send_args m x s !! "htspversion" = x !! "htspversion") as Hv.
    { intros m x s. unfold send_args.
      destruct (truthy_str (_digest s)), (truthy_str (_user s));
        by rewrite ?lookup_insert_ne. }
    unfold request. rewrite Hv. simpl. rewrite lookup_insert_ne by done.
    unfold a. by rewrite lookup_insert_eq.
  - assert (∀ (m : string) (x : message) (s : Session),
              send_args m x s !! "clientname" = x !! "clientname") as Hv.
    { intros m x s. unfold send_args.
      destruct (truthy_str (_digest s)), (truthy_str (_user s));
        by rewrite ?lookup_insert_ne. }
    unfold request. rewrite Hv. simpl. rewrite lookup_insert_ne by done.
    unfold a. rewrite lookup_insert_ne by done. by rewrite lookup_insert_eq.
  - exact (request_seq "hello" (Some a) wc).
  - assert (sess w' = set_hello (Some (Entity HTSPHello reply))
                        (set_command_pending false
                           (set_sequence (_sequence (sess w) + 1)
                              (set_command_pending true (set_sock true (sess w))))))
      as Hsess.
    { unfold w', w1, completed, received; cbn [sess upd_sess set_sess].
      by rewrite sent_sess. }
    assert (_sock (sess w') = true) as Hsock by (by rewrite Hsess).
    assert (_hello (sess w') = Some (Entity HTSPHello reply)) as Hhello
      by (by rewrite Hsess).
    split; [done|]. split; [done|]. split; [by rewrite Hsess|].
    intros fuel'. unfold protocol_version, _check_connection, bind, get.
    rewrite Hsock. unfold ret at 1. rewrite Hhello. unfold getitem. cbn [_message].
    by destruct (reply !! "htspversion").
Qed.

End Handshake.

Lemma hello_handshake_witness :
  (∀ w0, _sock (sess w0) = false → refuse (net w0) = true →
         hello quiet_observers 1 w0 = Raise SocketError w0) ∧
  ∃ w' req,
    hello quiet_observers 1 dialing_world = Return (Entity HTSPHello (hello_reply 17)) w' ∧
    trace w' = trace dialing_world ++ [EvSend req; EvRecv (hello_reply 17)] ∧
    req !! "method" = Some (VStr "hello") ∧
    req !! "htspversion" = Some (VInt 17) ∧
    req !! "clientname" = Some (VStr (_name (sess dialing_world))) ∧
    req !! "seq" = Some (VInt (_sequence (sess dialing_world))) ∧
    _sock (sess w') = true ∧
    _hello (sess w') = Some (Entity HTSPHello (hello_reply 17)) ∧
    _command_pending (sess w') = false ∧
    ∀ fuel',
      protocol_version quiet_observers fuel' w'
        = match hello_reply 17 !! "htspversion" with
          | Some v => Return v w'
          | None => Raise KeyError w'
          end.
Proof.
  apply (hello_handshake quiet_observers 1 dialing_world (hello_reply 17) []);
    vm_compute; reflexivity.
Defined.

(** ** Lazy synchronization *)

(** Every handler keeps whatever does not depend on the caches and the
    synchronization flag. *)
Lemma stable_handler_fields {X} (f : Session → X) (name : string)
    (fn : message → M Session (option entity)) (m : message) :
  (∀ x s, f (set_tags x s) = f s) → (∀ x s, f (set_channels x s) = f s) →
  (∀ x s, f (set_events x s) = f s) → (∀ x s, f (set_dvr_entries x s) = f s) →
  (∀ x s, f (set_auto_record_entries x s) = f s) →
  (∀ x s, f (set_initial_data x s) = f s) →
  handler_of name = Some fn → stable f (fn m).
Proof.
  intros Ht Hc He Hd Ha Hi.
  assert (∀ c cache set_cache, (∀ x s, f (set_cache x s) = f s) →
            stable f (handle_add c cache set_cache m)) as Hadd.
  { intros c cache set_cache Hset. unfold handle_add, entity_id.
    apply stable_bind; [apply stable_getitem|intros i].
    apply stable_bind; [apply stable_hashed|intros k].
    apply stable_bind; [apply stable_get|intros s].
    apply stable_bind; [by apply stable_modify|intros _]. apply stable_ret. }
  assert (∀ c cache set_cache, (∀ x s, f (set_cache x s) = f s) →
            stable f (handle_update c cache set_cache m)) as Hupd.
  { intros c cache set_cache Hset. unfold handle_update, entity_id.
    apply stable_bind; [apply stable_getitem|intros i].
    apply stable_bind; [apply stable_hashed|intros k].
    apply stable_bind; [apply stable_get|intros s].
    destruct (cache s !! k); [|apply stable_raise].
    apply stable_bind; [by apply stable_modify|intros _]. apply stable_ret. }
  unfold handler_of.
  repeat (destruct (String.eqb name _);
          [intros [= <-];
           first [ by apply Hadd | by apply Hupd | idtac ] |]);
    try discriminate.
  - unfold _handle_initialSyncCompleted.
    apply stable_bind; [by apply stable_modify|intros _]. apply stable_ret.
  - unfold _handle_eventAdd, entity_id.
    apply stable_bind; [apply stable_get|intros s].
    destruct (_events s); [|apply stable_ret].
    apply stable_bind; [apply stable_getitem|intros i].
    apply stable_bind; [apply stable_hashed|intros k].
    apply stable_bind; [by apply stable_modify|intros _]. apply stable_ret.
  - unfold _handle_eventDelete, entity_id.
    apply stable_bind; [apply stable_get|intros s].
    destruct (_events s) as [evs|]; [|apply stable_ret].
    apply stable_bind; [apply stable_getitem|intros i].
    apply stable_bind; [apply stable_hashed|intros k].
    destruct (evs !! k); [|apply stable_ret].
    apply stable_bind; [by apply stable_modify|intros _]. apply stable_ret.
  - unfold _handle_dvrEntryDelete, entity_id.
    apply stable_bind; [apply stable_getitem|intros i].
    apply stable_bind; [apply stable_hashed|intros k].
    apply stable_bind; [apply stable_get|intros s].
    destruct (_dvr_entries s !! k); [|apply stable_ret].
    apply stable_bind; [by apply stable_modify|intros _]. apply stable_ret.
Qed.

Lemma apply_frame_sock (m : message) (s s' : Session) (r : option entity) :
  apply_frame m s = Return r s' → _sock s' = _sock s.
Proof.
  unfold apply_frame. destruct (m !! "method") as [[z|name|l|d]|]; try discriminate.
  - destruct (handler_of name) as [fn|] eqn:Hfn.
    + intros H. pose proof (stable_handler_fields _sock name fn m) as Hst.
      specialize (Hst ltac:(done) ltac:(done) ltac:(done) ltac:(done) ltac:(done)
                      ltac:(done) Hfn s).
      by rewrite H in Hst.
    + by intros [= _ <-].
  - by intros [= _ <-].
Qed.

(** [_handleMessage] does to the session what [apply_frame] says. *)
Lemma _handleMessage_apply (m : message) (w : World) (r : option entity) (s' : Session) :
  apply_frame m (sess w) = Return r s' →
  ∃ w', _handleMessage m w = Return r w' ∧ sess w' = s' ∧ net w' = net w.
Proof.
  unfold apply_frame, _handleMessage, bind, modify.
  destruct (m !! "method") as [[z|name|l|d]|]; try discriminate.
  - destruct (handler_of name) as [fn|].
    + intros H. unfold liftS. cbn [sess log]. rewrite H. by eexists.
    + intros [= <- <-]. by eexists.
  - intros [= <- <-]. by eexists.
Qed.

(** The receive loop stops at the completion marker. *)
Lemma sync_loop_marker (done_ : message) (rest : list inbound) (pre : list message) :
  done_ !! "method" = Some (VStr "initialSyncCompleted") →
  ∀ (ins : list inbound) (w : World) (s1 : Session),
    _sock (sess w) = true → _initial_data (sess w) = false →
    incoming (net w) = map InMsg pre ++ InMsg done_ :: rest →
    (length pre < length ins)%nat →
    apply_frames pre (sess w) = Some s1 →
    ∃ w', sync_loop ins w = Return tt w' ∧
          sess w' = set_initial_data true s1 ∧ incoming (net w') = rest.
Proof.
  intros Hdone. induction pre as [|m pre IH]; intros ins w s1 Hs Hi Hin Hlen Happ;
    (destruct ins as [|x ins]; [simpl in Hlen; lia|]);
    cbn [sync_loop]; rewrite Hi; unfold bind at 1.
  - simpl in Hin, Happ. injection Happ as <-. rewrite (_recv_msg w done_ rest Hs Hin).
    destruct (_handleMessage_apply done_ (received [done_] rest w) None
                (set_initial_data true (sess w))) as (w2 & Hh & Hs2 & Hn2).
    { unfold apply_frame. by rewrite Hdone. }
    unfold bind. rewrite Hh. exists w2.
    assert (sync_loop ins w2 = Return tt w2) as ->.
    { destruct ins; simpl; by rewrite Hs2. }
    split; [done|]. split; [done|]. by rewrite Hn2.
  - simpl in Hin. cbn [apply_frames] in Happ.
    destruct (apply_frame m (sess w)) as [r s'| | |] eqn:Hm; try discriminate.
    destruct (_initial_data s') eqn:Hi'; [discriminate|].
    rewrite (_recv_msg w m _ Hs Hin).
    destruct (_handleMessage_apply m (received [m] (map InMsg pre ++ InMsg done_ :: rest) w)
                r s' Hm) as (w2 & Hh & Hs2 & Hn2).
    unfold bind. rewrite Hh.
    apply (IH ins w2 s1).
    + rewrite Hs2. rewrite (apply_frame_sock m (sess w) s' r Hm). done.
    + by rewrite Hs2.
    + by rewrite Hn2.
    + simpl in Hlen. lia.
    + by rewrite Hs2.
Qed.

Lemma requests_stable__recv : stable (λ w, sent_requests (trace w)) _recv.
Proof.
  intros w. unfold _recv. destruct (_sock (sess w)); simpl; [|done].
  destruct (incoming (net w)) as [|[m|e] rest]; try done.
  simpl. by rewrite sent_requests_app, app_nil_r.
Qed.

Lemma requests_stable__handleMessage (m : message) :
  stable (λ w, sent_requests (trace w)) (_handleMessage m).
Proof.
  intros w. unfold _handleMessage, bind, modify.
  destruct (m !! "method") as [[z|name|l|d]|]; simpl;
    try (by rewrite sent_requests_app, app_nil_r).
  destruct (handler_of name) as [fn|].
  - unfold liftS. cbn [sess log].
    destruct (fn m (sess w)); try done; simpl; by rewrite sent_requests_app, app_nil_r.
  - simpl. by rewrite !sent_requests_app, !app_nil_r.
Qed.

Lemma requests_stable_sync_loop (ins : list inbound) :
  stable (λ w, sent_requests (trace w)) (sync_loop ins).
Proof.
  induction ins as [|x ins IH]; intros w; simpl;
    destruct (_initial_data (sess w)); try done.
  - exact (stable_bind (λ w, sent_requests (trace w)) _recv _ requests_stable__recv
             (λ _, stable_out_of_fuel _) w).
  - exact (stable_bind (λ w, sent_requests (trace w)) _recv _ requests_stable__recv
             (λ m, stable_bind _ _ _ (requests_stable__handleMessage m) (λ _, IH)) w).
Qed.

(** What [dict.values()] holds: every record of the cache, once per key. *)
Lemma values_spec (c : gmap key entity) :
  (∀ e, e ∈ values c ↔ ∃ k, c !! k = Some e) ∧ length (values c) = size c.
Proof.
  unfold values. split.
  - intros e. rewrite list_elem_of_fmap. split.
    + intros ([k e'] & -> & Hin). exists k. by apply elem_of_map_to_list.
    + intros (k & Hk). exists (k, e). split; [done|]. by apply elem_of_map_to_list.
  - by rewrite length_fmap, length_map_to_list.
Qed.

Section LazySync.

Variable cbs : cbid → callback.

(** X21: the first access to [channels] synchronizes.  On a connected
    session that has no initial data, the accessor sends one request,
    [enableAsyncMetadata] with [epg = 0], then applies every frame up to the
    completion marker and answers with the records of the channel cache
    these frames built, each once; the frames behind the marker stay on the
    socket, no observer is notified, and a second access is a pure read
    with the same answer. *)
Theorem channels_first_access_synchronizes
    (fuel : nat) (w : World) (reply done_ : message) (pre : list message)
    (rest : list inbound) (s1 : Session) :
  _sock (sess w) = true → _command_pending (sess w) = false →
  _initial_data (sess w) = false →
  incoming (net w) = InMsg reply :: map InMsg pre ++ InMsg done_ :: rest →
  reply !! "seq" = Some (VInt (_sequence (sess w))) →
  done_ !! "method" = Some (VStr "initialSyncCompleted") →
  apply_frames pre (set_sequence (_sequence (sess w) + 1) (set_events None (sess w)))
    = Some s1 →
  ∃ w' l, channels cbs fuel w = Return l w' ∧
          (∀ e, e ∈ l ↔ ∃ k, _channels s1 !! k = Some e) ∧
          length l = size (_channels s1) ∧
          sess w' = set_initial_data true s1 ∧
          incoming (net w') = rest ∧
          sent_requests (trace w')
            = sent_requests (trace w)
                ++ [request "enableAsyncMetadata" (Some (<["epg" := VInt 0]> ∅)) w] ∧
          observer_calls (trace w') = observer_calls (trace w) ∧
          ∀ fuel', channels cbs fuel' w' = Return l w'.
Proof.
  intros Hs Hp Hi Hin Ht Hdone Happ.
  set (a := <["epg" := VInt 0]> ∅ : message).
  set (w0 := upd_sess (set_events None) w).
  set (w1 := completed (received [reply] (map InMsg pre ++ InMsg done_ :: rest)
                          (sent "enableAsyncMetadata" (Some a) w0))).
  assert (sess w1 = set_sequence (_sequence (sess w) + 1) (set_events None (sess w)))
    as Hs1.
  { unfold w1, completed, received; cbn [sess upd_sess set_sess]. rewrite sent_sess.
    unfold w0; cbn [sess upd_sess set_sess]. destruct (sess w); simpl in *. by subst. }
  destruct (sync_loop_marker done_ rest pre Hdone (incoming (net w1)) w1 s1)
    as (w' & Hloop & Hsess & Hrest).
  { by rewrite Hs1. } { by rewrite Hs1. } { done. }
  { simpl. rewrite length_app, length_map. simpl. lia. } { by rewrite Hs1. }
  assert (channels cbs fuel w = Return (values (_channels s1)) w') as Hch.
  { unfold channels, bind at 1, ensure_initial_data, bind at 1, get at 1. rewrite Hi.
    unfold fetch_initial_data, bind at 1, modify at 1. fold w0.
    unfold bind at 1, _check_connection, bind at 1, get at 1.
    assert (_sock (sess w0) = true) as -> by done. unfold ret at 1.
    unfold bind at 1, _enable_async_metadata, bind at 1. fold a.
    rewrite (invoke_immediate_reply cbs fuel "enableAsyncMetadata" (Some a) w0 reply
               (map InMsg pre ++ InMsg done_ :: rest)) by done.
    fold w1. unfold ret at 1. unfold bind at 1, get at 1. rewrite Hloop.
    unfold bind, get, ret. by rewrite Hsess. }
  exists w', (values (_channels s1)).
  destruct (values_spec (_channels s1)) as [Hmem Hlen].
  split; [done|]. split; [done|]. split; [done|]. split; [done|]. split; [done|].
  pose proof (requests_stable_sync_loop (incoming (net w1)) w1) as Hq.
  pose proof (calls_stable_sync_loop (incoming (net w1)) w1) as Hc.
  rewrite Hloop in Hq, Hc.
  assert (request "enableAsyncMetadata" (Some a) w0 = request "enableAsyncMetadata" (Some a) w)
    as Hreq by reflexivity.
  assert (trace w1 = trace w ++ [EvSend (request "enableAsyncMetadata" (Some a) w);
                                 EvRecv reply]) as Htr.
  { unfold w1, completed, received, upd_sess, set_sess; cbn [trace].
    rewrite sent_trace, Hreq. by rewrite <- app_assoc. }
  split; [|split].
  - transitivity (sent_requests (trace w1)); [exact Hq|].
    by rewrite Htr, sent_requests_app.
  - transitivity (observer_calls (trace w1)); [exact Hc|].
    rewrite Htr, observer_calls_app.
    change (observer_calls [EvSend (request "enableAsyncMetadata" (Some a) w);
                            EvRecv reply]) with (@nil event).
    by rewrite app_nil_r.
  - intros fuel'. unfold channels, bind at 1.
    rewrite ensure_initial_data_done by (by rewrite Hsess).
    unfold bind, get, ret. by rewrite Hsess.
Qed.

End LazySync.

Lemma channels_first_access_synchronizes_witness :
  ∃ w' l, channels quiet_observers 1 unsynced_world = Return l w' ∧
          (∀ e, e ∈ l ↔ ∃ k, _channels synced_session !! k = Some e) ∧
          length l = size (_channels synced_session) ∧
          sess w' = set_initial_data true synced_session ∧
          incoming (net w') = [InMsg push_dvr] ∧
          sent_requests (trace w')
            = sent_requests (trace unsynced_world)
                ++ [request "enableAsyncMetadata" (Some (<["epg" := VInt 0]> ∅))
                      unsynced_world] ∧
          observer_calls (trace w') = observer_calls (trace unsynced_world) ∧
          ∀ fuel', channels quiet_observers fuel' w' = Return l w'.
Proof.
  apply (channels_first_access_synchronizes quiet_observers 1 unsynced_world
           sync_reply sync_completed [push_tag; channel_bbc] [InMsg push_dvr]
           synced_session);
    vm_compute; reflexivity.
Defined.

(** ** Verbs without a handler *)

Lemma handler_of_unhandled (name : string) :
  name ∉ handled_verbs → handler_of name = None.
Proof.
  intros Hn. unfold handler_of.
  repeat match goal with
         | |- context [String.eqb name ?v] =>
             destruct (String.eqb_spec name v) as [->|_];
             [exfalso; apply Hn; apply list_elem_of_In; simpl; tauto|]
         end.
  reflexivity.
Qed.

Section Unhandled.

Variable cbs : cbid → callback.

Lemma inert_well_behaved (l : list cbid) (v : value) (n : option entity) :
  inert cbs → well_behaved cbs l v n.
Proof. intros Hin c s nt _ Hl. exists s, nt. by rewrite Hin. Qed.

(** X22: a verb outside the twelve handled ones ([tagDelete],
    [channelDelete], [eventUpdate], ...) is not an error.  The cache step
    reports it as not handled, returns [None] and leaves session and socket
    as they are (so a tag or a channel the server deletes stays cached);
    the dispatch then walks the observers with the verb and [None], from
    the first one on, whatever the observers are.  With observers that
    change nothing, each is called once, in registration order, and the
    session is still as it was. *)
Theorem unhandled_verb_is_ignored_but_announced
    (fuel : nat) (m : message) (name : string) (w : World) :
  m !! "method" = Some (VStr name) → name ∉ handled_verbs →
  ∃ w1, _handleMessage m w = Return None w1 ∧
        sess w1 = sess w ∧ net w1 = net w ∧
        trace w1 = trace w ++ [EvHandle m; EvNotHandled ("_handle_" +:+ name) m] ∧
        (n <- _handleMessage m ;; _notify cbs fuel m n) w
          = notify_loop cbs fuel 0%nat (VStr name) None w1 ∧
        (inert cbs → (length (_callbacks (sess w)) ≤ fuel)%nat →
         ∃ w', (n <- _handleMessage m ;; _notify cbs fuel m n) w = Return tt w' ∧
               sess w' = sess w ∧
               trace w' = trace w1
                            ++ map (λ c, EvCall c (VStr name) None) (_callbacks (sess w))).
Proof.
  intros Hm Hn.
  set (w1 := log (EvNotHandled ("_handle_" +:+ name) m) (log (EvHandle m) w)).
  assert (_handleMessage m w = Return None w1) as Hh.
  { unfold _handleMessage, bind, modify. by rewrite Hm, (handler_of_unhandled name Hn). }
  assert ((n <- _handleMessage m ;; _notify cbs fuel m n) w
          = notify_loop cbs fuel 0%nat (VStr name) None w1) as Hd.
  { unfold bind. rewrite Hh. unfold _notify, bind, getitem. by rewrite Hm. }
  exists w1. split; [done|]. split; [done|]. split; [done|]. split.
  { unfold w1; simpl. by rewrite <- app_assoc. }
  split; [done|]. intros Hin Hfuel.
  destruct (notify_loop_well_behaved cbs (_callbacks (sess w1)) (VStr name) None
              (inert_well_behaved _ _ _ Hin) fuel 0%nat w1) as (w' & Hw' & Ht & _);
    [done|simpl; lia|].
  destruct (notify_loop_inert cbs Hin (VStr name) None fuel 0%nat w1)
    as (w'' & Hw'' & Hs & _); [simpl; lia|].
  rewrite Hw' in Hw''. injection Hw'' as <-.
  exists w'. split; [by rewrite Hd|]. split; [by rewrite Hs|].
  by rewrite Ht, drop_0.
Qed.

End Unhandled.

Lemma unhandled_verb_is_ignored_but_announced_witness :
  ∃ w1, _handleMessage tag_delete tagged_world = Return None w1 ∧
        sess w1 = sess tagged_world ∧ net w1 = net tagged_world ∧
        trace w1 = trace tagged_world
                     ++ [EvHandle tag_delete;
                         EvNotHandled ("_handle_" +:+ "tagDelete") tag_delete] ∧
        (n <- _handleMessage tag_delete ;; _notify quiet_observers 2 tag_delete n)
          tagged_world
          = notify_loop quiet_observers 2 0%nat (VStr "tagDelete") None w1 ∧
        (inert quiet_observers → (length (_callbacks (sess tagged_world)) ≤ 2)%nat →
         ∃ w', (n <- _handleMessage tag_delete ;; _notify quiet_observers 2 tag_delete n)
                 tagged_world = Return tt w' ∧
               sess w' = sess tagged_world ∧
               trace w' = trace w1
                            ++ map (λ c, EvCall c (VStr "tagDelete") None)
                                 (_callbacks (sess tagged_world))).
Proof.
  apply (unhandled_verb_is_ignored_but_announced quiet_observers 2 tag_delete "tagDelete"
           tagged_world).
  - vm_compute; reflexivity.
  - intros Hin. apply list_elem_of_In in Hin. simpl in Hin.
    repeat (destruct Hin as [Hin|Hin]; [discriminate Hin|]). exact Hin.
Defined.
